(** * golisp: arithmetic builtins, the debugger's error policy and the
      vector primitives

    A shallow embedding of three source files of the interpreter:
    - the early arithmetic builtins ([Add], [Subtract], [Multiply],
      [Quotient], [If]),
    - the debugging primitives ([DebugRepl], [ProcessError]),
    - the vector primitives of [prim_vector.go].

    Go's [(result *Data, err error)] pairs become explicit outcomes, Go's
    run-time panics become an outcome of their own, the global debugger
    flags become a record threaded through the calls, and the backing
    arrays of Go slices live in an explicit store so that aliasing between
    vectors is visible. *)

From Stdlib Require Import ZArith Lia String Ascii.
From stdpp Require Import base option list gmap strings.

Local Open Scope string_scope.
Local Open Scope list_scope.
Local Open Scope Z_scope.

(** ** Values *)

(** A backing array of a Go slice is named by its address. *)
Abbreviation loc := positive.

(** A Go slice header [[]*Data]: the backing array, the position of the
    slice's first element in it, its length and its capacity. *)
Record Slice : Type := MkSlice {
  s_array : loc;
  s_off : nat;
  s_len : nat;
  s_cap : nat
}.

(** Modelled from the spec: the [Data] tagged union of data.go (the file is
    not among the sources).  [Nil] is the nil [*Data]; a list is a chain of
    [ConsCell]s ended by [Nil]; [Integer] is the number kind, of type
    [NumberType]; a vector wraps a slice without copying it.  The kinds no
    modelled function looks at (floats, closures, primitives, host
    objects) are left out. *)
Inductive Data : Type :=
| Nil
| ConsCell (car cdr : Data)
| Integer (n : Z)
| Boolean (b : bool)
| StringD (s : string)
| Symbol (s : string)
| Vector (vals : Slice).

Inductive DataType : Type :=
| NilType | ConsCellType | NumberType | BooleanType
| StringType | SymbolType | VectorType.

#[global] Instance DataType_eq_dec : EqDecision DataType.
Proof. solve_decision. Defined.

#[global] Instance Slice_eq_dec : EqDecision Slice.
Proof. solve_decision. Defined.

#[global] Instance Data_eq_dec : EqDecision Data.
Proof. solve_decision. Defined.

(** Modelled from the spec: the type predicates, constructors and accessors
    of data.go (missing from the sources).  An accessor applied to a value
    of another kind answers that kind's zero value. *)
Definition TypeOf (d : Data) : DataType :=
  match d with
  | Nil => NilType
  | ConsCell _ _ => ConsCellType
  | Integer _ => NumberType
  | Boolean _ => BooleanType
  | StringD _ => StringType
  | Symbol _ => SymbolType
  | Vector _ => VectorType
  end.

Definition NilP (d : Data) : bool :=
  match d with Nil => true | _ => false end.

Definition NotNilP (d : Data) : bool := negb (NilP d).

Definition Car (d : Data) : Data :=
  match d with ConsCell a _ => a | _ => Nil end.

Definition Cdr (d : Data) : Data :=
  match d with ConsCell _ b => b | _ => Nil end.

Definition Cadr (d : Data) : Data := Car (Cdr d).
Definition Caddr (d : Data) : Data := Car (Cdr (Cdr d)).
Definition Cdddr (d : Data) : Data := Cdr (Cdr (Cdr d)).

Definition First (d : Data) : Data := Car d.
Definition Second (d : Data) : Data := Cadr d.
Definition Third (d : Data) : Data := Caddr d.

Fixpoint Length (d : Data) : nat :=
  match d with
  | ConsCell _ rest => S (Length rest)
  | _ => O
  end.

Definition IntValue (d : Data) : Z :=
  match d with Integer n => n | _ => 0 end.

Definition NumberWithValue (n : Z) : Data := Integer n.

Definition IntegerP (d : Data) : bool :=
  match d with Integer _ => true | _ => false end.

Definition IntegerValue (d : Data) : Z := IntValue d.

Definition IntegerWithValue (n : Z) : Data := Integer n.

Definition VectorP (d : Data) : bool :=
  match d with Vector _ => true | _ => false end.

Definition VectorValue (d : Data) : Slice :=
  match d with Vector s => s | _ => MkSlice 1%positive 0 0 0 end.

Definition VectorWithValue (vals : Slice) : Data := Vector vals.

Definition StringWithValue (s : string) : Data := StringD s.

(** The argument list the evaluator hands to a primitive: the cons chain
    holding the elements of [l] in order. *)
Fixpoint ArrayToList (l : list Data) : Data :=
  match l with
  | [] => Nil
  | x :: rest => ConsCell x (ArrayToList rest)
  end.

(** ** Machine integers *)

(** Go's [int] on the 64-bit targets the interpreter is built for:
    arithmetic wraps around in two's complement. *)
Definition int_bits : Z := 64.
Definition int_modulus : Z := 2 ^ int_bits.
Definition int_min : Z := - 2 ^ (int_bits - 1).
Definition int_max : Z := 2 ^ (int_bits - 1) - 1.

Definition wrap (z : Z) : Z := (z - int_min) mod int_modulus + int_min.

Definition in_int_range (z : Z) : Prop := int_min <= z <= int_max.

(** The operators of Go's [int]. *)
Definition int_add (a b : Z) : Z := wrap (a + b).
Definition int_sub (a b : Z) : Z := wrap (a - b).
Definition int_mul (a b : Z) : Z := wrap (a * b).
Definition int_neg (a : Z) : Z := wrap (- a).

(** [a / b] truncates toward zero; a zero divisor is a run-time panic,
    which [None] stands for. *)
Definition int_quo (a b : Z) : option Z :=
  if b =? 0 then None else Some (wrap (Z.quot a b)).

(** ** The arithmetic builtins *)

(** The run-time panics of Go that the modelled code can raise. *)
Inductive Fault : Type :=
| IntegerDivideByZero
| IndexOutOfRange
| SliceBoundsOutOfRange
| MakeLenOutOfRange.

(** A call of a builtin [func(args *Data) (result *Data, err error)]
    either returns its two results ([err = nil] is [None]) or panics. *)
Inductive Result : Type :=
| Returns (result : Data) (err : option string)
| Panics (f : Fault).

(** [for c := args; NotNilP(c); c = Cdr(c)] of [Add].  A cell that is
    neither nil nor a pair has a nil [Car], which is not a number. *)
Fixpoint Add_loop (c : Data) (acc : Z) : Result :=
  match c with
  | Nil => Returns (NumberWithValue acc) None
  | ConsCell x rest =>
      if decide (TypeOf x ≠ NumberType) then Returns Nil (Some "Number expected")
      else Add_loop rest (int_add acc (IntValue x))
  | _ => Returns Nil (Some "Number expected")
  end.

Definition Add (args : Data) : Result := Add_loop args 0.

Fixpoint Subtract_loop (c : Data) (acc : Z) : Result :=
  match c with
  | Nil => Returns (NumberWithValue acc) None
  | ConsCell x rest =>
      if decide (TypeOf x ≠ NumberType) then Returns Nil (Some "Number expected")
      else Subtract_loop rest (int_sub acc (IntValue x))
  | _ => Returns Nil (Some "Number expected")
  end.

Definition Subtract (args : Data) : Result :=
  if decide (TypeOf (Car args) ≠ NumberType) then Returns Nil (Some "Number expected")
  else
    let acc := IntValue (Car args) in
    if decide (Length args = 1%nat) then Returns (NumberWithValue (int_neg acc)) None
    else Subtract_loop (Cdr args) acc.

Fixpoint Multiply_loop (c : Data) (acc : Z) : Result :=
  match c with
  | Nil => Returns (NumberWithValue acc) None
  | ConsCell x rest =>
      if decide (TypeOf x ≠ NumberType) then Returns Nil (Some "Number expected")
      else Multiply_loop rest (int_mul acc (IntValue x))
  | _ => Returns Nil (Some "Number expected")
  end.

Definition Multiply (args : Data) : Result := Multiply_loop args 1.

(** [acc /= IntValue(Car(c))] has no guard: a zero divisor panics. *)
Fixpoint Quotient_loop (c : Data) (acc : Z) : Result :=
  match c with
  | Nil => Returns (NumberWithValue acc) None
  | ConsCell x rest =>
      if decide (TypeOf x ≠ NumberType) then Returns Nil (Some "Number expected")
      else
        match int_quo acc (IntValue x) with
        | Some q => Quotient_loop rest q
        | None => Panics IntegerDivideByZero
        end
  | _ => Returns Nil (Some "Number expected")
  end.

Definition Quotient (args : Data) : Result :=
  if decide (TypeOf (Car args) ≠ NumberType) then Returns Nil (Some "Number expected")
  else Quotient_loop (Cdr args) (IntValue (Car args)).

(** What the specification calls the folds of the operators: the plain
    left folds over the operands, partial for division. *)
Definition fold_quo (n : Z) (ns : list Z) : option Z :=
  foldl (λ acc d, acc ≫= λ a, int_quo a d) (Some n) ns.

Definition sum_list (ns : list Z) : Z := foldr Z.add 0 ns.
Definition product_list (ns : list Z) : Z := foldr Z.mul 1 ns.

(** ** The conditional *)

Section Conditional.
Context {World : Type}.

(** The evaluator of that revision, [Eval(d *Data) *Data], acts on the
    interpreter's state; [BooleanValue] is the truth accessor of data.go.
    Both are outside the sources and stay parameters. *)
Variable Eval : Data → World → Data * World.
Variable BooleanValue : Data → bool.

(** The state [If] runs in, with the expressions handed to [Eval] so far. *)
Record Machine : Type := MkMachine {
  m_world : World;
  evaluated : list Data
}.

Definition EvalLogged (d : Data) (m : Machine) : Data * Machine :=
  let '(v, w) := Eval d (m_world m) in
  (v, {| m_world := w; evaluated := evaluated m ++ [d] |}).

Definition If (args : Data) (m : Machine) : Result * Machine :=
  let '(c, m1) := EvalLogged (Car args) m in
  let condition := BooleanValue c in
  let thenClause := Cadr args in
  let elseClause := Caddr args in
  if decide (Cdddr args ≠ Nil) then
    (Returns Nil (Some "Too many arguments to IF"), m1)
  else if condition then
    let '(r, m2) := EvalLogged thenClause m1 in (Returns r None, m2)
  else
    let '(r, m2) := EvalLogged elseClause m1 in (Returns r None, m2).

End Conditional.

(** ** The debugger *)

(** Modelled from the spec: an environment frame, a set of bindings with a
    parent link (the frame type is declared outside the sources). *)
Inductive SymbolTableFrame : Type :=
| GlobalFrame (Bindings : list (string * Data))
| ChildFrame (Bindings : list (string * Data)) (Up : SymbolTableFrame).

Definition Parent (env : SymbolTableFrame) : option SymbolTableFrame :=
  match env with
  | GlobalFrame _ => None
  | ChildFrame _ up => Some up
  end.

(** A message assembled by [fmt.Sprintf], kept as its pieces: the literal
    text and the operands of the verbs ([%s] of the rendering [String(d)]
    of a value, [%d] of an integer, [%s] handed an integer). *)
Inductive Piece : Type :=
| Lit (s : string)
| Verb_s (d : Data)
| Verb_d (n : Z)
| Verb_s_int (n : Z).

Abbreviation Message := (list Piece).

(** The process-wide debugger variables. *)
Record DebugFlags : Type := MkFlags {
  DebugTrace : bool;
  DebugOnError : bool;
  IsInteractive : bool;
  DebugEvalInDebugRepl : bool;
  DebugSingleStep : bool;
  DebugCurrentFrame : option SymbolTableFrame;
  DebugReturnValue : Data
}.

Definition set_DebugTrace (b : bool) (g : DebugFlags) : DebugFlags :=
  MkFlags b (DebugOnError g) (IsInteractive g) (DebugEvalInDebugRepl g)
          (DebugSingleStep g) (DebugCurrentFrame g) (DebugReturnValue g).

Definition set_DebugOnError (b : bool) (g : DebugFlags) : DebugFlags :=
  MkFlags (DebugTrace g) b (IsInteractive g) (DebugEvalInDebugRepl g)
          (DebugSingleStep g) (DebugCurrentFrame g) (DebugReturnValue g).

Definition set_DebugEvalInDebugRepl (b : bool) (g : DebugFlags) : DebugFlags :=
  MkFlags (DebugTrace g) (DebugOnError g) (IsInteractive g) b
          (DebugSingleStep g) (DebugCurrentFrame g) (DebugReturnValue g).

Definition set_DebugSingleStep (b : bool) (g : DebugFlags) : DebugFlags :=
  MkFlags (DebugTrace g) (DebugOnError g) (IsInteractive g) (DebugEvalInDebugRepl g)
          b (DebugCurrentFrame g) (DebugReturnValue g).

Definition set_DebugCurrentFrame (f : option SymbolTableFrame) (g : DebugFlags) : DebugFlags :=
  MkFlags (DebugTrace g) (DebugOnError g) (IsInteractive g) (DebugEvalInDebugRepl g)
          (DebugSingleStep g) f (DebugReturnValue g).

Definition set_DebugReturnValue (d : Data) (g : DebugFlags) : DebugFlags :=
  MkFlags (DebugTrace g) (DebugOnError g) (IsInteractive g) (DebugEvalInDebugRepl g)
          (DebugSingleStep g) (DebugCurrentFrame g) d.

Definition DebugCommandPrefix : string := ":".

(** [strings.HasPrefix], [strings.TrimPrefix], [strings.Split] on a
    one-character separator and [strings.Join]. *)
Definition HasPrefix (s p : string) : bool := String.prefix p s.

Definition TrimPrefix (s p : string) : string :=
  if HasPrefix s p
  then String.substring (String.length p) (String.length s - String.length p) s
  else s.

Fixpoint Split (s : string) (sep : ascii) : list string :=
  match s with
  | EmptyString => [EmptyString]
  | String c rest =>
      if Ascii.eqb c sep then EmptyString :: Split rest sep
      else
        match Split rest sep with
        | tok :: toks => String c tok :: toks
        | [] => [String c EmptyString]
        end
  end.

Definition Join (toks : list string) (sep : string) : string :=
  String.concat sep toks.

Definition processState (tokens : list string) : bool * bool :=
  if decide (length tokens ≠ 2%nat) then (false, false)
  else
    let t1 := nth 1 tokens EmptyString in
    if String.eqb t1 "on" then (true, true)
    else if String.eqb t1 "off" then (true, false)
    else (false, false).

Section Debugger.
Context {W : Type}.

(** The interpreter's state: the debugger variables and everything else
    (environments, the store of vectors). *)
Record State : Type := MkState {
  flags : DebugFlags;
  world : W
}.

Definition with_flags (f : DebugFlags → DebugFlags) (st : State) : State :=
  MkState (f (flags st)) (world st).

(** What a call of [Eval(code, env)] comes to: its two results and the
    state it leaves, or a panic (which [DebugRepl] recovers from). *)
Inductive EvalOutcome : Type :=
| EvalReturns (d : Data) (err : option Message) (st : State)
| EvalPanics (st : State).

(** The reader and the evaluator are outside the sources. *)
Variable Parse : string → Data * option Message.
Variable Eval : Data → SymbolTableFrame → State → EvalOutcome.

(** A run of code that reads the debugger's input: it comes back with an
    answer, the state and the lines not read yet; or [QuitImpl] ends the
    process; or the input ran dry and [ReadLine] blocks. *)
Inductive Run (A : Type) : Type :=
| Done (a : A) (st : State) (rest : list string)
| Exits (st : State)
| AwaitsInput (st : State).
Arguments Done {A} a st rest.
Arguments Exits {A} st.
Arguments AwaitsInput {A} st.

(** [DebugRepl]: one iteration per line read at the prompt.  [lines] are
    the lines [ReadLine] delivers to this loop, in order.  What the loop
    prints is left out. *)
Fixpoint DebugRepl (env : SymbolTableFrame) (lines : list string) (st : State)
  : Run unit :=
  match lines with
  | [] => AwaitsInput st
  | input :: rest =>
    if decide (input ≠ EmptyString) then
      if HasPrefix input DebugCommandPrefix then
        let cmd := TrimPrefix input DebugCommandPrefix in
        let tokens := Split cmd " "%char in
        let tok0 := hd EmptyString tokens in
        if String.eqb tok0 "?" then DebugRepl env rest st
        else if String.eqb tok0 "b" then DebugRepl env rest st
        else if String.eqb tok0 "c" then
          Done tt (with_flags (λ g, set_DebugEvalInDebugRepl false
                                      (set_DebugSingleStep false
                                        (set_DebugCurrentFrame None g))) st) rest
        else if String.eqb tok0 "d" then DebugRepl env rest st
        else if String.eqb tok0 "e" then
          let '(ok, state) := processState tokens in
          DebugRepl env rest (if ok then with_flags (set_DebugOnError state) st else st)
        else if String.eqb tok0 "f" then DebugRepl env rest st
        else if String.eqb tok0 "q" then Exits st
        else if String.eqb tok0 "r" then
          let st1 := with_flags (set_DebugEvalInDebugRepl true) st in
          let '(code, _) := Parse (Join (tl tokens) " ") in
          match Eval code env st1 with
          | EvalReturns d err st2 =>
              let st3 := with_flags (set_DebugEvalInDebugRepl false) st2 in
              match err with
              | Some _ => DebugRepl env rest st3
              | None =>
                  Done tt (with_flags (λ g, set_DebugEvalInDebugRepl false
                                              (set_DebugSingleStep false
                                                (set_DebugCurrentFrame None
                                                  (set_DebugReturnValue d g)))) st3) rest
              end
          | EvalPanics st2 => Done tt st2 rest
          end
        else if String.eqb tok0 "s" then
          Done tt (with_flags (set_DebugSingleStep true) st) rest
        else if String.eqb tok0 "t" then
          let '(ok, state) := processState tokens in
          DebugRepl env rest (if ok then with_flags (set_DebugTrace state) st else st)
        else if String.eqb tok0 "u" then
          match Parent env with
          | Some _ => Done tt (with_flags (set_DebugCurrentFrame (Some env)) st) rest
          | None => DebugRepl env rest st
          end
        else DebugRepl env rest st
      else
        let '(code, err) := Parse input in
        match err with
        | Some _ => DebugRepl env rest st
        | None =>
            let st1 := with_flags (set_DebugEvalInDebugRepl true) st in
            match Eval code env st1 with
            | EvalReturns d _ st2 =>
                DebugRepl env rest (with_flags (set_DebugEvalInDebugRepl false) st2)
            | EvalPanics st2 => Done tt st2 rest
            end
        end
    else DebugRepl env rest st
  end.

Definition rerouted (g : DebugFlags) : bool :=
  DebugOnError g && IsInteractive g && negb (DebugEvalInDebugRepl g).

Definition ProcessError (errorMessage : Message) (env : SymbolTableFrame)
    (lines : list string) (st : State) : Run (option Message) :=
  if rerouted (flags st) then
    match DebugRepl env lines st with
    | Done _ st' rest => Done None st' rest
    | Exits st' => Exits st'
    | AwaitsInput st' => AwaitsInput st'
    end
  else Done (Some errorMessage) st lines.

(** Modelled from the spec: the evaluator's side of the recovery (the
    evaluator is outside the sources).  When a command has set the pending
    override, that value becomes the successful result of the evaluation
    that failed and the override is consumed; otherwise the results of the
    call stand. *)
Definition ResumeCallSite (result : Data) (err : option Message) (st : State)
  : Data * option Message * State :=
  match DebugReturnValue (flags st) with
  | Nil => (result, err, st)
  | v => (v, None, with_flags (set_DebugReturnValue Nil) st)
  end.

End Debugger.

Arguments State W : clear implicits.
Arguments Run W A : clear implicits.
Arguments EvalOutcome W : clear implicits.
Arguments MkState {W} flags world.
Arguments EvalReturns {W} d err st.
Arguments EvalPanics {W} st.
Arguments Done {W A} a st rest.
Arguments Exits {W A} st.
Arguments AwaitsInput {W A} st.

(** ** The store of backing arrays and Go's slice operations *)

Abbreviation Heap := (gmap loc (list Data)).

Definition array_at (h : Heap) (l : loc) : list Data := default [] (h !! l).

(** The elements a slice shows: [len] cells of its array from [off] on. *)
Definition slice_elems (h : Heap) (s : Slice) : list Data :=
  take (s_len s) (drop (s_off s) (array_at h (s_array s))).

(** The longest slice of pointers [make] accepts: the 64-bit run time
    refuses, with a panic, a request of more than 2^48 bytes, that is of
    more than 2^45 pointers, whatever memory the machine has.  Whether the
    memory for a smaller request is there is outside this model. *)
Definition max_slice_len : Z := 2 ^ 45.

(** A slice of a running program lies within an allocated array, and no
    array is longer than the run time allows. *)
Definition slice_valid (h : Heap) (s : Slice) : Prop :=
  (s_len s ≤ s_cap s)%nat ∧
  (s_off s + s_cap s ≤ length (array_at h (s_array s)))%nat ∧
  is_Some (h !! s_array s) ∧
  Z.of_nat (length (array_at h (s_array s))) ≤ max_slice_len.

(** [values[i]]: [None] is the index-out-of-range panic. *)
Definition index_get (h : Heap) (s : Slice) (i : Z) : option Data :=
  if decide (0 ≤ i < Z.of_nat (s_len s)) then
    Some (default Nil (array_at h (s_array s) !! (s_off s + Z.to_nat i)%nat))
  else None.

(** [values[i] = x]. *)
Definition index_set (h : Heap) (s : Slice) (i : Z) (x : Data) : option Heap :=
  if decide (0 ≤ i < Z.of_nat (s_len s)) then
    Some (<[s_array s := <[(s_off s + Z.to_nat i)%nat := x]> (array_at h (s_array s))]> h)
  else None.

(** [values[lo:hi]]: the same array seen from [lo] on. *)
Definition reslice (s : Slice) (lo hi : Z) : option Slice :=
  if decide (0 ≤ lo ∧ lo ≤ hi ∧ hi ≤ Z.of_nat (s_cap s)) then
    Some (MkSlice (s_array s) (s_off s + Z.to_nat lo)
                  (Z.to_nat (hi - lo)) (s_cap s - Z.to_nat lo))
  else None.

(** [make([]*Data, n, c)]: a fresh array of [c] nil cells; [None] is the
    panic of [make] on a negative length, a capacity below the length or a
    capacity above [max_slice_len]. *)
Definition make_slice (h : Heap) (n c : Z) : option (Slice * Heap) :=
  if decide (0 ≤ n ∧ n ≤ c ∧ c ≤ max_slice_len) then
    let l := fresh (dom h) in
    Some (MkSlice l 0 (Z.to_nat n) (Z.to_nat c), <[l := replicate (Z.to_nat c) Nil]> h)
  else None.

(** [append(s, x)]: in place while the capacity lasts, else into a fresh,
    larger array (how much larger is the run time's choice; doubling here). *)
Definition append (h : Heap) (s : Slice) (x : Data) : Slice * Heap :=
  if decide (s_len s < s_cap s)%nat then
    (MkSlice (s_array s) (s_off s) (S (s_len s)) (s_cap s),
     <[s_array s := <[(s_off s + s_len s)%nat := x]> (array_at h (s_array s))]> h)
  else
    let l := fresh (dom h) in
    let c := (2 * s_cap s + 1)%nat in
    (MkSlice l 0 (S (s_len s)) c,
     <[l := (slice_elems h s ++ x :: replicate (c - S (s_len s)) Nil)%list]> h).

(** ** The vector primitives *)

(** A call of a primitive [func(args *Data, env *SymbolTableFrame)]:
    - [Returned r h]: it returns [r] and a nil error;
    - [Failed msg env h]: it runs [err = ProcessError(msg, env); return], so
      its result stays nil and its error is what [ProcessError] answers;
    - [Panicked f]: the run time panics in it.
    [h] is the store at that point. *)
Inductive PrimOutcome : Type :=
| Returned (result : Data) (h : Heap)
| Failed (msg : Message) (env : SymbolTableFrame) (h : Heap)
| Panicked (f : Fault).

Definition VectorCopyImpl (args : Data) (env : SymbolTableFrame) (h : Heap)
  : PrimOutcome :=
  let vect := First args in
  if negb (VectorP vect) then
    Failed [Lit "vector-copy needs a vector as its argument, but got ";
            Verb_s vect; Lit "."] env h
  else
    let v := VectorValue vect in
    match make_slice h 0 (Z.of_nat (s_len v)) with
    | None => Panicked MakeLenOutOfRange
    | Some (newV0, h0) =>
        let '(newV, h1) :=
          foldl (λ '(nv, hh) e, append hh nv e) (newV0, h0) (slice_elems h v) in
        Returned (VectorWithValue newV) h1
    end.

(** [for i, val := range originalValues { vals[i] = val }], [n] rounds
    from index [i] on. *)
Fixpoint copy_range (n : nat) (i : Z) (src dst : Slice) (h : Heap) : option Heap :=
  match n with
  | O => Some h
  | S n' =>
      match index_get h src i with
      | None => None
      | Some val =>
          match index_set h dst i val with
          | None => None
          | Some h' => copy_range n' (i + 1) src dst h'
          end
      end
  end.

Definition VectorGrowImpl (args : Data) (env : SymbolTableFrame) (h : Heap)
  : PrimOutcome :=
  let v := First args in
  if negb (VectorP v) then
    Failed [Lit "vector-grow needs a vector as its first argument, but got ";
            Verb_s v; Lit "."] env h
  else
    let originalValues := VectorValue v in
    let k := Second args in
    if negb (IntegerP k) then
      Failed [Lit "vector-grow needs an integer as its second argument, but got ";
              Verb_s k; Lit "."] env h
    else
      let size := IntegerValue k in
      if decide (size ≤ Z.of_nat (s_len originalValues)) then
        Failed [Lit "vector-grow needs a new size that is larger than the size of its vector argument (";
                Verb_d (Z.of_nat (s_len originalValues)); Lit "), but got ";
                Verb_s_int size; Lit "."] env h
      else
        match make_slice h size size with
        | None => Panicked MakeLenOutOfRange
        | Some (vals, h0) =>
            match copy_range (s_len originalValues) 0 originalValues vals h0 with
            | None => Panicked IndexOutOfRange
            | Some h1 => Returned (VectorWithValue vals) h1
            end
        end.

Definition VectorRefImpl (args : Data) (env : SymbolTableFrame) (h : Heap)
  : PrimOutcome :=
  let v := First args in
  if negb (VectorP v) then
    Failed [Lit "vector-ref needs a vector as its first argument, but got ";
            Verb_s v; Lit "."] env h
  else
    let values := VectorValue v in
    let k := Second args in
    if negb (IntegerP k) then
      Failed [Lit "vector-ref needs an integer as its second argument, but got ";
              Verb_s k; Lit "."] env h
    else
      let index := IntegerValue k in
      if decide (index >= Z.of_nat (s_len values)) then
        Failed [Lit "vector-ref needs an index less than the vector length, but got ";
                Verb_d index; Lit "."] env h
      else
        match index_get h values index with
        | Some result => Returned result h
        | None => Panicked IndexOutOfRange
        end.

Definition VectorSetImpl (args : Data) (env : SymbolTableFrame) (h : Heap)
  : PrimOutcome :=
  let v := First args in
  if negb (VectorP v) then
    Failed [Lit "vector-set! needs a vector as its first argument, but got ";
            Verb_s v; Lit "."] env h
  else
    let k := Second args in
    if negb (IntegerP k) then
      Failed [Lit "vector-set! needs an integer as its second argument, but got ";
              Verb_s k; Lit "."] env h
    else
      let values := VectorValue v in
      let kval := IntegerValue k in
      let newValue := Third args in
      match index_set h values kval newValue with
      | Some h' => Returned (StringWithValue "OK") h'
      | None => Panicked IndexOutOfRange
      end.

Definition VectorBinarySearchImpl (args : Data) (env : SymbolTableFrame) (h : Heap)
  : PrimOutcome :=
  Returned Nil h.

Definition SubVectorImpl (args : Data) (env : SymbolTableFrame) (h : Heap)
  : PrimOutcome :=
  let v := First args in
  if negb (VectorP v) then
    Failed [Lit "subvector needs a vector as its argument, but got ";
            Verb_s v; Lit "."] env h
  else
    let values := VectorValue v in
    let start := Second args in
    if negb (IntegerP start) then
      Failed [Lit "subvector needs an integer as its starting index, but got ";
              Verb_s start; Lit "."] env h
    else
      let startIndex := IntegerValue start in
      if decide (startIndex < 0 ∨ startIndex >= Z.of_nat (s_len values)) then
        Failed [Lit "subvector starting index is out of bounds (0-";
                Verb_d (Z.of_nat (s_len values) - 1); Lit "), got ";
                Verb_d startIndex; Lit "."] env h
      else
        let end_ := Third args in
        if negb (IntegerP end_) then
          Failed [Lit "subvector needs an integer as its ending index, but got ";
                  Verb_s end_; Lit "."] env h
        else
          let endIndex := IntegerValue end_ in
          if decide (endIndex < startIndex ∨ endIndex > Z.of_nat (s_len values)) then
            Failed [Lit "subvector ending index is out of bounds (";
                    Verb_d startIndex; Lit "-"; Verb_d (Z.of_nat (s_len values));
                    Lit "), got "; Verb_d startIndex; Lit "."] env h
          else
            match reslice values startIndex endIndex with
            | Some sub => Returned (VectorWithValue sub) h
            | None => Panicked SliceBoundsOutOfRange
            end.

Definition VectorHeadImpl (args : Data) (env : SymbolTableFrame) (h : Heap)
  : PrimOutcome :=
  let v := First args in
  if negb (VectorP v) then
    Failed [Lit "vector-head needs a vector as its argument, but got ";
            Verb_s v; Lit "."] env h
  else
    let values := VectorValue v in
    let end_ := Second args in
    if negb (IntegerP end_) then
      Failed [Lit "vector-head needs an integer as its ending index, but got ";
              Verb_s end_; Lit "."] env h
    else
      let endIndex := IntegerValue end_ in
      if decide (endIndex < 0 ∨ endIndex > Z.of_nat (s_len values)) then
        Failed [Lit "vector-head ending index is out of bounds (0-";
                Verb_d (Z.of_nat (s_len values)); Lit "), got ";
                Verb_d endIndex; Lit "."] env h
      else
        match reslice values 0 endIndex with
        | Some sub => Returned (VectorWithValue sub) h
        | None => Panicked SliceBoundsOutOfRange
        end.

Definition VectorTailImpl (args : Data) (env : SymbolTableFrame) (h : Heap)
  : PrimOutcome :=
  let v := First args in
  if negb (VectorP v) then
    Failed [Lit "vector-tail needs a vector as its argument, but got ";
            Verb_s v; Lit "."] env h
  else
    let values := VectorValue v in
    let start := Second args in
    if negb (IntegerP start) then
      Failed [Lit "vector-tail needs an integer as its starting index, but got ";
              Verb_s start; Lit "."] env h
    else
      let startIndex := IntegerValue start in
      if decide (startIndex < 0 ∨ startIndex > Z.of_nat (s_len values)) then
        Failed [Lit "vector-tail starting index is out of bounds (0-";
                Verb_d (Z.of_nat (s_len values)); Lit "), got ";
                Verb_d startIndex; Lit "."] env h
      else
        match reslice values startIndex (Z.of_nat (s_len values)) with
        | Some sub => Returned (VectorWithValue sub) h
        | None => Panicked SliceBoundsOutOfRange
        end.

(** A write through [a] at [i] is seen by a read through [b] at [j]. *)
Definition write_visible (h : Heap) (a : Data) (i : Z) (b : Data) (j : Z) : Prop :=
  ∀ (x : Data) (env : SymbolTableFrame), ∃ h',
    VectorSetImpl (ArrayToList [a; Integer i; x]) env h
      = Returned (StringWithValue "OK") h' ∧
    VectorRefImpl (ArrayToList [b; Integer j]) env h' = Returned x h'.

(** A write through [a] at [i] changes no read through [b]. *)
Definition write_invisible (h : Heap) (a : Data) (i : Z) (b : Data) : Prop :=
  ∀ (x : Data) (env : SymbolTableFrame), ∃ h',
    VectorSetImpl (ArrayToList [a; Integer i; x]) env h
      = Returned (StringWithValue "OK") h' ∧
    ∀ (j : Z) (d : Data),
      VectorRefImpl (ArrayToList [b; Integer j]) env h = Returned d h →
      VectorRefImpl (ArrayToList [b; Integer j]) env h' = Returned d h'.

(** ** Registration *)

Abbreviation PrimitiveBody := (Data → SymbolTableFrame → Heap → PrimOutcome).

(** A registered primitive: its name, its declared argument count and its
    body ([None] for the bodies that are not modelled here). *)
Record PrimitiveFunction : Type := MkPrimitive {
  Name : string;
  NumberOfArgs : string;
  Body : option PrimitiveBody
}.

(** [MakePrimitiveFunction] binds the name in the global frame; a later
    registration of a name shadows the earlier one. *)
Definition MakePrimitiveFunction (name argCount : string) (body : option PrimitiveBody)
    (globals : list PrimitiveFunction) : list PrimitiveFunction :=
  MkPrimitive name argCount body :: globals.

Fixpoint lookup_primitive (name : string) (globals : list PrimitiveFunction)
  : option PrimitiveFunction :=
  match globals with
  | [] => None
  | p :: rest => if String.eqb (Name p) name then Some p else lookup_primitive name rest
  end.

Definition RegisterVectorPrimitives (globals : list PrimitiveFunction)
  : list PrimitiveFunction :=
  let g := MakePrimitiveFunction "make-vector" "1|2" None globals in
  let g := MakePrimitiveFunction "vector" ">=1" None g in
  let g := MakePrimitiveFunction "vector-copy" "1" (Some VectorCopyImpl) g in
  let g := MakePrimitiveFunction "list->vector" "1" None g in
  let g := MakePrimitiveFunction "vector->list" "1" None g in
  let g := MakePrimitiveFunction "make-initialized-vector" "2" None g in
  let g := MakePrimitiveFunction "vector-grow" "2" (Some VectorGrowImpl) g in
  let g := MakePrimitiveFunction "vector-map" ">=2" None g in
  let g := MakePrimitiveFunction "vector-for-each" ">=2" None g in
  let g := MakePrimitiveFunction "vector-reduce" "3" None g in
  let g := MakePrimitiveFunction "vector-filter" "2" None g in
  let g := MakePrimitiveFunction "vector-remove" "2" None g in
  let g := MakePrimitiveFunction "vector?" "1" None g in
  let g := MakePrimitiveFunction "vector-length" "1" None g in
  let g := MakePrimitiveFunction "vector-ref" "2" (Some VectorRefImpl) g in
  let g := MakePrimitiveFunction "vector-set!" "3" (Some VectorSetImpl) g in
  let g := MakePrimitiveFunction "vector-first" "1" None g in
  let g := MakePrimitiveFunction "vector-second" "1" None g in
  let g := MakePrimitiveFunction "vector-third" "1" None g in
  let g := MakePrimitiveFunction "vector-fourth" "1" None g in
  let g := MakePrimitiveFunction "vector-fifth" "1" None g in
  let g := MakePrimitiveFunction "vector-sixth" "1" None g in
  let g := MakePrimitiveFunction "vector-seventh" "1" None g in
  let g := MakePrimitiveFunction "vector-eighth" "1" None g in
  let g := MakePrimitiveFunction "vector-ninth" "1" None g in
  let g := MakePrimitiveFunction "vector-tenth" "1" None g in
  let g := MakePrimitiveFunction "vector-binary-search" "4" (Some VectorBinarySearchImpl) g in
  let g := MakePrimitiveFunction "vector-find" "2" None g in
  let g := MakePrimitiveFunction "subvector" "3" (Some SubVectorImpl) g in
  let g := MakePrimitiveFunction "vector-head" "2" (Some VectorHeadImpl) g in
  let g := MakePrimitiveFunction "vector-tail" "2" (Some VectorTailImpl) g in
  let g := MakePrimitiveFunction "vector-fill!" "2" None g in
  let g := MakePrimitiveFunction "subvector-fill!" "4" None g in
  let g := MakePrimitiveFunction "subvector-move-left!" "5" None g in
  let g := MakePrimitiveFunction "subvector-move-right!" "5" None g in
  let g := MakePrimitiveFunction "vector-sort" "2" None g in
  MakePrimitiveFunction "vector-sort!" "2" None g.

(** ** A primitive call seen from its caller *)

Section Calls.
Variable Parse : string → Data * option Message.
Variable Eval : Data → SymbolTableFrame → State Heap → EvalOutcome Heap.

(** The two results a vector primitive hands back once [ProcessError] has
    answered, with the store of vectors as the rest of the interpreter's
    state; [inl f] is a panic that unwinds through the caller. *)
Definition CallPrimitive (body : PrimitiveBody) (args : Data) (env : SymbolTableFrame)
    (lines : list string) (st : State Heap)
  : Fault + Run Heap (Data * option Message) :=
  match body args env (world st) with
  | Returned r h => inr (Done (r, None) (MkState (flags st) h) lines)
  | Failed msg env' h =>
      inr match ProcessError Parse Eval msg env' lines (MkState (flags st) h) with
          | Done err st' rest => Done (Nil, err) st' rest
          | Exits st' => Exits st'
          | AwaitsInput st' => AwaitsInput st'
          end
  | Panicked f => inl f
  end.

End Calls.

(** ** More of the debugging primitives *)

Definition BooleanWithValue (b : bool) : Data := Boolean b.

Section DebugPrimitives.
Context {W : Type}.
Variable Parse : string → Data * option Message.
Variable Eval : Data → SymbolTableFrame → State W → EvalOutcome W.

(** The truth accessor of data.go, outside the sources. *)
Variable BooleanValue : Data → bool.

(** [debug-trace] and [debug-on-error]: with exactly one argument the
    variable is set from it; the variable's value is the result. *)
Definition DebugTraceImpl (args : Data) (env : SymbolTableFrame) (st : State W)
  : Data * option Message * State W :=
  let st1 :=
    if decide (Length args = 1%nat)
    then with_flags (set_DebugTrace (BooleanValue (Car args))) st
    else st in
  (BooleanWithValue (DebugTrace (flags st1)), None, st1).

Definition DebugOnErrorImpl (args : Data) (env : SymbolTableFrame) (st : State W)
  : Data * option Message * State W :=
  let st1 :=
    if decide (Length args = 1%nat)
    then with_flags (set_DebugOnError (BooleanValue (Car args))) st
    else st in
  (BooleanWithValue (DebugOnError (flags st1)), None, st1).

(** [debug]: the command loop on the caller's frame, then nil results. *)
Definition DebugImpl (args : Data) (env : SymbolTableFrame)
    (lines : list string) (st : State W) : Run W (Data * option Message) :=
  match DebugRepl Parse Eval env lines st with
  | Done _ st' rest => Done (Nil, None) st' rest
  | Exits st' => Exits st'
  | AwaitsInput st' => AwaitsInput st'
  end.

End DebugPrimitives.

(** ** More of the vector primitives *)

Definition Fourth (d : Data) : Data := Car (Cdddr d).
Definition Fifth (d : Data) : Data := Car (Cdr (Cdddr d)).

(** [values[i] = x] for [n] consecutive indices from [i] on. *)
Fixpoint fill_range (n : nat) (i : Z) (dst : Slice) (x : Data) (h : Heap) : option Heap :=
  match n with
  | O => Some h
  | S n' =>
      match index_set h dst i x with
      | None => None
      | Some h' => fill_range n' (i + 1) dst x h'
      end
  end.

Definition MakeVectorImpl (args : Data) (env : SymbolTableFrame) (h : Heap)
  : PrimOutcome :=
  let k := First args in
  if negb (IntegerP k) then
    Failed [Lit "make-vector needs an integer as its first argument, but got ";
            Verb_s k; Lit "."] env h
  else
    let size := IntegerValue k in
    let value := if decide (Length args = 2%nat) then Second args else Nil in
    match make_slice h size size with
    | None => Panicked MakeLenOutOfRange
    | Some (vals, h0) =>
        match fill_range (Z.to_nat size) 0 vals value h0 with
        | None => Panicked IndexOutOfRange
        | Some h1 => Returned (VectorWithValue vals) h1
        end
    end.

Definition VectorToListImpl (args : Data) (env : SymbolTableFrame) (h : Heap)
  : PrimOutcome :=
  let v := First args in
  if negb (VectorP v) then
    Failed [Lit "vector->list needs a vector as its argument, but got ";
            Verb_s v; Lit "."] env h
  else Returned (ArrayToList (slice_elems h (VectorValue v))) h.

Definition VectorPImpl (args : Data) (env : SymbolTableFrame) (h : Heap)
  : PrimOutcome :=
  let v := First args in
  Returned (BooleanWithValue (VectorP v)) h.

Definition VectorFirstImpl (args : Data) (env : SymbolTableFrame) (h : Heap)
  : PrimOutcome :=
  let v := First args in
  if negb (VectorP v) then
    Failed [Lit "vector-first needs a vector as its argument, but got ";
            Verb_s v; Lit "."] env h
  else
    let values := VectorValue v in
    if decide (Z.of_nat (s_len values) > 0) then
      match index_get h values 0 with
      | Some result => Returned result h
      | None => Panicked IndexOutOfRange
      end
    else
      Failed [Lit "vector-first needs a vector with length of at least 1, but got ";
              Verb_d (Z.of_nat (s_len values)); Lit "."] env h.

Definition VectorSecondImpl (args : Data) (env : SymbolTableFrame) (h : Heap)
  : PrimOutcome :=
  let v := First args in
  if negb (VectorP v) then
    Failed [Lit "vector-second needs a vector as its argument, but got ";
            Verb_s v; Lit "."] env h
  else
    let values := VectorValue v in
    if decide (Z.of_nat (s_len values) > 1) then
      match index_get h values 1 with
      | Some result => Returned result h
      | None => Panicked IndexOutOfRange
      end
    else
      Failed [Lit "vector-second needs a vector with length of at least 2, but got ";
              Verb_d (Z.of_nat (s_len values)); Lit "."] env h.

Definition VectorThirdImpl (args : Data) (env : SymbolTableFrame) (h : Heap)
  : PrimOutcome :=
  let v := First args in
  if negb (VectorP v) then
    Failed [Lit "vector-third needs a vector as its argument, but got ";
            Verb_s v; Lit "."] env h
  else
    let values := VectorValue v in
    if decide (Z.of_nat (s_len values) > 2) then
      match index_get h values 2 with
      | Some result => Returned result h
      | None => Panicked IndexOutOfRange
      end
    else
      Failed [Lit "vector-third needs a vector with length of at least 3, but got ";
              Verb_d (Z.of_nat (s_len values)); Lit "."] env h.

Definition VectorFourthImpl (args : Data) (env : SymbolTableFrame) (h : Heap)
  : PrimOutcome :=
  let v := First args in
  if negb (VectorP v) then
    Failed [Lit "vector-fourth needs a vector as its argument, but got ";
            Verb_s v; Lit "."] env h
  else
    let values := VectorValue v in
    if decide (Z.of_nat (s_len values) > 3) then
      match index_get h values 3 with
      | Some result => Returned result h
      | None => Panicked IndexOutOfRange
      end
    else
      Failed [Lit "vector-fourth needs a vector with length of at least 4, but got ";
              Verb_d (Z.of_nat (s_len values)); Lit "."] env h.

Definition VectorFifthImpl (args : Data) (env : SymbolTableFrame) (h : Heap)
  : PrimOutcome :=
  let v := First args in
  if negb (VectorP v) then
    Failed [Lit "vector-fifth needs a vector as its argument, but got ";
            Verb_s v; Lit "."] env h
  else
    let values := VectorValue v in
    if decide (Z.of_nat (s_len values) > 4) then
      match index_get h values 4 with
      | Some result => Returned result h
      | None => Panicked IndexOutOfRange
      end
    else
      Failed [Lit "vector-fifth needs a vector with length of at least 5, but got ";
              Verb_d (Z.of_nat (s_len values)); Lit "."] env h.

Definition VectorSixthImpl (args : Data) (env : SymbolTableFrame) (h : Heap)
  : PrimOutcome :=
  let v := First args in
  if negb (VectorP v) then
    Failed [Lit "vector-sixth needs a vector as its argument, but got ";
            Verb_s v; Lit "."] env h
  else
    let values := VectorValue v in
    if decide (Z.of_nat (s_len values) > 5) then
      match index_get h values 5 with
      | Some result => Returned result h
      | None => Panicked IndexOutOfRange
      end
    else
      Failed [Lit "vector-sixth needs a vector with length of at least 6, but got ";
              Verb_d (Z.of_nat (s_len values)); Lit "."] env h.

Definition VectorSeventhImpl (args : Data) (env : SymbolTableFrame) (h : Heap)
  : PrimOutcome :=
  let v := First args in
  if negb (VectorP v) then
    Failed [Lit "vector-seventh needs a vector as its argument, but got ";
            Verb_s v; Lit "."] env h
  else
    let values := VectorValue v in
    if decide (Z.of_nat (s_len values) > 6) then
      match index_get h values 6 with
      | Some result => Returned result h
      | None => Panicked IndexOutOfRange
      end
    else
      Failed [Lit "vector-seventh needs a vector with length of at least 7, but got ";
              Verb_d (Z.of_nat (s_len values)); Lit "."] env h.

Definition VectorEighthImpl (args : Data) (env : SymbolTableFrame) (h : Heap)
  : PrimOutcome :=
  let v := First args in
  if negb (VectorP v) then
    Failed [Lit "vector-eighth needs a vector as its argument, but got ";
            Verb_s v; Lit "."] env h
  else
    let values := VectorValue v in
    if decide (Z.of_nat (s_len values) > 7) then
      match index_get h values 7 with
      | Some result => Returned result h
      | None => Panicked IndexOutOfRange
      end
    else
      Failed [Lit "vector-eigth needs a vector with length of at least 8, but got ";
              Verb_d (Z.of_nat (s_len values)); Lit "."] env h.

Definition VectorNinthImpl (args : Data) (env : SymbolTableFrame) (h : Heap)
  : PrimOutcome :=
  let v := First args in
  if negb (VectorP v) then
    Failed [Lit "vector-ninth needs a vector as its argument, but got ";
            Verb_s v; Lit "."] env h
  else
    let values := VectorValue v in
    if decide (Z.of_nat (s_len values) > 8) then
      match index_get h values 8 with
      | Some result => Returned result h
      | None => Panicked IndexOutOfRange
      end
    else
      Failed [Lit "vector-ninth needs a vector with length of at least 9, but got ";
              Verb_d (Z.of_nat (s_len values)); Lit "."] env h.

Definition VectorTenthImpl (args : Data) (env : SymbolTableFrame) (h : Heap)
  : PrimOutcome :=
  let v := First args in
  if negb (VectorP v) then
    Failed [Lit "vector-tenth needs a vector as its argument, but got ";
            Verb_s v; Lit "."] env h
  else
    let values := VectorValue v in
    if decide (Z.of_nat (s_len values) > 9) then
      match index_get h values 9 with
      | Some result => Returned result h
      | None => Panicked IndexOutOfRange
      end
    else
      Failed [Lit "vector-tenth needs a vector with length of at least 10, but got ";
              Verb_d (Z.of_nat (s_len values)); Lit "."] env h.

Definition VectorFillImpl (args : Data) (env : SymbolTableFrame) (h : Heap)
  : PrimOutcome :=
  let v := First args in
  if negb (VectorP v) then
    Failed [Lit "vector-fill! needs a vector as its argument, but got ";
            Verb_s v; Lit "."] env h
  else
    let values := VectorValue v in
    let newValue := Second args in
    match fill_range (s_len values) 0 values newValue h with
    | None => Panicked IndexOutOfRange
    | Some h' => Returned Nil h'
    end.

Definition SubVectorFillImpl (args : Data) (env : SymbolTableFrame) (h : Heap)
  : PrimOutcome :=
  let v := First args in
  if negb (VectorP v) then
    Failed [Lit "subvector-fill! needs a vector as its argument, but got ";
            Verb_s v; Lit "."] env h
  else
    let values := VectorValue v in
    let start := Second args in
    if negb (IntegerP start) then
      Failed [Lit "subvector-fill! needs an integer as its starting index, but got ";
              Verb_s start; Lit "."] env h
    else
      let startIndex := IntegerValue start in
      if decide (startIndex < 0 ∨ startIndex >= Z.of_nat (s_len values)) then
        Failed [Lit "subvector-fill! starting index is out of bounds (0-";
                Verb_d (Z.of_nat (s_len values) - 1); Lit "), got ";
                Verb_d startIndex; Lit "."] env h
      else
        let end_ := Third args in
        if negb (IntegerP end_) then
          Failed [Lit "subvector-fill! needs an integer as its ending index, but got ";
                  Verb_s end_; Lit "."] env h
        else
          let endIndex := IntegerValue end_ in
          if decide (endIndex < startIndex ∨ endIndex > Z.of_nat (s_len values)) then
            Failed [Lit "subvector-fill! ending index is out of bounds (";
                    Verb_d startIndex; Lit "-"; Verb_d (Z.of_nat (s_len values));
                    Lit "), got "; Verb_d startIndex; Lit "."] env h
          else
            let newValue := Fourth args in
            match fill_range (Z.to_nat (endIndex - startIndex)) startIndex values newValue h with
            | None => Panicked IndexOutOfRange
            | Some h' => Returned Nil h'
            end.

(** [values2[i2] = values[i]] for [n] rounds, both indices going up. *)
Fixpoint move_up (n : nat) (i i2 : Z) (values values2 : Slice) (h : Heap) : option Heap :=
  match n with
  | O => Some h
  | S n' =>
      match index_get h values i with
      | None => None
      | Some val =>
          match index_set h values2 i2 val with
          | None => None
          | Some h' => move_up n' (i + 1) (i2 + 1) values values2 h'
          end
      end
  end.

(** The same, both indices going down. *)
Fixpoint move_down (n : nat) (i i2 : Z) (values values2 : Slice) (h : Heap) : option Heap :=
  match n with
  | O => Some h
  | S n' =>
      match index_get h values i with
      | None => None
      | Some val =>
          match index_set h values2 i2 val with
          | None => None
          | Some h' => move_down n' (i - 1) (i2 - 1) values values2 h'
          end
      end
  end.

Definition SubVectorMoveLeftImpl (args : Data) (env : SymbolTableFrame) (h : Heap)
  : PrimOutcome :=
  let v := First args in
  if negb (VectorP v) then
    Failed [Lit "subvector-move-left! needs a vector as its first vector argument, but got ";
            Verb_s v; Lit "."] env h
  else
    let values := VectorValue v in
    let start := Second args in
    if negb (IntegerP start) then
      Failed [Lit "subvector-move-left! needs an integer as its starting index, but got ";
              Verb_s start; Lit "."] env h
    else
      let startIndex := IntegerValue start in
      if decide (startIndex < 0 ∨ startIndex >= Z.of_nat (s_len values)) then
        Failed [Lit "subvector-move-left! starting index is out of bounds (0-";
                Verb_d (Z.of_nat (s_len values) - 1); Lit "), got ";
                Verb_d startIndex; Lit "."] env h
      else
        let end_ := Third args in
        if negb (IntegerP end_) then
          Failed [Lit "subvector-move-left! needs an integer as its ending index, but got ";
                  Verb_s end_; Lit "."] env h
        else
          let endIndex := IntegerValue end_ in
          if decide (endIndex < startIndex ∨ endIndex > Z.of_nat (s_len values)) then
            Failed [Lit "subvector-move-left! ending index is out of bounds (";
                    Verb_d startIndex; Lit "-"; Verb_d (Z.of_nat (s_len values));
                    Lit "), got "; Verb_d startIndex; Lit "."] env h
          else
            let v2 := Fourth args in
            if negb (VectorP v2) then
              Failed [Lit "subvector-move-left! needs a vector as its second vector argument, but got ";
                      Verb_s v2; Lit "."] env h
            else
              let values2 := VectorValue v2 in
              let start2 := Fifth args in
              if negb (IntegerP start2) then
                Failed [Lit "subvector-move-left! needs an integer as its second starting index, but got ";
                        Verb_s start2; Lit "."] env h
              else
                let startIndex2 := IntegerValue start2 in
                if decide (startIndex < 0 ∨ startIndex >= Z.of_nat (s_len values2)) then
                  Failed [Lit "subvector-move-left! starting index is out of bounds (0-";
                          Verb_d (Z.of_nat (s_len values) - 1); Lit "), got ";
                          Verb_d startIndex; Lit "."] env h
                else
                  let sourceLength := int_sub endIndex startIndex in
                  let tailSize2 := int_sub (Z.of_nat (s_len values2)) startIndex2 in
                  if decide (sourceLength > tailSize2) then
                    Failed [Lit "subvector-move-left! source subvector is longer than the available space in the destination (0-";
                            Verb_d tailSize2; Lit "), got "; Verb_d sourceLength; Lit "."] env h
                  else
                    match move_up (Z.to_nat (endIndex - startIndex)) startIndex startIndex2 values values2 h with
                    | None => Panicked IndexOutOfRange
                    | Some h' => Returned v2 h'
                    end.

Definition SubVectorMoveRightImpl (args : Data) (env : SymbolTableFrame) (h : Heap)
  : PrimOutcome :=
  let v := First args in
  if negb (VectorP v) then
    Failed [Lit "subvector-move-right! needs a vector as its first vector argument, but got ";
            Verb_s v; Lit "."] env h
  else
    let values := VectorValue v in
    let start := Second args in
    if negb (IntegerP start) then
      Failed [Lit "subvector-move-right! needs an integer as its starting index, but got ";
              Verb_s start; Lit "."] env h
    else
      let startIndex := IntegerValue start in
      if decide (startIndex < 0 ∨ startIndex >= Z.of_nat (s_len values)) then
        Failed [Lit "subvector-move-right! starting index is out of bounds (0-";
                Verb_d (Z.of_nat (s_len values) - 1); Lit "), got ";
                Verb_d startIndex; Lit "."] env h
      else
        let end_ := Third args in
        if negb (IntegerP end_) then
          Failed [Lit "subvector-move-right! needs an integer as its ending index, but got ";
                  Verb_s end_; Lit "."] env h
        else
          let endIndex := IntegerValue end_ in
          if decide (endIndex < startIndex ∨ endIndex > Z.of_nat (s_len values)) then
            Failed [Lit "subvector-move-right! ending index is out of bounds (";
                    Verb_d startIndex; Lit "-"; Verb_d (Z.of_nat (s_len values));
                    Lit "), got "; Verb_d startIndex; Lit "."] env h
          else
            let v2 := Fourth args in
            if negb (VectorP v2) then
              Failed [Lit "subvector-move-right! needs a vector as its second vector argument, but got ";
                      Verb_s v2; Lit "."] env h
            else
              let values2 := VectorValue v2 in
              let start2 := Fifth args in
              if negb (IntegerP start2) then
                Failed [Lit "subvector-move-right! needs an integer as its second starting index, but got ";
                        Verb_s start2; Lit "."] env h
              else
                let startIndex2 := IntegerValue start2 in
                if decide (startIndex < 0 ∨ startIndex >= Z.of_nat (s_len values2)) then
                  Failed [Lit "subvector-move-right! starting index is out of bounds (0-";
                          Verb_d (Z.of_nat (s_len values) - 1); Lit "), got ";
                          Verb_d startIndex; Lit "."] env h
                else
                  let sourceLength := int_sub endIndex startIndex in
                  let tailSize2 := int_sub (Z.of_nat (s_len values2)) startIndex2 in
                  if decide (sourceLength > tailSize2) then
                    Failed [Lit "subvector-move-right! source subvector is longer than the available space in the destination (0-";
                            Verb_d tailSize2; Lit "), got "; Verb_d sourceLength; Lit "."] env h
                  else
                    match move_down (Z.to_nat (endIndex - startIndex)) (endIndex - 1) (int_sub (int_add startIndex2 sourceLength) 1) values values2 h with
                    | None => Panicked IndexOutOfRange
                    | Some h' => Returned v2 h'
                    end.

(** ** Primitives that apply a function *)

Definition BooleanP (d : Data) : bool :=
  match d with Boolean _ => true | _ => false end.

(** What [ApplyWithoutEval(f, args, env)] comes to: its two results and the
    store it leaves, or a panic. *)
Inductive ApplyOutcome : Type :=
| Applied (result : Data) (err : option Message) (h : Heap)
| ApplyPanics.

(** A call of a primitive that applies a function differs from
    [PrimOutcome] in one way: it can hand back the error of the applied
    function as it is, with a nil result. *)
Inductive HigherOutcome : Type :=
| HReturned (result : Data) (err : option Message) (h : Heap)
| HFailed (msg : Message) (env : SymbolTableFrame) (h : Heap)
| HPanicked.

Section HigherOrder.

(** Outside the sources: the function-kind predicate and the truth
    accessor of data.go, the false constant, the list constructor and the
    evaluator's application of a function to evaluated arguments. *)
Variable FunctionOrPrimitiveP : Data → bool.
Variable BooleanValue : Data → bool.
Variable LispFalse : Data.
Variable InternalMakeList : list Data → Data.
Variable ApplyWithoutEval : Data → Data → SymbolTableFrame → Heap → ApplyOutcome.

(** [for _, val := range vals] of [VectorFilterImpl], [n] rounds from
    index [i] on; [d] is the slice the kept values are appended to. *)
Fixpoint filter_loop (f : Data) (env : SymbolTableFrame) (n : nat) (i : Z)
    (vals d : Slice) (h : Heap) : HigherOutcome :=
  match n with
  | O => HReturned (VectorWithValue d) None h
  | S n' =>
      match index_get h vals i with
      | None => HPanicked
      | Some val =>
          match ApplyWithoutEval f (InternalMakeList [val]) env h with
          | ApplyPanics => HPanicked
          | Applied v (Some e) h1 => HReturned Nil (Some e) h1
          | Applied v None h1 =>
              if negb (BooleanP v) then
                HFailed [Lit "vector-filter needs a predicate function as its first argument."]
                        env h1
              else if BooleanValue v then
                let '(d', h2) := append h1 d val in
                filter_loop f env n' (i + 1) vals d' h2
              else filter_loop f env n' (i + 1) vals d h1
          end
      end
  end.

Definition VectorFilterImpl (args : Data) (env : SymbolTableFrame) (h : Heap)
  : HigherOutcome :=
  let f := First args in
  if negb (FunctionOrPrimitiveP f) then
    HFailed [Lit "vector-filter needs a function as its first argument, but got ";
             Verb_s f; Lit "."] env h
  else
    let v := Second args in
    if negb (VectorP v) then
      HFailed [Lit "vector-filter needs a vector as its second argument, but got ";
               Verb_s v; Lit "."] env h
    else
      let vals := VectorValue v in
      match make_slice h 0 (Z.of_nat (s_len vals)) with
      | None => HPanicked
      | Some (d, h0) => filter_loop f env (s_len vals) 0 vals d h0
      end.

Fixpoint remove_loop (f : Data) (env : SymbolTableFrame) (n : nat) (i : Z)
    (vals d : Slice) (h : Heap) : HigherOutcome :=
  match n with
  | O => HReturned (VectorWithValue d) None h
  | S n' =>
      match index_get h vals i with
      | None => HPanicked
      | Some val =>
          match ApplyWithoutEval f (InternalMakeList [val]) env h with
          | ApplyPanics => HPanicked
          | Applied v (Some e) h1 => HReturned Nil (Some e) h1
          | Applied v None h1 =>
              if negb (BooleanP v) then
                HFailed [Lit "vector-remove needs a predicate function as its first argument."]
                        env h1
              else if negb (BooleanValue v) then
                let '(d', h2) := append h1 d val in
                remove_loop f env n' (i + 1) vals d' h2
              else remove_loop f env n' (i + 1) vals d h1
          end
      end
  end.

Definition VectorRemoveImpl (args : Data) (env : SymbolTableFrame) (h : Heap)
  : HigherOutcome :=
  let f := First args in
  if negb (FunctionOrPrimitiveP f) then
    HFailed [Lit "vector-remove needs a function as its first argument, but got ";
             Verb_s f; Lit "."] env h
  else
    let v := Second args in
    if negb (VectorP v) then
      HFailed [Lit "vector-remove needs a vector as its second argument, but got ";
               Verb_s v; Lit "."] env h
    else
      let vals := VectorValue v in
      match make_slice h 0 (Z.of_nat (s_len vals)) with
      | None => HPanicked
      | Some (d, h0) => remove_loop f env (s_len vals) 0 vals d h0
      end.

(** The loop of [VectorFindImpl]: the error of the applied function is
    dropped; only the kind and the truth of its result count. *)
Fixpoint find_loop (f : Data) (env : SymbolTableFrame) (n : nat) (i : Z)
    (vals : Slice) (h : Heap) : HigherOutcome :=
  match n with
  | O => HReturned LispFalse None h
  | S n' =>
      match index_get h vals i with
      | None => HPanicked
      | Some val =>
          match ApplyWithoutEval f (InternalMakeList [val]) env h with
          | ApplyPanics => HPanicked
          | Applied found _ h1 =>
              if negb (BooleanP found) then
                HFailed [Lit "vector-find needs a predicate function as its first argument."]
                        env h1
              else if BooleanValue found then HReturned val None h1
              else find_loop f env n' (i + 1) vals h1
          end
      end
  end.

Definition VectorFindImpl (args : Data) (env : SymbolTableFrame) (h : Heap)
  : HigherOutcome :=
  let f := First args in
  if negb (FunctionOrPrimitiveP f) then
    HFailed [Lit "vector-find needs a function as its first argument"] env h
  else
    let v := Second args in
    if negb (VectorP v) then
      HFailed [Lit "vector-find needs a vector as its second argument, but got ";
               Verb_s v; Lit "."] env h
    else find_loop f env (s_len (VectorValue v)) 0 (VectorValue v) h.

End HigherOrder.

(** * Properties *)

(** ** Values and machine integers *)

Lemma Length_ArrayToList (l : list Data) : Length (ArrayToList l) = length l.
Proof. induction l as [|x l IH]; simpl; [done | by rewrite IH]. Qed.

Lemma int_modulus_pos : 0 < int_modulus.
Proof. reflexivity. Qed.

Lemma wrap_in_range (z : Z) : in_int_range (wrap z).
Proof.
  unfold in_int_range, wrap.
  pose proof (Z.mod_pos_bound (z - int_min) int_modulus int_modulus_pos) as Hb.
  change int_max with (int_min + int_modulus - 1). lia.
Qed.

Lemma wrap_id (z : Z) : in_int_range z → wrap z = z.
Proof.
  unfold in_int_range, wrap. change int_max with (int_min + int_modulus - 1).
  intros H. rewrite Z.mod_small; lia.
Qed.

Lemma wrap_congr (a b : Z) :
  a mod int_modulus = b mod int_modulus → wrap a = wrap b.
Proof.
  intros H. unfold wrap. f_equal.
  rewrite <- (Zminus_mod_idemp_l a), <- (Zminus_mod_idemp_l b). by rewrite H.
Qed.

Lemma wrap_mod (z : Z) : wrap z mod int_modulus = z mod int_modulus.
Proof.
  unfold wrap.
  rewrite <- Zplus_mod_idemp_l, Z.mod_mod by (pose proof int_modulus_pos; lia).
  rewrite Zplus_mod_idemp_l. f_equal. lia.
Qed.

Lemma wrap_add_l (a b : Z) : wrap (wrap a + b) = wrap (a + b).
Proof.
  apply wrap_congr.
  by rewrite <- Zplus_mod_idemp_l, wrap_mod, Zplus_mod_idemp_l.
Qed.

Lemma wrap_mul_l (a b : Z) : wrap (wrap a * b) = wrap (a * b).
Proof.
  apply wrap_congr.
  by rewrite <- Zmult_mod_idemp_l, wrap_mod, Zmult_mod_idemp_l.
Qed.

(** The wrapped left fold of [+] is the wrapped sum. *)
Lemma foldl_int_add (ns : list Z) (acc : Z) :
  foldl int_add (wrap acc) ns = wrap (acc + sum_list ns).
Proof.
  revert acc. induction ns as [|n ns IH]; intros acc; simpl.
  - by rewrite Z.add_0_r.
  - unfold int_add at 2. rewrite wrap_add_l, IH. f_equal. lia.
Qed.

Lemma foldl_int_mul (ns : list Z) (acc : Z) :
  foldl int_mul (wrap acc) ns = wrap (acc * product_list ns).
Proof.
  revert acc. induction ns as [|n ns IH]; intros acc; simpl.
  - by rewrite Z.mul_1_r.
  - unfold int_mul at 2. rewrite wrap_mul_l, IH. f_equal. lia.
Qed.

(** ** The loops of the builtins, as the source writes them *)

Lemma Add_loop_eq (c : Data) (acc : Z) :
  Add_loop c acc =
    if NotNilP c then
      if decide (TypeOf (Car c) ≠ NumberType) then Returns Nil (Some "Number expected")
      else Add_loop (Cdr c) (int_add acc (IntValue (Car c)))
    else Returns (NumberWithValue acc) None.
Proof. destruct c; reflexivity. Qed.

Lemma Subtract_loop_eq (c : Data) (acc : Z) :
  Subtract_loop c acc =
    if NotNilP c then
      if decide (TypeOf (Car c) ≠ NumberType) then Returns Nil (Some "Number expected")
      else Subtract_loop (Cdr c) (int_sub acc (IntValue (Car c)))
    else Returns (NumberWithValue acc) None.
Proof. destruct c; reflexivity. Qed.

Lemma Multiply_loop_eq (c : Data) (acc : Z) :
  Multiply_loop c acc =
    if NotNilP c then
      if decide (TypeOf (Car c) ≠ NumberType) then Returns Nil (Some "Number expected")
      else Multiply_loop (Cdr c) (int_mul acc (IntValue (Car c)))
    else Returns (NumberWithValue acc) None.
Proof. destruct c; reflexivity. Qed.

Lemma Quotient_loop_eq (c : Data) (acc : Z) :
  Quotient_loop c acc =
    if NotNilP c then
      if decide (TypeOf (Car c) ≠ NumberType) then Returns Nil (Some "Number expected")
      else
        match int_quo acc (IntValue (Car c)) with
        | Some q => Quotient_loop (Cdr c) q
        | None => Panics IntegerDivideByZero
        end
    else Returns (NumberWithValue acc) None.
Proof. destruct c; reflexivity. Qed.

(** ** Numeric operands *)

Lemma Add_loop_numbers (ns : list Z) (acc : Z) :
  Add_loop (ArrayToList (Integer <$> ns)) acc
    = Returns (Integer (foldl int_add acc ns)) None.
Proof. revert acc. induction ns as [|n ns IH]; intros acc; simpl; [done | apply IH]. Qed.

Lemma Multiply_loop_numbers (ns : list Z) (acc : Z) :
  Multiply_loop (ArrayToList (Integer <$> ns)) acc
    = Returns (Integer (foldl int_mul acc ns)) None.
Proof. revert acc. induction ns as [|n ns IH]; intros acc; simpl; [done | apply IH]. Qed.

Lemma Subtract_loop_numbers (ns : list Z) (acc : Z) :
  Subtract_loop (ArrayToList (Integer <$> ns)) acc
    = Returns (Integer (foldl int_sub acc ns)) None.
Proof. revert acc. induction ns as [|n ns IH]; intros acc; simpl; [done | apply IH]. Qed.

Lemma fold_quo_None (ns : list Z) :
  foldl (λ acc d, acc ≫= λ a, int_quo a d) None ns = None.
Proof. induction ns as [|n ns IH]; simpl; [done | apply IH]. Qed.

Lemma Quotient_loop_numbers (ns : list Z) (acc : Z) :
  Quotient_loop (ArrayToList (Integer <$> ns)) acc =
    match fold_quo acc ns with
    | Some q => Returns (Integer q) None
    | None => Panics IntegerDivideByZero
    end.
Proof.
  unfold fold_quo. revert acc. induction ns as [|n ns IH]; intros acc; simpl; [done |].
  destruct (int_quo acc n) as [q|] eqn:Hq; simpl.
  - apply IH.
  - by rewrite fold_quo_None.
Qed.

(** A zero among the divisors makes the fold undefined. *)
Lemma fold_quo_zero (n : Z) (ns : list Z) : 0 ∈ ns → fold_quo n ns = None.
Proof.
  unfold fold_quo. revert n. induction ns as [|d ns IH]; intros n Hin.
  - by apply elem_of_nil in Hin.
  - simpl. apply elem_of_cons in Hin as [<- | Hin].
    + simpl. apply fold_quo_None.
    + destruct (int_quo n d) as [q|]; simpl; [by apply IH | apply fold_quo_None].
Qed.

(** ** Addition and multiplication *)

Lemma Add_numbers (ns : list Z) :
  Add (ArrayToList (Integer <$> ns)) = Returns (Integer (wrap (sum_list ns))) None.
Proof.
  unfold Add. rewrite Add_loop_numbers.
  change 0 with (wrap 0) at 1. by rewrite foldl_int_add.
Qed.

Lemma Multiply_numbers (ns : list Z) :
  Multiply (ArrayToList (Integer <$> ns)) = Returns (Integer (wrap (product_list ns))) None.
Proof.
  unfold Multiply. rewrite Multiply_loop_numbers.
  change 1 with (wrap 1) at 1. rewrite foldl_int_mul. do 3 f_equal. lia.
Qed.

(** Where the sum fits in an [int] the result is the sum itself. *)
Lemma Add_exact (ns : list Z) :
  in_int_range (sum_list ns) →
  Add (ArrayToList (Integer <$> ns)) = Returns (Integer (sum_list ns)) None.
Proof. intros Hr. by rewrite Add_numbers, wrap_id. Qed.

Lemma Multiply_exact (ns : list Z) :
  in_int_range (product_list ns) →
  Multiply (ArrayToList (Integer <$> ns)) = Returns (Integer (product_list ns)) None.
Proof. intros Hr. by rewrite Multiply_numbers, wrap_id. Qed.

(** C7, as amended: [Add] of no argument is 0 and [Multiply] of no
    argument is 1; over any list of numeric operands each is the left fold
    of its operator from that identity in Go's [int] arithmetic, so the
    result is the sum (the product) of the operands reduced to a 64-bit
    two's-complement [int], and it is the sum (the product) itself
    whenever that fits in an [int]. *)
Theorem Add_Multiply_fold :
  Add Nil = Returns (Integer 0) None ∧
  Multiply Nil = Returns (Integer 1) None ∧
  ∀ ns : list Z,
    Add (ArrayToList (Integer <$> ns)) = Returns (Integer (foldl int_add 0 ns)) None ∧
    foldl int_add 0 ns = wrap (sum_list ns) ∧
    Multiply (ArrayToList (Integer <$> ns)) = Returns (Integer (foldl int_mul 1 ns)) None ∧
    foldl int_mul 1 ns = wrap (product_list ns) ∧
    (in_int_range (sum_list ns) →
       Add (ArrayToList (Integer <$> ns)) = Returns (Integer (sum_list ns)) None) ∧
    (in_int_range (product_list ns) →
       Multiply (ArrayToList (Integer <$> ns)) = Returns (Integer (product_list ns)) None).
Proof.
  split; [reflexivity |]. split; [reflexivity |]. intros ns.
  split; [apply Add_loop_numbers |].
  split; [change 0 with (wrap 0) at 1; by rewrite foldl_int_add |].
  split; [apply Multiply_loop_numbers |].
  split; [change 1 with (wrap 1) at 1; rewrite foldl_int_mul; f_equal; lia |].
  split; [apply Add_exact | apply Multiply_exact].
Qed.

Lemma Add_Multiply_fold_witness :
  in_int_range (sum_list [3; 5; 7]) ∧
  Add (ArrayToList (Integer <$> [3; 5; 7])) = Returns (Integer (sum_list [3; 5; 7])) None ∧
  in_int_range (product_list [3; 5; 7]) ∧
  Multiply (ArrayToList (Integer <$> [3; 5; 7]))
    = Returns (Integer (product_list [3; 5; 7])) None.
Proof.
  assert (Hs : in_int_range (sum_list [3; 5; 7])) by (split; vm_compute; discriminate).
  assert (Hp : in_int_range (product_list [3; 5; 7])) by (split; vm_compute; discriminate).
  destruct Add_Multiply_fold as (_ & _ & H).
  destruct (H [3; 5; 7]) as (_ & _ & _ & _ & Hadd & Hmul).
  split; [exact Hs |]. split; [exact (Hadd Hs) |]. split; [exact Hp | exact (Hmul Hp)].
Defined.

(** The claim as first stated, that the result equals the sum (the
    product), fails where the sum (the product) leaves the [int] range:
    the largest [int] plus 1 is answered with the least [int], and 2^62
    times 4 with 0. *)
Lemma Add_Multiply_overflow_counterexample :
  Add (ArrayToList (Integer <$> [int_max; 1])) = Returns (Integer int_min) None ∧
  Add (ArrayToList (Integer <$> [int_max; 1]))
    ≠ Returns (Integer (sum_list [int_max; 1])) None ∧
  Multiply (ArrayToList (Integer <$> [2 ^ 62; 4])) = Returns (Integer 0) None ∧
  Multiply (ArrayToList (Integer <$> [2 ^ 62; 4]))
    ≠ Returns (Integer (product_list [2 ^ 62; 4])) None.
Proof.
  split; [vm_compute; reflexivity |].
  split; [vm_compute; intros [=] |].
  split; [vm_compute; reflexivity |].
  vm_compute; intros [=].
Qed.

(** ** Subtraction and division *)

Lemma Subtract_one (n : Z) :
  Subtract (ArrayToList [Integer n]) = Returns (Integer (int_neg n)) None.
Proof. reflexivity. Qed.

Lemma Subtract_many (n m : Z) (ms : list Z) :
  Subtract (ArrayToList (Integer <$> n :: m :: ms))
    = Returns (Integer (foldl int_sub n (m :: ms))) None.
Proof.
  unfold Subtract. simpl Car. simpl TypeOf.
  destruct (decide (NumberType ≠ NumberType)) as [Hne|_]; [done |].
  rewrite Length_ArrayToList. simpl length.
  destruct (decide (S (S (length (Integer <$> ms))) = 1%nat)) as [Heq|_]; [lia |].
  apply (Subtract_loop_numbers (m :: ms)).
Qed.

Lemma Quotient_numbers (n : Z) (ns : list Z) :
  Quotient (ArrayToList (Integer <$> n :: ns)) =
    match fold_quo n ns with
    | Some q => Returns (Integer q) None
    | None => Panics IntegerDivideByZero
    end.
Proof.
  unfold Quotient. simpl Car. simpl TypeOf.
  destruct (decide (NumberType ≠ NumberType)) as [Hne|_]; [done |].
  apply Quotient_loop_numbers.
Qed.

(** C6: [Subtract] of one number is its negation; of two or more numbers
    it is the left fold of subtraction from the first; [Quotient] of
    numbers is the left fold of integer division from the first (a panic
    where that fold meets a zero divisor); with the three sample calls. *)
Theorem Subtract_Quotient_fold :
  (∀ n : Z, Subtract (ArrayToList [Integer n]) = Returns (Integer (int_neg n)) None) ∧
  (∀ (n m : Z) (ms : list Z),
     Subtract (ArrayToList (Integer <$> n :: m :: ms))
       = Returns (Integer (foldl int_sub n (m :: ms))) None) ∧
  (∀ (n : Z) (ns : list Z),
     Quotient (ArrayToList (Integer <$> n :: ns)) =
       match fold_quo n ns with
       | Some q => Returns (Integer q) None
       | None => Panics IntegerDivideByZero
       end) ∧
  Subtract (ArrayToList [Integer 5]) = Returns (Integer (-5)) None ∧
  Subtract (ArrayToList [Integer 10; Integer 1; Integer 2]) = Returns (Integer 7) None ∧
  Quotient (ArrayToList [Integer 100; Integer 5; Integer 2]) = Returns (Integer 10) None.
Proof.
  split; [apply Subtract_one |].
  split; [apply Subtract_many |].
  split; [apply Quotient_numbers |].
  repeat split; vm_compute; reflexivity.
Qed.

(** The negation is exact for every [int] but the least one. *)
Lemma int_neg_exact (n : Z) : int_min < n ≤ int_max → int_neg n = - n.
Proof.
  intros H. apply wrap_id. unfold in_int_range.
  change int_max with (- int_min - 1) in *. lia.
Qed.

(** ** Operands that are not numbers *)

Lemma Add_loop_not_number (l : list Data) (acc : Z) :
  (∃ x, x ∈ l ∧ TypeOf x ≠ NumberType) →
  Add_loop (ArrayToList l) acc = Returns Nil (Some "Number expected").
Proof.
  revert acc. induction l as [|y l IH]; intros acc (x & Hin & Hx).
  - by apply elem_of_nil in Hin.
  - simpl. destruct (decide (TypeOf y ≠ NumberType)) as [|Hy]; [done |].
    apply IH. exists x. split; [|done].
    apply elem_of_cons in Hin as [-> | Hin]; [done | done].
Qed.

Lemma Subtract_loop_not_number (l : list Data) (acc : Z) :
  (∃ x, x ∈ l ∧ TypeOf x ≠ NumberType) →
  Subtract_loop (ArrayToList l) acc = Returns Nil (Some "Number expected").
Proof.
  revert acc. induction l as [|y l IH]; intros acc (x & Hin & Hx).
  - by apply elem_of_nil in Hin.
  - simpl. destruct (decide (TypeOf y ≠ NumberType)) as [|Hy]; [done |].
    apply IH. exists x. split; [|done].
    apply elem_of_cons in Hin as [-> | Hin]; [done | done].
Qed.

Lemma Multiply_loop_not_number (l : list Data) (acc : Z) :
  (∃ x, x ∈ l ∧ TypeOf x ≠ NumberType) →
  Multiply_loop (ArrayToList l) acc = Returns Nil (Some "Number expected").
Proof.
  revert acc. induction l as [|y l IH]; intros acc (x & Hin & Hx).
  - by apply elem_of_nil in Hin.
  - simpl. destruct (decide (TypeOf y ≠ NumberType)) as [|Hy]; [done |].
    apply IH. exists x. split; [|done].
    apply elem_of_cons in Hin as [-> | Hin]; [done | done].
Qed.

Lemma Subtract_not_number (l : list Data) :
  (∃ x, x ∈ l ∧ TypeOf x ≠ NumberType) →
  Subtract (ArrayToList l) = Returns Nil (Some "Number expected").
Proof.
  intros (x & Hin & Hx). unfold Subtract.
  destruct l as [|y l]; [by apply elem_of_nil in Hin |].
  simpl Car. destruct (decide (TypeOf y ≠ NumberType)) as [|Hy]; [done |].
  apply elem_of_cons in Hin as [-> | Hin]; [done |].
  rewrite Length_ArrayToList.
  destruct (decide (length (y :: l) = 1%nat)) as [Hlen|_].
  - destruct l; [by apply elem_of_nil in Hin | done].
  - simpl Cdr. apply Subtract_loop_not_number. by exists x.
Qed.

(** C5: an argument list with an operand that is not a number, at any
    position, makes [Add], [Subtract] and [Multiply] return the error
    "Number expected" and a nil result. *)
Theorem arithmetic_rejects_non_numbers (l : list Data) :
  (∃ x, x ∈ l ∧ TypeOf x ≠ NumberType) →
  Add (ArrayToList l) = Returns Nil (Some "Number expected") ∧
  Subtract (ArrayToList l) = Returns Nil (Some "Number expected") ∧
  Multiply (ArrayToList l) = Returns Nil (Some "Number expected").
Proof.
  intros H. split; [by apply Add_loop_not_number |].
  split; [by apply Subtract_not_number | by apply Multiply_loop_not_number].
Qed.

Lemma arithmetic_rejects_non_numbers_witness :
  (∃ x, x ∈ [Integer 1; StringD "two"; Integer 3] ∧ TypeOf x ≠ NumberType) ∧
  Add (ArrayToList [Integer 1; StringD "two"; Integer 3])
    = Returns Nil (Some "Number expected") ∧
  Subtract (ArrayToList [Integer 1; StringD "two"; Integer 3])
    = Returns Nil (Some "Number expected") ∧
  Multiply (ArrayToList [Integer 1; StringD "two"; Integer 3])
    = Returns Nil (Some "Number expected").
Proof.
  assert (H : ∃ x, x ∈ [Integer 1; StringD "two"; Integer 3] ∧ TypeOf x ≠ NumberType).
  { exists (StringD "two"). split; [| simpl; discriminate].
    do 2 constructor. }
  split; [exact H |].
  exact (arithmetic_rejects_non_numbers [Integer 1; StringD "two"; Integer 3] H).
Defined.

(** ** Division by zero *)

(** The three other operators never panic, whatever the arguments. *)
Lemma Add_loop_returns (c : Data) (acc : Z) : ∃ r e, Add_loop c acc = Returns r e.
Proof.
  revert acc. induction c as [|x _ rest IH| | | | |]; intros acc; simpl; eauto.
  destruct (decide (TypeOf x ≠ NumberType)); eauto.
Qed.

Lemma Subtract_loop_returns (c : Data) (acc : Z) : ∃ r e, Subtract_loop c acc = Returns r e.
Proof.
  revert acc. induction c as [|x _ rest IH| | | | |]; intros acc; simpl; eauto.
  destruct (decide (TypeOf x ≠ NumberType)); eauto.
Qed.

Lemma Multiply_loop_returns (c : Data) (acc : Z) : ∃ r e, Multiply_loop c acc = Returns r e.
Proof.
  revert acc. induction c as [|x _ rest IH| | | | |]; intros acc; simpl; eauto.
  destruct (decide (TypeOf x ≠ NumberType)); eauto.
Qed.

Lemma Subtract_returns (args : Data) : ∃ r e, Subtract args = Returns r e.
Proof.
  unfold Subtract. destruct (decide (TypeOf (Car args) ≠ NumberType)); eauto.
  destruct (decide (Length args = 1%nat)); eauto using Subtract_loop_returns.
Qed.

(** With numeric operands, [Quotient] panics as soon as a divisor is 0. *)
Lemma Quotient_zero_divisor (n : Z) (ns : list Z) :
  0 ∈ ns →
  Quotient (ArrayToList (Integer <$> n :: ns)) = Panics IntegerDivideByZero.
Proof. intros H. by rewrite Quotient_numbers, fold_quo_zero. Qed.

(** C2, at the failing input: [(/ 10 0)] is a run-time panic of the
    interpreter, not a returned error. *)
Theorem Quotient_by_zero_panics :
  Quotient (ArrayToList [Integer 10; Integer 0]) = Panics IntegerDivideByZero.
Proof. reflexivity. Qed.

(** ** The conditional *)

Section ConditionalFacts.
Context {World : Type}.
Variable Eval : Data → World → Data * World.
Variable BooleanValue : Data → bool.

(** [If] evaluates its condition first, whatever the argument list. *)
Lemma If_evaluates_condition (args : Data) (m : Machine) :
  ∃ more, evaluated (If Eval BooleanValue args m).2 = (evaluated m ++ Car args :: more)%list.
Proof.
  unfold If, EvalLogged. destruct (Eval (Car args) (m_world m)) as [c w1]. simpl.
  destruct (decide (Cdddr args ≠ Nil)).
  - exists []. done.
  - destruct (BooleanValue c).
    + destruct (Eval (Cadr args) w1) as [r w2]. simpl.
      exists [Cadr args]. by rewrite <- app_assoc.
    + destruct (Eval (Caddr args) w1) as [r w2]. simpl.
      exists [Caddr args]. by rewrite <- app_assoc.
Qed.

Lemma If_three_clauses (c t e : Data) (m : Machine) :
  If Eval BooleanValue (ArrayToList [c; t; e]) m =
    let branch := if BooleanValue (Eval c (m_world m)).1 then t else e in
    let r := Eval branch (Eval c (m_world m)).2 in
    (Returns r.1 None, MkMachine r.2 (evaluated m ++ [c; branch])).
Proof.
  unfold If, EvalLogged, Cadr, Caddr, Cdddr. simpl.
  destruct (Eval c (m_world m)) as [cv w1]. simpl.
  destruct (BooleanValue cv).
  - destruct (Eval t w1) as [r w2]. simpl. by rewrite <- app_assoc.
  - destruct (Eval e w1) as [r w2]. simpl. by rewrite <- app_assoc.
Qed.

Lemma If_too_many (c t e extra : Data) (more : list Data) (m : Machine) :
  If Eval BooleanValue (ArrayToList (c :: t :: e :: extra :: more)) m =
    (Returns Nil (Some "Too many arguments to IF"),
     MkMachine (Eval c (m_world m)).2 (evaluated m ++ [c])).
Proof.
  unfold If, EvalLogged, Cadr, Caddr, Cdddr. simpl.
  destruct (Eval c (m_world m)) as [cv w1]. reflexivity.
Qed.

End ConditionalFacts.

(** C3: with a condition that evaluates truthy [If] evaluates the
    condition and the then-clause, and nothing else; with one that
    evaluates false, the condition and the else-clause, and nothing else;
    with a clause after the two branches it returns the error
    "Too many arguments to IF", having evaluated neither branch. *)
Theorem If_one_branch_or_arity_error {World : Type}
    (Eval : Data → World → Data * World) (BooleanValue : Data → bool)
    (c t e : Data) (m : Machine) :
  (BooleanValue (Eval c (m_world m)).1 = true →
     If Eval BooleanValue (ArrayToList [c; t; e]) m =
       (Returns (Eval t (Eval c (m_world m)).2).1 None,
        MkMachine (Eval t (Eval c (m_world m)).2).2 (evaluated m ++ [c; t]))) ∧
  (BooleanValue (Eval c (m_world m)).1 = false →
     If Eval BooleanValue (ArrayToList [c; t; e]) m =
       (Returns (Eval e (Eval c (m_world m)).2).1 None,
        MkMachine (Eval e (Eval c (m_world m)).2).2 (evaluated m ++ [c; e]))) ∧
  (∀ (extra : Data) (more : list Data),
     If Eval BooleanValue (ArrayToList (c :: t :: e :: extra :: more)) m =
       (Returns Nil (Some "Too many arguments to IF"),
        MkMachine (Eval c (m_world m)).2 (evaluated m ++ [c]))).
Proof.
  split; [| split].
  - intros Hc. rewrite If_three_clauses. simpl. by rewrite Hc.
  - intros Hc. rewrite If_three_clauses. simpl. by rewrite Hc.
  - intros extra more. apply If_too_many.
Qed.

(** An evaluator for the witness: numbers and booleans evaluate to
    themselves and each call is counted. *)
Lemma If_one_branch_or_arity_error_witness :
  let Eval := λ (d : Data) (calls : nat), (d, S calls) in
  let BooleanValue := λ d : Data, match d with Boolean false => false | _ => true end in
  If Eval BooleanValue (ArrayToList [Boolean true; Integer 1; Integer 2]) (MkMachine 0%nat [])
    = (Returns (Integer 1) None, MkMachine 2%nat [Boolean true; Integer 1]) ∧
  If Eval BooleanValue (ArrayToList [Boolean false; Integer 1; Integer 2]) (MkMachine 0%nat [])
    = (Returns (Integer 2) None, MkMachine 2%nat [Boolean false; Integer 2]).
Proof.
  intros Eval BooleanValue. split.
  - exact (proj1 (If_one_branch_or_arity_error Eval BooleanValue
             (Boolean true) (Integer 1) (Integer 2) (MkMachine 0%nat [])) eq_refl).
  - exact (proj1 (proj2 (If_one_branch_or_arity_error Eval BooleanValue
             (Boolean false) (Integer 1) (Integer 2) (MkMachine 0%nat []))) eq_refl).
Defined.

(** ** Strings of the command loop *)

Lemma Split_not_nil (s : string) (c : ascii) : Split s c ≠ [].
Proof.
  destruct s as [|a rest]; simpl; [done |].
  destruct (Ascii.eqb a c); [done |]. by destruct (Split rest c).
Qed.

(** Joining what [Split] cut gives the text back. *)
Lemma Join_Split (s : string) (c : ascii) :
  Join (Split s c) (String c EmptyString) = s.
Proof.
  unfold Join. induction s as [|a rest IH]; simpl; [done |].
  pose proof (Split_not_nil rest c) as Hne.
  destruct (Ascii.eqb a c) eqn:Hac.
  - apply Ascii.eqb_eq in Hac as ->.
    destruct (Split rest c) as [|tok toks]; [done |].
    simpl in *. by rewrite IH.
  - destruct (Split rest c) as [|tok toks]; [done |].
    destruct toks as [|tok' toks]; simpl in *; by rewrite <- IH.
Qed.

Lemma substring_all (s : string) : String.substring 0 (String.length s) s = s.
Proof. induction s as [|a s IH]; simpl; [done | by rewrite IH]. Qed.

Lemma HasPrefix_command (rest : string) :
  HasPrefix (String ":" rest) DebugCommandPrefix = true.
Proof. unfold HasPrefix, DebugCommandPrefix. by destruct rest. Qed.

Lemma TrimPrefix_command (rest : string) :
  TrimPrefix (String ":" rest) DebugCommandPrefix = rest.
Proof.
  unfold TrimPrefix. rewrite HasPrefix_command.
  unfold DebugCommandPrefix. simpl.
  rewrite Nat.sub_0_r. apply substring_all.
Qed.

(** ** The error policy *)

Section DebuggerFacts.
Context {W : Type}.
Variable Parse : string → Data * option Message.
Variable Eval : Data → SymbolTableFrame → State W → EvalOutcome W.

Lemma rerouted_true (g : DebugFlags) :
  rerouted g = true ↔
  DebugOnError g = true ∧ IsInteractive g = true ∧ DebugEvalInDebugRepl g = false.
Proof.
  unfold rerouted.
  destruct (DebugOnError g), (IsInteractive g), (DebugEvalInDebugRepl g); simpl;
    intuition congruence.
Qed.

Lemma ProcessError_propagates (msg : Message) (env : SymbolTableFrame)
    (lines : list string) (st : State W) :
  rerouted (flags st) = false →
  ProcessError Parse Eval msg env lines st = Done (Some msg) st lines.
Proof. intros H. unfold ProcessError. by rewrite H. Qed.

Lemma ProcessError_reroutes (msg : Message) (env : SymbolTableFrame)
    (lines : list string) (st : State W) :
  rerouted (flags st) = true →
  ProcessError Parse Eval msg env lines st =
    match DebugRepl Parse Eval env lines st with
    | Done _ st' rest => Done None st' rest
    | Exits st' => Exits st'
    | AwaitsInput st' => AwaitsInput st'
    end.
Proof. intros H. unfold ProcessError. by rewrite H. Qed.

Lemma ProcessError_error_iff (msg : Message) (env : SymbolTableFrame)
    (lines : list string) (st : State W) (err : option Message)
    (st' : State W) (rest : list string) :
  ProcessError Parse Eval msg env lines st = Done err st' rest →
  (err ≠ None ↔ rerouted (flags st) = false).
Proof.
  unfold ProcessError. destruct (rerouted (flags st)).
  - destruct (DebugRepl Parse Eval env lines st); intros [= <- <- <-] || intros [=];
      naive_solver.
  - intros [= <- <- <-]. naive_solver.
Qed.

(** The [:r] command: the text after it is parsed and evaluated with the
    re-entry guard up; on success the value is installed and the loop
    returns. *)
Lemma DebugRepl_return_command (text : string) (rest : list string)
    (env : SymbolTableFrame) (st st2 : State W) (d : Data) :
  Eval (Parse text).1 env (with_flags (set_DebugEvalInDebugRepl true) st)
    = EvalReturns d None st2 →
  DebugRepl Parse Eval env ((":r " +:+ text) :: rest) st =
    Done tt (MkState (MkFlags (DebugTrace (flags st2)) (DebugOnError (flags st2))
                              (IsInteractive (flags st2)) false false None d)
                     (world st2)) rest.
Proof.
  intros HE. cbn [DebugRepl].
  destruct (decide (":r " +:+ text ≠ EmptyString)) as [_|Hn]; [| by destruct Hn].
  change (":r " +:+ text) with (String ":" (String "r" (String " " text))).
  rewrite HasPrefix_command, TrimPrefix_command.
  change (Split (String "r" (String " " text)) " "%char)
    with (String "r" EmptyString :: Split text " "%char).
  cbn [hd tl String.eqb Ascii.eqb Bool.eqb].
  rewrite (Join_Split text " "%char). destruct (Parse text) as [code perr]. simpl in HE. rewrite HE.
  reflexivity.
Qed.

Lemma ResumeCallSite_override (st : State W) :
  (ResumeCallSite Nil None st).1 = (DebugReturnValue (flags st), None).
Proof. unfold ResumeCallSite. by destruct (DebugReturnValue (flags st)). Qed.

End DebuggerFacts.

(** C4: [ProcessError] hands back the error exactly when break-on-error,
    interactive execution and "not inside the debugger's own evaluation"
    do not all hold; when they all hold the failure goes to the command
    loop and the answer, once the loop returns, is a nil error; and a
    [:r] command whose expression evaluates to [d] installs [d] as the
    pending override, with which the failed evaluation resumes as a
    success of value [d]. *)
Theorem ProcessError_policy {W : Type}
    (Parse : string → Data * option Message)
    (Eval : Data → SymbolTableFrame → State W → EvalOutcome W)
    (msg : Message) (env : SymbolTableFrame) (lines : list string) (st : State W) :
  let break_here :=
    DebugOnError (flags st) = true ∧ IsInteractive (flags st) = true ∧
    DebugEvalInDebugRepl (flags st) = false in
  ((∃ err st' rest, ProcessError Parse Eval msg env lines st = Done (Some err) st' rest)
     ↔ ¬ break_here) ∧
  (¬ break_here → ProcessError Parse Eval msg env lines st = Done (Some msg) st lines) ∧
  (break_here →
     ProcessError Parse Eval msg env lines st =
       match DebugRepl Parse Eval env lines st with
       | Done _ st' rest => Done None st' rest
       | Exits st' => Exits st'
       | AwaitsInput st' => AwaitsInput st'
       end) ∧
  (break_here →
   ∀ (text : string) (rest : list string) (d : Data) (st2 : State W),
     Eval (Parse text).1 env (with_flags (set_DebugEvalInDebugRepl true) st)
       = EvalReturns d None st2 →
     ∃ st',
       ProcessError Parse Eval msg env ((":r " +:+ text) :: rest) st = Done None st' rest ∧
       DebugReturnValue (flags st') = d ∧
       (ResumeCallSite Nil None st').1 = (d, None)).
Proof.
  intros break_here.
  assert (Hb : rerouted (flags st) = true ↔ break_here) by apply rerouted_true.
  assert (Hn : rerouted (flags st) = false ↔ ¬ break_here).
  { rewrite <- Hb. by destruct (rerouted (flags st)). }
  split; [| split; [| split]].
  - rewrite <- Hn. split.
    + intros (err & st' & rest & H).
      by apply (ProcessError_error_iff Parse Eval msg env lines st (Some err) st' rest).
    + intros H. exists msg, st, lines. by apply ProcessError_propagates.
  - intros H. apply ProcessError_propagates. by apply Hn.
  - intros H. apply ProcessError_reroutes. by apply Hb.
  - intros H text rest d st2 HE. apply Hb in H.
    eexists. split; [| split].
    + rewrite ProcessError_reroutes by done.
      by rewrite (DebugRepl_return_command Parse Eval text rest env st st2 d HE).
    + reflexivity.
    + by rewrite ResumeCallSite_override.
Qed.

(** The documented session: break-on-error and interactive mode on, a
    failure, and [:r 42] typed at the prompt. *)
Lemma ProcessError_policy_witness :
  let Parse := λ text : string,
    (if String.eqb text "42" then Integer 42 else Symbol text, @None Message) in
  let Eval := λ (d : Data) (_ : SymbolTableFrame) (st : State unit),
    EvalReturns d None st in
  let st := MkState (MkFlags false true true false false None Nil) tt in
  ∃ st' : State unit,
    ProcessError Parse Eval [Lit "boom"] (GlobalFrame []) [":r 42"] st
      = Done None st' [] ∧
    DebugReturnValue (flags st') = Integer 42 ∧
    (ResumeCallSite Nil None st').1 = (Integer 42, None).
Proof.
  intros Parse Eval st.
  refine (proj2 (proj2 (proj2
    (ProcessError_policy Parse Eval [Lit "boom"] (GlobalFrame []) [] st)))
    _ "42" [] (Integer 42) _ eq_refl).
  repeat split.
Defined.

(** ** The store *)

Lemma array_at_insert_eq (h : Heap) (l : loc) (a : list Data) :
  array_at (<[l := a]> h) l = a.
Proof. unfold array_at. by rewrite lookup_insert_eq. Qed.

Lemma array_at_insert_ne (h : Heap) (l l' : loc) (a : list Data) :
  l ≠ l' → array_at (<[l := a]> h) l' = array_at h l'.
Proof. intros H. unfold array_at. by rewrite lookup_insert_ne. Qed.

Lemma fresh_unallocated (h : Heap) : h !! fresh (dom h) = None.
Proof. apply not_elem_of_dom, is_fresh. Qed.

Lemma fresh_not_valid (h : Heap) (s : Slice) :
  slice_valid h s → fresh (dom h) ≠ s_array s.
Proof.
  intros (_ & _ & [a Ha] & _) Heq. rewrite <- Heq, fresh_unallocated in Ha. done.
Qed.

Lemma length_slice_elems (h : Heap) (s : Slice) :
  slice_valid h s → length (slice_elems h s) = s_len s.
Proof.
  intros (Hlc & Hoc & _). unfold slice_elems.
  rewrite length_take, length_drop. lia.
Qed.

Lemma slice_len_bounded (h : Heap) (s : Slice) :
  slice_valid h s → Z.of_nat (s_len s) ≤ max_slice_len.
Proof. intros (Hlc & Hoc & _ & Hmax). lia. Qed.

Lemma lookup_slice_elems (h : Heap) (s : Slice) (i : nat) :
  (i < s_len s)%nat →
  slice_elems h s !! i = array_at h (s_array s) !! (s_off s + i)%nat.
Proof. intros Hi. unfold slice_elems. by rewrite lookup_take_lt, lookup_drop. Qed.

(** Reading an index in range gives the element of the slice there. *)
Lemma index_get_elems (h : Heap) (s : Slice) (i : nat) :
  slice_valid h s → (i < s_len s)%nat →
  ∃ x, slice_elems h s !! i = Some x ∧ index_get h s (Z.of_nat i) = Some x.
Proof.
  intros Hv Hi. pose proof (length_slice_elems h s Hv) as Hlen.
  destruct (lookup_lt_is_Some_2 (slice_elems h s) i) as [x Hx]; [lia |].
  exists x. split; [done |].
  unfold index_get. destruct (decide (0 ≤ Z.of_nat i < Z.of_nat (s_len s))); [| lia].
  rewrite Nat2Z.id, <- lookup_slice_elems, Hx by done. done.
Qed.

(** A write in range through one slice is read back through any slice of
    the same array at the same cell. *)
Lemma index_set_get_same_cell (h : Heap) (a b : Slice) (i j : Z) (x : Data) :
  s_array a = s_array b →
  (s_off a + Z.to_nat i = s_off b + Z.to_nat j)%nat →
  0 ≤ i < Z.of_nat (s_len a) → 0 ≤ j < Z.of_nat (s_len b) →
  (s_off a + Z.to_nat i < length (array_at h (s_array a)))%nat →
  ∃ h', index_set h a i x = Some h' ∧ index_get h' b j = Some x.
Proof.
  intros Harr Hpos Hi Hj Hlen. unfold index_set, index_get.
  destruct (decide (0 ≤ i < Z.of_nat (s_len a))); [| lia].
  destruct (decide (0 ≤ j < Z.of_nat (s_len b))); [| lia].
  eexists. split; [reflexivity |].
  rewrite <- Harr, array_at_insert_eq, <- Hpos.
  by rewrite list_lookup_insert_eq.
Qed.

(** A write through a slice of one array changes no read of another. *)
Lemma index_set_get_other_array (h h' : Heap) (a b : Slice) (i j : Z) (x : Data) :
  s_array a ≠ s_array b →
  index_set h a i x = Some h' →
  index_get h' b j = index_get h b j.
Proof.
  intros Hne. unfold index_set, index_get.
  destruct (decide (0 ≤ i < Z.of_nat (s_len a))); [| done].
  intros [= <-]. by rewrite array_at_insert_ne.
Qed.

Lemma index_set_in_range (h : Heap) (s : Slice) (i : Z) (x : Data) :
  0 ≤ i < Z.of_nat (s_len s) → is_Some (index_set h s i x).
Proof.
  intros Hi. unfold index_set.
  destruct (decide (0 ≤ i < Z.of_nat (s_len s))); [eauto | lia].
Qed.

Lemma index_set_out_of_range (h : Heap) (s : Slice) (i : Z) (x : Data) :
  i < 0 ∨ Z.of_nat (s_len s) ≤ i → index_set h s i x = None.
Proof.
  intros Hi. unfold index_set.
  destruct (decide (0 ≤ i < Z.of_nat (s_len s))); [lia | done].
Qed.

Lemma index_get_out_of_range (h : Heap) (s : Slice) (i : Z) :
  i < 0 ∨ Z.of_nat (s_len s) ≤ i → index_get h s i = None.
Proof.
  intros Hi. unfold index_get.
  destruct (decide (0 ≤ i < Z.of_nat (s_len s))); [lia | done].
Qed.

(** ** Reading and writing one element *)

Lemma VectorSetImpl_vector (s : Slice) (i : Z) (x : Data)
    (env : SymbolTableFrame) (h : Heap) :
  VectorSetImpl (ArrayToList [Vector s; Integer i; x]) env h =
    match index_set h s i x with
    | Some h' => Returned (StringWithValue "OK") h'
    | None => Panicked IndexOutOfRange
    end.
Proof. reflexivity. Qed.

Lemma VectorRefImpl_vector (s : Slice) (i : Z) (env : SymbolTableFrame) (h : Heap) :
  VectorRefImpl (ArrayToList [Vector s; Integer i]) env h =
    if decide (i >= Z.of_nat (s_len s)) then
      Failed [Lit "vector-ref needs an index less than the vector length, but got ";
              Verb_d i; Lit "."] env h
    else
      match index_get h s i with
      | Some result => Returned result h
      | None => Panicked IndexOutOfRange
      end.
Proof. reflexivity. Qed.

(** Writing [x] at an index in range and reading there gives [x]. *)
Lemma vector_set_ref (h : Heap) (s : Slice) (i : Z) (x : Data) (env : SymbolTableFrame) :
  slice_valid h s → 0 ≤ i < Z.of_nat (s_len s) →
  ∃ h', VectorSetImpl (ArrayToList [Vector s; Integer i; x]) env h
          = Returned (StringWithValue "OK") h' ∧
        VectorRefImpl (ArrayToList [Vector s; Integer i]) env h' = Returned x h'.
Proof.
  intros (Hlc & Hoc & _) Hi.
  destruct (index_set_get_same_cell h s s i i x) as (h' & Hset & Hget);
    [done | done | done | done | lia |].
  exists h'. rewrite VectorSetImpl_vector, VectorRefImpl_vector, Hset, Hget.
  split; [done |]. destruct (decide (i >= Z.of_nat (s_len s))); [lia | done].
Qed.

(** [vector-ref] guards the upper bound only. *)
Lemma vector_ref_too_large (h : Heap) (s : Slice) (i : Z) (env : SymbolTableFrame) :
  Z.of_nat (s_len s) ≤ i →
  VectorRefImpl (ArrayToList [Vector s; Integer i]) env h =
    Failed [Lit "vector-ref needs an index less than the vector length, but got ";
            Verb_d i; Lit "."] env h.
Proof.
  intros Hi. rewrite VectorRefImpl_vector.
  destruct (decide (i >= Z.of_nat (s_len s))); [done | lia].
Qed.

Lemma vector_ref_negative (h : Heap) (s : Slice) (i : Z) (env : SymbolTableFrame) :
  i < 0 →
  VectorRefImpl (ArrayToList [Vector s; Integer i]) env h = Panicked IndexOutOfRange.
Proof.
  intros Hi. rewrite VectorRefImpl_vector.
  destruct (decide (i >= Z.of_nat (s_len s))); [lia |].
  rewrite index_get_out_of_range; [done | lia].
Qed.

(** [vector-set!] guards no bound at all. *)
Lemma vector_set_out_of_bounds (h : Heap) (s : Slice) (i : Z) (x : Data)
    (env : SymbolTableFrame) :
  i < 0 ∨ Z.of_nat (s_len s) ≤ i →
  VectorSetImpl (ArrayToList [Vector s; Integer i; x]) env h = Panicked IndexOutOfRange.
Proof.
  intros Hi. by rewrite VectorSetImpl_vector, index_set_out_of_range.
Qed.

(** C1, at the failing inputs: on the three-element vector [#(1 2 3)],
    [(vector-set! v 3 9)] and [(vector-set! v -1 9)] are run-time panics
    and so is [(vector-ref v -1)]; only [(vector-ref v 3)] is answered
    with an error. *)
Theorem vector_index_out_of_bounds_panics :
  let s := MkSlice 1%positive 0 3 3 in
  let h : Heap := {[ 1%positive := [Integer 1; Integer 2; Integer 3] ]} in
  let env := GlobalFrame [] in
  VectorSetImpl (ArrayToList [Vector s; Integer 3; Integer 9]) env h
    = Panicked IndexOutOfRange ∧
  VectorSetImpl (ArrayToList [Vector s; Integer (-1); Integer 9]) env h
    = Panicked IndexOutOfRange ∧
  VectorRefImpl (ArrayToList [Vector s; Integer (-1)]) env h
    = Panicked IndexOutOfRange ∧
  VectorRefImpl (ArrayToList [Vector s; Integer 3]) env h
    = Failed [Lit "vector-ref needs an index less than the vector length, but got ";
              Verb_d 3; Lit "."] env h.
Proof. repeat split. Qed.

(** ** Growing a vector *)

Lemma make_slice_fresh (h : Heap) (n c : Z) :
  0 ≤ n ≤ c → c ≤ max_slice_len →
  make_slice h n c =
    Some (MkSlice (fresh (dom h)) 0 (Z.to_nat n) (Z.to_nat c),
          <[fresh (dom h) := replicate (Z.to_nat c) Nil]> h).
Proof.
  intros H Hc. unfold make_slice.
  destruct (decide (0 ≤ n ∧ n ≤ c ∧ c ≤ max_slice_len)); [done | lia].
Qed.

(** The copying loop of [VectorGrowImpl], from round [i] on: the fresh
    array holds the first [i] elements and nil cells, and ends with all
    the elements. *)
Lemma copy_range_fresh (h : Heap) (l : loc) (src : Slice) (k : nat) :
  slice_valid h src → l ≠ s_array src → (s_len src ≤ k)%nat →
  ∀ (m i : nat), (i + m = s_len src)%nat →
    copy_range m (Z.of_nat i) src (MkSlice l 0 k k)
      (<[l := take i (slice_elems h src) ++ replicate (k - i) Nil]> h)
    = Some (<[l := slice_elems h src ++ replicate (k - s_len src) Nil]> h).
Proof.
  intros Hv Hl Hk. pose proof (length_slice_elems h src Hv) as Hlen.
  induction m as [|m IH]; intros i Him.
  - simpl. rewrite Nat.add_0_r in Him. subst i. by rewrite take_ge by lia.
  - cbn [copy_range].
    destruct (index_get_elems h src i Hv) as (x & Hx & Hget); [lia |].
    assert (Hget' : index_get (<[l := take i (slice_elems h src) ++ replicate (k - i) Nil]> h)
                      src (Z.of_nat i) = Some x).
    { rewrite <- Hget. unfold index_get. by rewrite array_at_insert_ne. }
    rewrite Hget'. unfold index_set. cbn [s_len s_array s_off].
    destruct (decide (0 ≤ Z.of_nat i < Z.of_nat k)); [| lia].
    rewrite array_at_insert_eq, insert_insert_eq, Nat2Z.id. simpl (0 + i)%nat.
    assert (Hcell : <[i := x]> (take i (slice_elems h src) ++ replicate (k - i) Nil)
                    = take (S i) (slice_elems h src) ++ replicate (k - S i) Nil).
    { rewrite (take_S_r _ _ _ Hx), <- app_assoc.
      rewrite insert_app_r_alt by (rewrite length_take; lia).
      rewrite length_take, Nat.min_l, Nat.sub_diag by lia.
      replace (k - i)%nat with (S (k - S i)) by lia. done. }
    rewrite Hcell. replace (Z.of_nat i + 1) with (Z.of_nat (S i)) by lia.
    apply IH. lia.
Qed.

Lemma VectorGrowImpl_grows (h : Heap) (s : Slice) (k : Z) (env : SymbolTableFrame) :
  slice_valid h s → Z.of_nat (s_len s) < k → k ≤ max_slice_len →
  VectorGrowImpl (ArrayToList [Vector s; Integer k]) env h =
    Returned (Vector (MkSlice (fresh (dom h)) 0 (Z.to_nat k) (Z.to_nat k)))
             (<[fresh (dom h) :=
                  slice_elems h s ++ replicate (Z.to_nat k - s_len s) Nil]> h).
Proof.
  intros Hv Hk Hmax. unfold VectorGrowImpl, First, Second, Cadr. simpl.
  destruct (decide (k ≤ Z.of_nat (s_len s))); [lia |].
  rewrite make_slice_fresh by lia.
  pose proof (copy_range_fresh h (fresh (dom h)) s (Z.to_nat k) Hv
                (fresh_not_valid h s Hv) ltac:(lia) (s_len s) 0%nat eq_refl) as Hc.
  simpl in Hc. rewrite Nat.sub_0_r in Hc. change (Z.of_nat 0) with 0 in Hc.
  by rewrite Hc.
Qed.

(** A size above what [make] accepts: the run time panics. *)
Lemma VectorGrowImpl_too_large (h : Heap) (s : Slice) (k : Z) (env : SymbolTableFrame) :
  Z.of_nat (s_len s) < k → max_slice_len < k →
  VectorGrowImpl (ArrayToList [Vector s; Integer k]) env h = Panicked MakeLenOutOfRange.
Proof.
  intros Hk Hmax. unfold VectorGrowImpl, First, Second, Cadr. simpl.
  destruct (decide (k ≤ Z.of_nat (s_len s))); [lia |].
  unfold make_slice. destruct (decide (0 ≤ k ∧ k ≤ k ∧ k ≤ max_slice_len)); [lia | done].
Qed.

Lemma VectorGrowImpl_too_small (h : Heap) (s : Slice) (k : Z) (env : SymbolTableFrame) :
  k ≤ Z.of_nat (s_len s) →
  VectorGrowImpl (ArrayToList [Vector s; Integer k]) env h =
    Failed [Lit "vector-grow needs a new size that is larger than the size of its vector argument (";
            Verb_d (Z.of_nat (s_len s)); Lit "), but got ";
            Verb_s_int k; Lit "."] env h.
Proof.
  intros Hk. unfold VectorGrowImpl, First, Second, Cadr. simpl.
  destruct (decide (k ≤ Z.of_nat (s_len s))); [done | lia].
Qed.

(** C8, as amended: [vector-grow] with a size not larger than the
    vector's length fails with its message and leaves the store as it was;
    with a larger size [k] that [make] accepts it returns a vector of
    length [k] on a newly allocated array, whose first elements are those
    of the argument in order, while the argument and every array that
    existed keep their contents; with a larger size that [make] refuses
    the call panics. *)
Theorem VectorGrowImpl_new_vector (h : Heap) (s : Slice) (k : Z) (env : SymbolTableFrame) :
  slice_valid h s →
  (k ≤ Z.of_nat (s_len s) →
     VectorGrowImpl (ArrayToList [Vector s; Integer k]) env h =
       Failed [Lit "vector-grow needs a new size that is larger than the size of its vector argument (";
               Verb_d (Z.of_nat (s_len s)); Lit "), but got ";
               Verb_s_int k; Lit "."] env h) ∧
  (Z.of_nat (s_len s) < k → k ≤ max_slice_len →
     ∃ (s' : Slice) (h' : Heap),
       VectorGrowImpl (ArrayToList [Vector s; Integer k]) env h = Returned (Vector s') h' ∧
       Z.of_nat (s_len s') = k ∧
       length (slice_elems h' s') = s_len s' ∧
       take (s_len s) (slice_elems h' s') = slice_elems h s ∧
       s_array s' ≠ s_array s ∧
       h !! s_array s' = None ∧
       slice_elems h' s = slice_elems h s ∧
       (∀ l, l ≠ s_array s' → h' !! l = h !! l)) ∧
  (max_slice_len < k →
     VectorGrowImpl (ArrayToList [Vector s; Integer k]) env h = Panicked MakeLenOutOfRange).
Proof.
  intros Hv. split; [apply VectorGrowImpl_too_small |]. split.
  - intros Hk Hmax. pose proof (length_slice_elems h s Hv) as Hlen.
    pose proof (fresh_not_valid h s Hv) as Hfresh.
    eexists _, _. split; [by apply VectorGrowImpl_grows |].
    cbn [s_len s_array s_off].
    assert (Hnew : slice_elems
              (<[fresh (dom h) := slice_elems h s ++ replicate (Z.to_nat k - s_len s) Nil]> h)
              (MkSlice (fresh (dom h)) 0 (Z.to_nat k) (Z.to_nat k))
            = slice_elems h s ++ replicate (Z.to_nat k - s_len s) Nil).
    { unfold slice_elems at 1. cbn [s_len s_array s_off].
      rewrite array_at_insert_eq, drop_0, take_ge; [done |].
      rewrite length_app, length_replicate. lia. }
    rewrite Hnew.
    split; [lia |].
    split; [rewrite length_app, length_replicate; lia |].
    split; [by rewrite take_app_length' |].
    split; [done |].
    split; [apply fresh_unallocated |].
    split.
    + unfold slice_elems. by rewrite array_at_insert_ne.
    + intros l Hl. by rewrite lookup_insert_ne.
  - intros Hmax. pose proof Hv as (Hlc & Hoc & _ & Hbound).
    apply VectorGrowImpl_too_large; lia.
Qed.

Lemma VectorGrowImpl_new_vector_witness :
  let s := MkSlice 1%positive 0 2 2 in
  let h : Heap := {[ 1%positive := [Integer 7; Integer 8] ]} in
  slice_valid h s ∧
  VectorGrowImpl (ArrayToList [Vector s; Integer 2]) (GlobalFrame []) h =
    Failed [Lit "vector-grow needs a new size that is larger than the size of its vector argument (";
            Verb_d 2; Lit "), but got "; Verb_s_int 2; Lit "."] (GlobalFrame []) h ∧
  (∃ (s' : Slice) (h' : Heap),
    VectorGrowImpl (ArrayToList [Vector s; Integer 4]) (GlobalFrame []) h
      = Returned (Vector s') h' ∧
    Z.of_nat (s_len s') = 4 ∧
    length (slice_elems h' s') = s_len s' ∧
    take (s_len s) (slice_elems h' s') = slice_elems h s ∧
    s_array s' ≠ s_array s ∧
    h !! s_array s' = None ∧
    slice_elems h' s = slice_elems h s ∧
    (∀ l, l ≠ s_array s' → h' !! l = h !! l)) ∧
  VectorGrowImpl (ArrayToList [Vector s; Integer (2 ^ 60)]) (GlobalFrame []) h
    = Panicked MakeLenOutOfRange.
Proof.
  intros s h.
  assert (Hv : slice_valid h s).
  { split; [simpl; lia |]. split; [vm_compute; lia |].
    split; [by exists [Integer 7; Integer 8] |]. vm_compute; discriminate. }
  split; [exact Hv |]. split; [| split].
  - exact (proj1 (VectorGrowImpl_new_vector h s 2 (GlobalFrame []) Hv) ltac:(simpl; lia)).
  - refine (proj1 (proj2 (VectorGrowImpl_new_vector h s 4 (GlobalFrame []) Hv)) _ _).
    + simpl; lia.
    + vm_compute; discriminate.
  - refine (proj2 (proj2 (VectorGrowImpl_new_vector h s (2 ^ 60) (GlobalFrame []) Hv)) _).
    vm_compute; reflexivity.
Defined.

(** The claim as first stated, that every size above the length yields a
    vector of that length, fails at the size 2^60 on a two-element vector:
    no vector is returned. *)
Lemma VectorGrowImpl_huge_size_counterexample :
  let s := MkSlice 1%positive 0 2 2 in
  let h : Heap := {[ 1%positive := [Integer 7; Integer 8] ]} in
  Z.of_nat (s_len s) < 2 ^ 60 ∧
  ¬ ∃ (r : Data) (h' : Heap),
      VectorGrowImpl (ArrayToList [Vector s; Integer (2 ^ 60)]) (GlobalFrame []) h
        = Returned r h'.
Proof.
  intros s h. split; [vm_compute; reflexivity |].
  intros (r & h' & H).
  assert (Hp : VectorGrowImpl (ArrayToList [Vector s; Integer (2 ^ 60)]) (GlobalFrame []) h
               = Panicked MakeLenOutOfRange).
  { apply VectorGrowImpl_too_large; vm_compute; reflexivity. }
  rewrite Hp in H. discriminate H.
Qed.

(** ** Vectors that share their array, and vectors that do not *)

Lemma write_visible_same_cell (h : Heap) (a b : Slice) (i j : Z) :
  s_array a = s_array b →
  (s_off a + Z.to_nat i = s_off b + Z.to_nat j)%nat →
  0 ≤ i < Z.of_nat (s_len a) → 0 ≤ j < Z.of_nat (s_len b) →
  (s_off a + Z.to_nat i < length (array_at h (s_array a)))%nat →
  write_visible h (Vector a) i (Vector b) j.
Proof.
  intros Harr Hpos Hi Hj Hlen x env.
  destruct (index_set_get_same_cell h a b i j x) as (h' & Hset & Hget); [done.. |].
  exists h'. rewrite VectorSetImpl_vector, VectorRefImpl_vector, Hset, Hget.
  split; [done |]. destruct (decide (j >= Z.of_nat (s_len b))); [lia | done].
Qed.

Lemma write_invisible_other_array (h : Heap) (a b : Slice) (i : Z) :
  s_array a ≠ s_array b → 0 ≤ i < Z.of_nat (s_len a) →
  write_invisible h (Vector a) i (Vector b).
Proof.
  intros Hne Hi x env.
  destruct (index_set_in_range h a i x Hi) as [h' Hset].
  exists h'. rewrite VectorSetImpl_vector, Hset. split; [done |].
  intros j d. rewrite !VectorRefImpl_vector.
  rewrite (index_set_get_other_array h h' a b i j x Hne Hset).
  destruct (decide (j >= Z.of_nat (s_len b))); [done |].
  destruct (index_get h b j); [| done]. by intros [= ->].
Qed.

Lemma SubVectorImpl_vector (h : Heap) (s : Slice) (lo hi : Z) (env : SymbolTableFrame) :
  (s_len s ≤ s_cap s)%nat →
  0 ≤ lo < Z.of_nat (s_len s) → lo ≤ hi ≤ Z.of_nat (s_len s) →
  SubVectorImpl (ArrayToList [Vector s; Integer lo; Integer hi]) env h =
    Returned (Vector (MkSlice (s_array s) (s_off s + Z.to_nat lo)
                              (Z.to_nat (hi - lo)) (s_cap s - Z.to_nat lo))) h.
Proof.
  intros Hc Hlo Hhi. unfold SubVectorImpl, First, Second, Third, Cadr, Caddr. simpl.
  destruct (decide (lo < 0 ∨ lo >= Z.of_nat (s_len s))); [lia |].
  destruct (decide (hi < lo ∨ hi > Z.of_nat (s_len s))); [lia |].
  unfold reslice. destruct (decide (0 ≤ lo ∧ lo ≤ hi ∧ hi ≤ Z.of_nat (s_cap s))); [done | lia].
Qed.

Lemma VectorHeadImpl_vector (h : Heap) (s : Slice) (hi : Z) (env : SymbolTableFrame) :
  (s_len s ≤ s_cap s)%nat → 0 ≤ hi ≤ Z.of_nat (s_len s) →
  VectorHeadImpl (ArrayToList [Vector s; Integer hi]) env h =
    Returned (Vector (MkSlice (s_array s) (s_off s + 0) (Z.to_nat (hi - 0)) (s_cap s - 0))) h.
Proof.
  intros Hc Hhi. unfold VectorHeadImpl, First, Second, Cadr. simpl.
  destruct (decide (hi < 0 ∨ hi > Z.of_nat (s_len s))); [lia |].
  unfold reslice. destruct (decide (0 ≤ 0 ∧ 0 ≤ hi ∧ hi ≤ Z.of_nat (s_cap s))); [done | lia].
Qed.

Lemma VectorTailImpl_vector (h : Heap) (s : Slice) (lo : Z) (env : SymbolTableFrame) :
  (s_len s ≤ s_cap s)%nat → 0 ≤ lo ≤ Z.of_nat (s_len s) →
  VectorTailImpl (ArrayToList [Vector s; Integer lo]) env h =
    Returned (Vector (MkSlice (s_array s) (s_off s + Z.to_nat lo)
                              (Z.to_nat (Z.of_nat (s_len s) - lo))
                              (s_cap s - Z.to_nat lo))) h.
Proof.
  intros Hc Hlo. unfold VectorTailImpl, First, Second, Cadr. simpl.
  destruct (decide (lo < 0 ∨ lo > Z.of_nat (s_len s))); [lia |].
  unfold reslice.
  destruct (decide (0 ≤ lo ∧ lo ≤ Z.of_nat (s_len s) ∧ Z.of_nat (s_len s) ≤ Z.of_nat (s_cap s)));
    [done | lia].
Qed.

(** The part [lo..hi) of a vector and the vector see each other's writes. *)
Lemma reslice_shares (h : Heap) (s : Slice) (lo hi j : Z) :
  slice_valid h s →
  0 ≤ lo → lo ≤ hi ≤ Z.of_nat (s_len s) → 0 ≤ j < hi - lo →
  let sub := MkSlice (s_array s) (s_off s + Z.to_nat lo)
                     (Z.to_nat (hi - lo)) (s_cap s - Z.to_nat lo) in
  write_visible h (Vector sub) j (Vector s) (lo + j) ∧
  write_visible h (Vector s) (lo + j) (Vector sub) j.
Proof.
  intros (Hlc & Hoc & _) Hlo Hhi Hj sub.
  split; apply write_visible_same_cell; subst sub; cbn [s_array s_off s_len]; lia || done.
Qed.

(** The appends of [VectorCopyImpl] fill the fresh array in place. *)
Lemma foldl_append_fresh (h : Heap) (l : loc) (n : nat) (rest filled : list Data) :
  (length filled + length rest = n)%nat →
  foldl (λ '(nv, hh) e, append hh nv e)
        (MkSlice l 0 (length filled) n, <[l := filled ++ replicate (length rest) Nil]> h)
        rest
  = (MkSlice l 0 n n, <[l := filled ++ rest]> h).
Proof.
  revert filled. induction rest as [|e rest IH]; intros filled Hn.
  - simpl in *. rewrite Nat.add_0_r in Hn. by rewrite Hn.
  - cbn [foldl]. unfold append at 2. cbn [s_len s_cap s_array s_off].
    simpl length in Hn.
    destruct (decide (length filled < n)%nat); [| lia].
    rewrite array_at_insert_eq, insert_insert_eq. simpl (0 + length filled)%nat.
    replace (<[length filled := e]> (filled ++ replicate (length (e :: rest)) Nil))
      with ((filled ++ [e]) ++ replicate (length rest) Nil).
    2:{ rewrite insert_app_r_alt, Nat.sub_diag by lia. by rewrite <- app_assoc. }
    replace (S (length filled)) with (length (filled ++ [e]))
      by (rewrite length_app; simpl; lia).
    rewrite IH by (rewrite length_app; simpl; lia).
    by rewrite <- app_assoc.
Qed.

Lemma VectorCopyImpl_vector (h : Heap) (s : Slice) (env : SymbolTableFrame) :
  slice_valid h s →
  VectorCopyImpl (ArrayToList [Vector s]) env h =
    Returned (Vector (MkSlice (fresh (dom h)) 0 (s_len s) (s_len s)))
             (<[fresh (dom h) := slice_elems h s]> h).
Proof.
  intros Hv. pose proof (length_slice_elems h s Hv) as Hlen.
  pose proof (slice_len_bounded h s Hv) as Hmax.
  unfold VectorCopyImpl, First. simpl.
  rewrite make_slice_fresh by lia. rewrite Nat2Z.id.
  pose proof (foldl_append_fresh h (fresh (dom h)) (s_len s) (slice_elems h s) []) as Hf.
  simpl in Hf. rewrite Hlen in Hf. change (Z.to_nat 0) with 0%nat.
  by rewrite Hf.
Qed.

(** C9: the vectors [subvector], [vector-head] and [vector-tail] return
    stand on the array of their argument: a [vector-set!] through the
    result at [j] is read by [vector-ref] through the argument at the
    matching index, and the other way round; the vector [vector-copy]
    returns has the same elements on an array of its own, and writes
    through either of the two leave every read through the other as it
    was. *)
Theorem subvectors_share_copy_does_not (h : Heap) (s : Slice) (env : SymbolTableFrame) :
  slice_valid h s →
  (∀ lo hi : Z, 0 ≤ lo < Z.of_nat (s_len s) → lo ≤ hi ≤ Z.of_nat (s_len s) →
     ∃ sub, SubVectorImpl (ArrayToList [Vector s; Integer lo; Integer hi]) env h
              = Returned sub h ∧
       ∀ j, 0 ≤ j < hi - lo →
         write_visible h sub j (Vector s) (lo + j) ∧
         write_visible h (Vector s) (lo + j) sub j) ∧
  (∀ hi : Z, 0 ≤ hi ≤ Z.of_nat (s_len s) →
     ∃ sub, VectorHeadImpl (ArrayToList [Vector s; Integer hi]) env h = Returned sub h ∧
       ∀ j, 0 ≤ j < hi →
         write_visible h sub j (Vector s) j ∧
         write_visible h (Vector s) j sub j) ∧
  (∀ lo : Z, 0 ≤ lo ≤ Z.of_nat (s_len s) →
     ∃ sub, VectorTailImpl (ArrayToList [Vector s; Integer lo]) env h = Returned sub h ∧
       ∀ j, 0 ≤ j < Z.of_nat (s_len s) - lo →
         write_visible h sub j (Vector s) (lo + j) ∧
         write_visible h (Vector s) (lo + j) sub j) ∧
  (∃ (c : Slice) (h1 : Heap),
     VectorCopyImpl (ArrayToList [Vector s]) env h = Returned (Vector c) h1 ∧
     slice_elems h1 c = slice_elems h s ∧
     slice_elems h1 s = slice_elems h s ∧
     ∀ j, 0 ≤ j < Z.of_nat (s_len s) →
       write_invisible h1 (Vector c) j (Vector s) ∧
       write_invisible h1 (Vector s) j (Vector c)).
Proof.
  intros Hv. pose proof Hv as (Hlc & Hoc & Hal & Hmax).
  split; [| split; [| split]].
  - intros lo hi Hlo Hhi. eexists. split; [by apply SubVectorImpl_vector |].
    intros j Hj. apply reslice_shares; [done | lia..].
  - intros hi Hhi. eexists. split; [by apply VectorHeadImpl_vector |].
    intros j Hj. apply (reslice_shares h s 0 hi j); [done | lia..].
  - intros lo Hlo. eexists. split; [by apply VectorTailImpl_vector |].
    intros j Hj. apply (reslice_shares h s lo (Z.of_nat (s_len s)) j); [done | lia..].
  - pose proof (fresh_not_valid h s Hv) as Hfresh.
    pose proof (length_slice_elems h s Hv) as Hlen.
    eexists _, _. split; [by apply VectorCopyImpl_vector |].
    split; [| split].
    + unfold slice_elems at 1. cbn [s_len s_array s_off].
      rewrite array_at_insert_eq, drop_0, take_ge; [done | lia].
    + unfold slice_elems. by rewrite array_at_insert_ne.
    + intros j Hj. split; apply write_invisible_other_array; cbn [s_array s_len]; done.
Qed.

Lemma subvectors_share_copy_does_not_witness :
  let s := MkSlice 1%positive 0 3 3 in
  let h : Heap := {[ 1%positive := [Integer 1; Integer 2; Integer 3] ]} in
  slice_valid h s ∧
  ∃ sub, SubVectorImpl (ArrayToList [Vector s; Integer 1; Integer 3]) (GlobalFrame []) h
           = Returned sub h ∧
    ∀ j, 0 ≤ j < 3 - 1 →
      write_visible h sub j (Vector s) (1 + j) ∧
      write_visible h (Vector s) (1 + j) sub j.
Proof.
  intros s h.
  assert (Hv : slice_valid h s).
  { split; [simpl; lia |]. split; [vm_compute; lia |]. split; [by exists [Integer 1; Integer 2; Integer 3] |]. vm_compute; discriminate. }
  split; [exact Hv |].
  exact (proj1 (subvectors_share_copy_does_not h s (GlobalFrame []) Hv)
           1 3 ltac:(simpl; lia) ltac:(simpl; lia)).
Defined.

(** ** The binary search *)

(** C10: [vector-binary-search] is registered with the argument count "4"
    and its body does nothing: for every argument list it returns a nil
    result and a nil error, and leaves the store as it was. *)
Theorem VectorBinarySearchImpl_is_a_stub :
  (∃ p, lookup_primitive "vector-binary-search" (RegisterVectorPrimitives []) = Some p ∧
        NumberOfArgs p = "4" ∧ Body p = Some VectorBinarySearchImpl) ∧
  ∀ (args : Data) (env : SymbolTableFrame) (h : Heap),
    VectorBinarySearchImpl args env h = Returned Nil h.
Proof.
  split; [| reflexivity].
  eexists. split; [reflexivity |]. split; reflexivity.
Qed.

(** ** Failures seen from the caller *)

Section CallFacts.
Variable Parse : string → Data * option Message.
Variable Eval : Data → SymbolTableFrame → State Heap → EvalOutcome Heap.

(** Outside the debugger's policy a failed primitive hands its caller a
    nil result and the error. *)
Lemma CallPrimitive_failure_propagates (body : PrimitiveBody) (args : Data)
    (env env' : SymbolTableFrame) (lines : list string) (st : State Heap)
    (msg : Message) (h : Heap) :
  body args env (world st) = Failed msg env' h →
  rerouted (flags st) = false →
  CallPrimitive Parse Eval body args env lines st
    = inr (Done (Nil, Some msg) (MkState (flags st) h) lines).
Proof.
  intros Hb Hr. unfold CallPrimitive. rewrite Hb.
  by rewrite ProcessError_propagates.
Qed.

(** A panic in a primitive is no result at all: it unwinds through the
    caller. *)
Lemma CallPrimitive_panic (body : PrimitiveBody) (args : Data)
    (env : SymbolTableFrame) (lines : list string) (st : State Heap) (f : Fault) :
  body args env (world st) = Panicked f →
  CallPrimitive Parse Eval body args env lines st = inl f.
Proof. intros Hb. unfold CallPrimitive. by rewrite Hb. Qed.

Lemma vector_set_out_of_bounds_unwinds (s : Slice) (i : Z) (x : Data)
    (env : SymbolTableFrame) (lines : list string) (st : State Heap) :
  i < 0 ∨ Z.of_nat (s_len s) ≤ i →
  CallPrimitive Parse Eval VectorSetImpl (ArrayToList [Vector s; Integer i; x]) env lines st
    = inl IndexOutOfRange.
Proof. intros Hi. apply CallPrimitive_panic. by apply vector_set_out_of_bounds. Qed.

Lemma vector_grow_too_small_is_an_error (s : Slice) (k : Z)
    (env : SymbolTableFrame) (lines : list string) (st : State Heap) :
  k ≤ Z.of_nat (s_len s) → rerouted (flags st) = false →
  ∃ msg,
    CallPrimitive Parse Eval VectorGrowImpl (ArrayToList [Vector s; Integer k]) env lines st
      = inr (Done (Nil, Some msg) st lines).
Proof.
  intros Hk Hr. eexists.
  rewrite (CallPrimitive_failure_propagates _ _ _ _ _ _ _ _
             (VectorGrowImpl_too_small (world st) s k env Hk) Hr).
  by destruct st.
Qed.

End CallFacts.

(** * Further properties *)

(** ** Arithmetic *)

Lemma wrap_sub_l (a b : Z) : wrap (wrap a - b) = wrap (a - b).
Proof.
  apply wrap_congr.
  by rewrite <- Zminus_mod_idemp_l, wrap_mod, Zminus_mod_idemp_l.
Qed.

Lemma wrap_sub_r (a b : Z) : wrap (a - wrap b) = wrap (a - b).
Proof.
  apply wrap_congr.
  by rewrite <- Zminus_mod_idemp_r, wrap_mod, Zminus_mod_idemp_r.
Qed.

Lemma foldl_int_sub (ns : list Z) (acc : Z) :
  foldl int_sub (wrap acc) ns = wrap (acc - sum_list ns).
Proof.
  revert acc. induction ns as [|n ns IH]; intros acc; simpl.
  - by rewrite Z.sub_0_r.
  - unfold int_sub at 2. rewrite wrap_sub_l, IH. f_equal. lia.
Qed.

(** X1: over two or more numbers, [Subtract] answers the first operand
    minus what [Add] answers on the others, in Go's [int] arithmetic. *)
Theorem Subtract_is_first_minus_Add (n m : Z) (ms : list Z) :
  ∃ total : Z,
    Add (ArrayToList (Integer <$> m :: ms)) = Returns (Integer total) None ∧
    Subtract (ArrayToList (Integer <$> n :: m :: ms))
      = Returns (Integer (int_sub n total)) None.
Proof.
  exists (wrap (sum_list (m :: ms))). split; [apply Add_numbers |].
  rewrite Subtract_many. do 2 f_equal.
  cbn [foldl]. unfold int_sub at 2. rewrite foldl_int_sub.
  unfold int_sub. rewrite wrap_sub_r. f_equal. simpl. lia.
Qed.

Lemma sum_list_Permutation (ns ns' : list Z) :
  ns ≡ₚ ns' → sum_list ns = sum_list ns'.
Proof.
  unfold sum_list. induction 1 as [|x l l' _ IH|x y l|l l' l'' _ IH1 _ IH2]; simpl; lia.
Qed.

Lemma product_list_Permutation (ns ns' : list Z) :
  ns ≡ₚ ns' → product_list ns = product_list ns'.
Proof.
  unfold product_list. induction 1 as [|x l l' _ IH|x y l|l l' l'' _ IH1 _ IH2]; simpl; lia.
Qed.

(** X2: the answers of [Add] and [Multiply] on numbers do not depend on
    the order of the operands, overflow included. *)
Theorem Add_Multiply_order_independent (ns ns' : list Z) :
  ns ≡ₚ ns' →
  Add (ArrayToList (Integer <$> ns)) = Add (ArrayToList (Integer <$> ns')) ∧
  Multiply (ArrayToList (Integer <$> ns)) = Multiply (ArrayToList (Integer <$> ns')).
Proof.
  intros Hp. rewrite !Add_numbers, !Multiply_numbers.
  by rewrite (sum_list_Permutation _ _ Hp), (product_list_Permutation _ _ Hp).
Qed.

Lemma Add_Multiply_order_independent_witness :
  [3; 5; 7] ≡ₚ [7; 3; 5] ∧
  Add (ArrayToList (Integer <$> [3; 5; 7])) = Add (ArrayToList (Integer <$> [7; 3; 5])) ∧
  Multiply (ArrayToList (Integer <$> [3; 5; 7]))
    = Multiply (ArrayToList (Integer <$> [7; 3; 5])).
Proof.
  assert (Hp : [3; 5; 7] ≡ₚ [7; 3; 5]).
  { symmetry. apply (Permutation_cons_append [3; 5] 7). }
  split; [exact Hp |]. exact (Add_Multiply_order_independent _ _ Hp).
Defined.

Lemma Quotient_loop_stops_at_non_number (ds : list Z) (x : Data) (rest : list Data) (acc : Z) :
  0 ∉ ds → TypeOf x ≠ NumberType →
  Quotient_loop (ArrayToList ((Integer <$> ds) ++ x :: rest)) acc
    = Returns Nil (Some "Number expected").
Proof.
  revert acc. induction ds as [|d ds IH]; intros acc Hz Hx; simpl.
  - by destruct (decide (TypeOf x ≠ NumberType)).
  - apply not_elem_of_cons in Hz as [Hd Hz]. unfold int_quo.
    destruct (Z.eqb_spec d 0) as [->|_]; [done |]. by apply IH.
Qed.

Lemma Quotient_loop_zero_first (ds : list Z) (rest : list Data) (acc : Z) :
  0 ∈ ds →
  Quotient_loop (ArrayToList ((Integer <$> ds) ++ rest)) acc = Panics IntegerDivideByZero.
Proof.
  revert acc. induction ds as [|d ds IH]; intros acc Hz; simpl.
  - by apply elem_of_nil in Hz.
  - unfold int_quo. destruct (Z.eqb_spec d 0) as [->|Hd]; [done |].
    apply IH. apply elem_of_cons in Hz as [Heq | Hz]; [congruence | done].
Qed.

(** X3: in [Quotient] the first offending operand decides: after a number
    and divisors [ds], an operand that is not a number gives the error
    "Number expected" (the quotient so far is dropped) when no divisor in
    [ds] is zero, and the call panics when one is. *)
Theorem Quotient_first_offender_decides (n : Z) (ds : list Z) (x : Data) (rest : list Data) :
  TypeOf x ≠ NumberType →
  (0 ∉ ds →
     Quotient (ArrayToList (Integer n :: (Integer <$> ds) ++ x :: rest))
       = Returns Nil (Some "Number expected")) ∧
  (0 ∈ ds →
     Quotient (ArrayToList (Integer n :: (Integer <$> ds) ++ x :: rest))
       = Panics IntegerDivideByZero).
Proof.
  intros Hx. unfold Quotient. simpl Car. simpl TypeOf.
  destruct (decide (NumberType ≠ NumberType)) as [Hne|_]; [done |]. simpl Cdr.
  split; intros Hz.
  - by apply Quotient_loop_stops_at_non_number.
  - by apply Quotient_loop_zero_first.
Qed.

Lemma Quotient_first_offender_decides_witness :
  Quotient (ArrayToList [Integer 100; Integer 5; StringD "x"; Integer 0])
    = Returns Nil (Some "Number expected") ∧
  Quotient (ArrayToList [Integer 100; Integer 0; StringD "x"])
    = Panics IntegerDivideByZero.
Proof.
  split.
  - refine (proj1 (Quotient_first_offender_decides 100 [5] (StringD "x") [Integer 0] _) _).
    + simpl. discriminate.
    + intros H. apply list_elem_of_singleton in H. discriminate.
  - refine (proj2 (Quotient_first_offender_decides 100 [0] (StringD "x") [] _) _).
    + simpl. discriminate.
    + constructor.
Defined.

(** ** The conditional, on any argument list *)

(** X4: whatever its argument list, [If] evaluates the first argument
    first, even when it then rejects the call, and after it at most one
    of the second and third arguments, never both. *)
Theorem If_evaluates_at_most_one_branch {World : Type}
    (Eval : Data → World → Data * World) (BooleanValue : Data → bool)
    (args : Data) (m : Machine) :
  let log := evaluated (If Eval BooleanValue args m).2 in
  log = evaluated m ++ [Car args] ∨
  log = evaluated m ++ [Car args; Cadr args] ∨
  log = evaluated m ++ [Car args; Caddr args].
Proof.
  unfold If, EvalLogged. destruct (Eval (Car args) (m_world m)) as [c w1]. simpl.
  destruct (decide (Cdddr args ≠ Nil)); [by left |].
  destruct (BooleanValue c).
  - destruct (Eval (Cadr args) w1) as [r w2]. simpl.
    right; left. by rewrite <- app_assoc.
  - destruct (Eval (Caddr args) w1) as [r w2]. simpl.
    right; right. by rewrite <- app_assoc.
Qed.

(** ** The command loop, command by command *)

Lemma processState_tokens (t0 w : string) :
  processState (t0 :: Split w " "%char) =
    if String.eqb w "on" then (true, true)
    else if String.eqb w "off" then (true, false)
    else (false, false).
Proof.
  pose proof (Split_not_nil w " "%char) as Hne.
  pose proof (Join_Split w " "%char) as HJ.
  destruct (Split w " "%char) as [|t [|t' ts]] eqn:Hs; [done | |].
  - unfold Join in HJ. simpl in HJ. subst t. reflexivity.
  - unfold processState. simpl length.
    destruct (decide (S (S (S (length ts))) ≠ 2%nat)) as [_|Hn]; [| by destruct Hn].
    destruct (String.eqb_spec w "on") as [->|_]; [by vm_compute in Hs |].
    destruct (String.eqb_spec w "off") as [->|_]; [by vm_compute in Hs |].
    done.
Qed.

Section CommandFacts.
Context {W : Type}.
Variable Parse : string → Data * option Message.
Variable Eval : Data → SymbolTableFrame → State W → EvalOutcome W.

(** The head of a command line [":" +:+ cmd] is recognised and cut off. *)
Lemma DebugRepl_effectless_command (cmd : string) (rest : list string)
    (env : SymbolTableFrame) (st : State W) :
  hd EmptyString (Split cmd " "%char) ∉ ["c"; "e"; "q"; "r"; "s"; "t"; "u"] →
  DebugRepl Parse Eval env ((":" +:+ cmd) :: rest) st = DebugRepl Parse Eval env rest st.
Proof.
  intros Hn. cbn [DebugRepl].
  change (":" +:+ cmd) with (String ":" cmd).
  destruct (decide (String ":" cmd ≠ EmptyString)) as [_|Hd]; [| by destruct Hd].
  rewrite HasPrefix_command, TrimPrefix_command. cbv zeta.
  repeat match goal with
  | |- context [String.eqb ?a ?b] =>
      destruct (String.eqb_spec a b) as [Heq|?];
      [try reflexivity; exfalso; apply Hn; rewrite Heq; set_solver |]
  end.
  reflexivity.
Qed.

Lemma DebugRepl_empty_line (rest : list string) (env : SymbolTableFrame) (st : State W) :
  DebugRepl Parse Eval env (EmptyString :: rest) st = DebugRepl Parse Eval env rest st.
Proof. reflexivity. Qed.

(** X5: an empty line, and a command line whose first word is none of
    [c], [e], [q], [r], [s], [t], [u], change nothing: the loop goes on
    with the next line in the same state. *)
Theorem DebugRepl_ignores_other_lines (cmd : string) (rest : list string)
    (env : SymbolTableFrame) (st : State W) :
  DebugRepl Parse Eval env (EmptyString :: rest) st = DebugRepl Parse Eval env rest st ∧
  (hd EmptyString (Split cmd " "%char) ∉ ["c"; "e"; "q"; "r"; "s"; "t"; "u"] →
   DebugRepl Parse Eval env ((":" +:+ cmd) :: rest) st = DebugRepl Parse Eval env rest st).
Proof. split; [apply DebugRepl_empty_line | apply DebugRepl_effectless_command]. Qed.

Lemma DebugRepl_e_command (w : string) (rest : list string)
    (env : SymbolTableFrame) (st : State W) :
  DebugRepl Parse Eval env ((":e " +:+ w) :: rest) st =
    DebugRepl Parse Eval env rest
      (if String.eqb w "on" then with_flags (set_DebugOnError true) st
       else if String.eqb w "off" then with_flags (set_DebugOnError false) st
       else st).
Proof.
  cbn [DebugRepl]. change (":e " +:+ w) with (String ":" (String "e" (String " " w))).
  destruct (decide (String ":" (String "e" (String " " w)) ≠ EmptyString)) as [_|Hd];
    [| by destruct Hd].
  rewrite HasPrefix_command, TrimPrefix_command.
  change (Split (String "e" (String " " w)) " "%char)
    with (String "e" EmptyString :: Split w " "%char).
  cbn [hd String.eqb Ascii.eqb Bool.eqb]. rewrite processState_tokens.
  destruct (String.eqb w "on"); [done |]. by destruct (String.eqb w "off").
Qed.

Lemma DebugRepl_t_command (w : string) (rest : list string)
    (env : SymbolTableFrame) (st : State W) :
  DebugRepl Parse Eval env ((":t " +:+ w) :: rest) st =
    DebugRepl Parse Eval env rest
      (if String.eqb w "on" then with_flags (set_DebugTrace true) st
       else if String.eqb w "off" then with_flags (set_DebugTrace false) st
       else st).
Proof.
  cbn [DebugRepl]. change (":t " +:+ w) with (String ":" (String "t" (String " " w))).
  destruct (decide (String ":" (String "t" (String " " w)) ≠ EmptyString)) as [_|Hd];
    [| by destruct Hd].
  rewrite HasPrefix_command, TrimPrefix_command.
  change (Split (String "t" (String " " w)) " "%char)
    with (String "t" EmptyString :: Split w " "%char).
  cbn [hd String.eqb Ascii.eqb Bool.eqb]. rewrite processState_tokens.
  destruct (String.eqb w "on"); [done |]. by destruct (String.eqb w "off").
Qed.

(** X6: [:e w] and [:t w] set break-on-error, respectively tracing, when
    [w] is exactly "on" or "off", and change nothing for any other text
    (further words included); either way the loop reads on. *)
Theorem DebugRepl_switch_commands (w : string) (rest : list string)
    (env : SymbolTableFrame) (st : State W) :
  DebugRepl Parse Eval env ((":e " +:+ w) :: rest) st =
    DebugRepl Parse Eval env rest
      (if String.eqb w "on" then with_flags (set_DebugOnError true) st
       else if String.eqb w "off" then with_flags (set_DebugOnError false) st
       else st) ∧
  DebugRepl Parse Eval env ((":t " +:+ w) :: rest) st =
    DebugRepl Parse Eval env rest
      (if String.eqb w "on" then with_flags (set_DebugTrace true) st
       else if String.eqb w "off" then with_flags (set_DebugTrace false) st
       else st).
Proof. split; [apply DebugRepl_e_command | apply DebugRepl_t_command]. Qed.

Lemma DebugRepl_c_command (rest : list string) (env : SymbolTableFrame) (st : State W) :
  DebugRepl Parse Eval env (":c" :: rest) st =
    Done tt (MkState (MkFlags (DebugTrace (flags st)) (DebugOnError (flags st))
                              (IsInteractive (flags st)) false false None
                              (DebugReturnValue (flags st)))
                     (world st)) rest.
Proof. reflexivity. Qed.

(** X7: typing [:e off] and then [:c] at the prompt of a rerouted failure
    makes [ProcessError] answer nil for that failure and hand back every
    later failure as an error. *)
Theorem break_on_error_switched_off_at_prompt
    (msg msg' : Message) (env env' : SymbolTableFrame)
    (rest lines' : list string) (st : State W) :
  rerouted (flags st) = true →
  ∃ st',
    ProcessError Parse Eval msg env (":e off" :: ":c" :: rest) st = Done None st' rest ∧
    world st' = world st ∧
    ProcessError Parse Eval msg' env' lines' st' = Done (Some msg') st' lines'.
Proof.
  intros Hr. eexists. split; [| split].
  - rewrite ProcessError_reroutes by done.
    rewrite (DebugRepl_e_command "off"). cbn [String.eqb Ascii.eqb Bool.eqb].
    rewrite DebugRepl_c_command. reflexivity.
  - reflexivity.
  - apply ProcessError_propagates. reflexivity.
Qed.

(** X8: a panic of the evaluator on an expression typed at the prompt is
    recovered by the loop, which returns at once: [ProcessError] then
    answers nil, in the state the panic left, the later lines unread. *)
Theorem panic_at_prompt_is_recovered
    (msg : Message) (env : SymbolTableFrame) (input : string) (rest : list string)
    (st st2 : State W) (code : Data) :
  rerouted (flags st) = true →
  input ≠ EmptyString → HasPrefix input DebugCommandPrefix = false →
  Parse input = (code, None) →
  Eval code env (with_flags (set_DebugEvalInDebugRepl true) st) = EvalPanics st2 →
  ProcessError Parse Eval msg env (input :: rest) st = Done None st2 rest.
Proof.
  intros Hr Hne Hp HP HE. rewrite ProcessError_reroutes by done.
  cbn [DebugRepl]. destruct (decide (input ≠ EmptyString)) as [_|Hd]; [| by destruct Hd].
  rewrite Hp, HP, HE. reflexivity.
Qed.

End CommandFacts.

Lemma break_on_error_switched_off_at_prompt_witness :
  let Parse := λ text : string, (Symbol text, @None Message) in
  let Eval := λ (d : Data) (_ : SymbolTableFrame) (st : State unit),
    EvalReturns d None st in
  let st := MkState (MkFlags false true true false false None Nil) tt in
  ∃ st' : State unit,
    ProcessError Parse Eval [Lit "first"] (GlobalFrame []) [":e off"; ":c"] st
      = Done None st' [] ∧
    world st' = world st ∧
    ProcessError Parse Eval [Lit "second"] (GlobalFrame []) [] st'
      = Done (Some [Lit "second"]) st' [].
Proof.
  intros Parse Eval st.
  exact (break_on_error_switched_off_at_prompt Parse Eval
           [Lit "first"] [Lit "second"] (GlobalFrame []) (GlobalFrame []) [] [] st eq_refl).
Defined.

Lemma panic_at_prompt_is_recovered_witness :
  let Parse := λ text : string, (Symbol text, @None Message) in
  let Eval := λ (d : Data) (_ : SymbolTableFrame) (st : State unit),
    @EvalPanics unit st in
  let st := MkState (MkFlags false true true false false None Nil) tt in
  ProcessError Parse Eval [Lit "boom"] (GlobalFrame []) ["(car 1)"; ":c"] st
    = Done None (MkState (MkFlags false true true true false None Nil) tt) [":c"].
Proof.
  intros Parse Eval st.
  refine (panic_at_prompt_is_recovered Parse Eval [Lit "boom"] (GlobalFrame [])
            "(car 1)" [":c"] st _ (Symbol "(car 1)") eq_refl _ eq_refl eq_refl eq_refl).
  discriminate.
Defined.

(** ** Making and filling vectors *)

Lemma array_at_lookup (h : Heap) (l : loc) :
  is_Some (h !! l) → h !! l = Some (array_at h l).
Proof. intros [a Ha]. unfold array_at. by rewrite Ha. Qed.

Lemma slice_valid_insert (h : Heap) (s : Slice) (l : loc) (a : list Data) :
  slice_valid h s → length a = length (array_at h l) →
  slice_valid (<[l := a]> h) s.
Proof.
  intros (Hlc & Hoc & Hal & Hmax) Hlen. split; [done |].
  destruct (decide (l = s_array s)) as [->|Hne].
  - rewrite array_at_insert_eq, lookup_insert_eq. split; [lia |]. split; [eauto | lia].
  - rewrite array_at_insert_ne, lookup_insert_ne by done. done.
Qed.

(** What [fill_range] leaves in the array of [dst]: [x] in the [n] cells
    from index [i] on, every other cell as it was. *)
Lemma fill_range_cells (dst : Slice) (x : Data) (n : nat) :
  ∀ (i : nat) (h : Heap),
    slice_valid h dst → (i + n ≤ s_len dst)%nat →
    ∃ a',
      fill_range n (Z.of_nat i) dst x h = Some (<[s_array dst := a']> h) ∧
      length a' = length (array_at h (s_array dst)) ∧
      ∀ p : nat,
        a' !! p =
          if decide (s_off dst + i ≤ p < s_off dst + i + n)%nat then Some x
          else array_at h (s_array dst) !! p.
Proof.
  induction n as [|n IH]; intros i h Hv Hin.
  - exists (array_at h (s_array dst)). split; [| split; [done |]].
    + simpl. rewrite insert_id; [done |]. apply array_at_lookup, Hv.
    + intros p. destruct (decide _); [lia | done].
  - pose proof Hv as (Hlc & Hoc & Hal & Hmax). cbn [fill_range]. unfold index_set.
    destruct (decide (0 ≤ Z.of_nat i < Z.of_nat (s_len dst))); [| lia].
    rewrite Nat2Z.id. replace (Z.of_nat i + 1) with (Z.of_nat (S i)) by lia.
    set (a1 := <[(s_off dst + i)%nat := x]> (array_at h (s_array dst))).
    assert (Hlen1 : length a1 = length (array_at h (s_array dst)))
      by apply length_insert.
    destruct (IH (S i) (<[s_array dst := a1]> h)) as (a' & Hrun & Hlen & Hcells);
      [by apply slice_valid_insert | lia |].
    rewrite array_at_insert_eq in Hlen, Hcells. rewrite insert_insert_eq in Hrun.
    exists a'. split; [done |]. split; [lia |].
    intros p. rewrite Hcells. subst a1. rewrite list_lookup_insert.
    repeat destruct (decide _); try done; lia.
Qed.

Lemma fill_range_elems (h : Heap) (s : Slice) (x : Data) (i n : nat) :
  slice_valid h s → (i + n ≤ s_len s)%nat →
  ∃ h',
    fill_range n (Z.of_nat i) s x h = Some h' ∧
    slice_valid h' s ∧
    (∀ l, l ≠ s_array s → h' !! l = h !! l) ∧
    length (slice_elems h' s) = s_len s ∧
    ∀ j : nat, (j < s_len s)%nat →
      slice_elems h' s !! j =
        if decide (i ≤ j < i + n)%nat then Some x else slice_elems h s !! j.
Proof.
  intros Hv Hin. destruct (fill_range_cells s x n i h Hv Hin) as (a' & Hrun & Hlen & Hcells).
  assert (Hv' : slice_valid (<[s_array s := a']> h) s) by by apply slice_valid_insert.
  exists (<[s_array s := a']> h). split; [done |]. split; [done |].
  split; [by intros l Hl; rewrite lookup_insert_ne |].
  split; [by apply length_slice_elems |].
  intros j Hj. rewrite !lookup_slice_elems, array_at_insert_eq, Hcells by done.
  repeat destruct (decide _); try done; lia.
Qed.

Lemma Length_two (a b : Data) : Length (ArrayToList [a; b]) = 2%nat.
Proof. reflexivity. Qed.

(** X9: [make-vector] with a size [k >= 0] that [make] accepts returns a
    vector of length [k] on a newly allocated array, every element being
    the second argument (nil when there is none), and nothing that existed
    is touched; with a size that [make] refuses it panics. *)
Theorem MakeVectorImpl_makes (h : Heap) (k : Z) (value : Data) (env : SymbolTableFrame) :
  (0 ≤ k ≤ max_slice_len →
     (∃ (s' : Slice) (h' : Heap),
        MakeVectorImpl (ArrayToList [Integer k; value]) env h = Returned (Vector s') h' ∧
        Z.of_nat (s_len s') = k ∧ h !! s_array s' = None ∧
        slice_elems h' s' = replicate (Z.to_nat k) value ∧
        ∀ l, l ≠ s_array s' → h' !! l = h !! l) ∧
     (∃ (s' : Slice) (h' : Heap),
        MakeVectorImpl (ArrayToList [Integer k]) env h = Returned (Vector s') h' ∧
        Z.of_nat (s_len s') = k ∧ h !! s_array s' = None ∧
        slice_elems h' s' = replicate (Z.to_nat k) Nil ∧
        ∀ l, l ≠ s_array s' → h' !! l = h !! l)) ∧
  (max_slice_len < k →
     MakeVectorImpl (ArrayToList [Integer k; value]) env h = Panicked MakeLenOutOfRange ∧
     MakeVectorImpl (ArrayToList [Integer k]) env h = Panicked MakeLenOutOfRange).
Proof.
  split.
  - intros Hk.
    assert (Hgen : ∀ x : Data,
      ∃ h', fill_range (Z.to_nat k) 0 (MkSlice (fresh (dom h)) 0 (Z.to_nat k) (Z.to_nat k)) x
              (<[fresh (dom h) := replicate (Z.to_nat k) Nil]> h) = Some h' ∧
            slice_elems h' (MkSlice (fresh (dom h)) 0 (Z.to_nat k) (Z.to_nat k))
              = replicate (Z.to_nat k) x ∧
            ∀ l, l ≠ fresh (dom h) → h' !! l = h !! l).
    { intros x.
      set (s := MkSlice (fresh (dom h)) 0 (Z.to_nat k) (Z.to_nat k)).
      set (h0 := <[fresh (dom h) := replicate (Z.to_nat k) Nil]> h).
      assert (Hv : slice_valid h0 s).
      { split; [done |]. subst s h0. cbn [s_off s_cap s_array].
        rewrite array_at_insert_eq, length_replicate, lookup_insert_eq.
        split; [lia |]. split; [eauto | lia]. }
      destruct (fill_range_elems h0 s x 0 (Z.to_nat k) Hv ltac:(simpl; lia))
        as (h' & Hrun & _ & Hother & Hlen & Hcells).
      exists h'. split; [exact Hrun |]. split.
      - apply list_eq. intros j. destruct (decide (j < Z.to_nat k)%nat) as [Hj|Hj].
        + rewrite Hcells by done. rewrite lookup_replicate_2 by done.
          destruct (decide _); [done | lia].
        + rewrite !lookup_ge_None_2; [done | rewrite length_replicate; lia |].
          rewrite Hlen. simpl. lia.
      - intros l Hl. rewrite (Hother l Hl). subst h0. by rewrite lookup_insert_ne. }
    split.
    + destruct (Hgen value) as (h' & Hrun & Hel & Hother).
      exists (MkSlice (fresh (dom h)) 0 (Z.to_nat k) (Z.to_nat k)), h'.
      unfold MakeVectorImpl, First, Second, Cadr. simpl.
      rewrite make_slice_fresh by lia. rewrite Hrun.
      split; [done |]. split; [simpl; lia |]. split; [apply fresh_unallocated |]. done.
    + destruct (Hgen Nil) as (h' & Hrun & Hel & Hother).
      exists (MkSlice (fresh (dom h)) 0 (Z.to_nat k) (Z.to_nat k)), h'.
      unfold MakeVectorImpl, First, Second, Cadr. simpl.
      rewrite make_slice_fresh by lia. rewrite Hrun.
      split; [done |]. split; [simpl; lia |]. split; [apply fresh_unallocated |]. done.
  - intros Hk. unfold MakeVectorImpl, First, Second, Cadr, make_slice. simpl.
    destruct (decide (0 ≤ k ∧ k ≤ k ∧ k ≤ max_slice_len)); [lia | done].
Qed.

Lemma MakeVectorImpl_makes_witness :
  (∃ (s' : Slice) (h' : Heap),
    MakeVectorImpl (ArrayToList [Integer 3; Symbol "x"]) (GlobalFrame []) ∅
      = Returned (Vector s') h' ∧
    Z.of_nat (s_len s') = 3 ∧ (∅ : Heap) !! s_array s' = None ∧
    slice_elems h' s' = replicate (Z.to_nat 3) (Symbol "x") ∧
    ∀ l, l ≠ s_array s' → h' !! l = (∅ : Heap) !! l) ∧
  MakeVectorImpl (ArrayToList [Integer (2 ^ 60); Symbol "x"]) (GlobalFrame []) ∅
    = Panicked MakeLenOutOfRange.
Proof.
  split.
  - refine (proj1 (proj1 (MakeVectorImpl_makes ∅ 3 (Symbol "x") (GlobalFrame [])) _)).
    split; vm_compute; discriminate.
  - refine (proj1 (proj2 (MakeVectorImpl_makes ∅ (2 ^ 60) (Symbol "x") (GlobalFrame [])) _)).
    vm_compute; reflexivity.
Defined.

(** X10: a negative size makes [make-vector] panic in [make]; the size is
    not checked and no error is signalled. *)
Theorem MakeVectorImpl_negative_size_panics (h : Heap) (k : Z) (rest : list Data)
    (env : SymbolTableFrame) :
  k < 0 →
  MakeVectorImpl (ArrayToList (Integer k :: rest)) env h = Panicked MakeLenOutOfRange.
Proof.
  intros Hk. unfold MakeVectorImpl, First. simpl.
  unfold make_slice. destruct (decide (0 ≤ k ∧ k ≤ k ∧ k ≤ max_slice_len)); [lia | done].
Qed.

Lemma MakeVectorImpl_negative_size_panics_witness :
  MakeVectorImpl (ArrayToList [Integer (-1)]) (GlobalFrame []) ∅ = Panicked MakeLenOutOfRange.
Proof.
  exact (MakeVectorImpl_negative_size_panics ∅ (-1) [] (GlobalFrame []) ltac:(lia)).
Defined.

(** X11: [vector-fill!] returns nil and leaves every element of the
    vector equal to the new value; the cells of the array outside the
    vector, and the other arrays, keep their contents. *)
Theorem VectorFillImpl_fills (h : Heap) (s : Slice) (x : Data) (env : SymbolTableFrame) :
  slice_valid h s →
  ∃ h',
    VectorFillImpl (ArrayToList [Vector s; x]) env h = Returned Nil h' ∧
    slice_elems h' s = replicate (s_len s) x ∧
    (∀ l, l ≠ s_array s → h' !! l = h !! l) ∧
    (∀ p : nat, ¬ (s_off s ≤ p < s_off s + s_len s)%nat →
       array_at h' (s_array s) !! p = array_at h (s_array s) !! p).
Proof.
  intros Hv.
  destruct (fill_range_cells s x (s_len s) 0 h Hv ltac:(lia)) as (a' & Hrun & Hlen & Hcells).
  exists (<[s_array s := a']> h).
  unfold VectorFillImpl, First, Second, Cadr. simpl.
  change 0 with (Z.of_nat 0). rewrite Hrun.
  split; [done |]. split; [| split].
  - apply list_eq. intros j.
    assert (Hv' : slice_valid (<[s_array s := a']> h) s) by by apply slice_valid_insert.
    destruct (decide (j < s_len s)%nat) as [Hj|Hj].
    + rewrite lookup_slice_elems, array_at_insert_eq, Hcells by done.
      rewrite lookup_replicate_2 by done. destruct (decide _); [done | lia].
    + rewrite !lookup_ge_None_2; [done | rewrite length_replicate; lia |].
      rewrite length_slice_elems by done. lia.
  - intros l Hl. by rewrite lookup_insert_ne.
  - intros p Hp. rewrite array_at_insert_eq, Hcells. destruct (decide _); [lia | done].
Qed.

Lemma VectorFillImpl_fills_witness :
  let s := MkSlice 1%positive 1 2 2 in
  let h : Heap := {[ 1%positive := [Integer 1; Integer 2; Integer 3] ]} in
  ∃ h',
    VectorFillImpl (ArrayToList [Vector s; Symbol "z"]) (GlobalFrame []) h = Returned Nil h' ∧
    slice_elems h' s = replicate (s_len s) (Symbol "z") ∧
    (∀ l, l ≠ s_array s → h' !! l = h !! l) ∧
    (∀ p : nat, ¬ (s_off s ≤ p < s_off s + s_len s)%nat →
       array_at h' (s_array s) !! p = array_at h (s_array s) !! p).
Proof.
  intros s h. apply VectorFillImpl_fills.
  split; [simpl; lia |]. split; [vm_compute; lia |]. split; [by exists [Integer 1; Integer 2; Integer 3] |]. vm_compute; discriminate.
Defined.

(** X12: [subvector-fill!] on a range [lo..hi) it accepts returns nil and
    puts the new value in the elements [lo..hi), every other element of
    the vector and every other array staying as it was. *)
Theorem SubVectorFillImpl_fills (h : Heap) (s : Slice) (lo hi : Z) (x : Data)
    (env : SymbolTableFrame) :
  slice_valid h s →
  0 ≤ lo < Z.of_nat (s_len s) → lo ≤ hi ≤ Z.of_nat (s_len s) →
  ∃ h',
    SubVectorFillImpl (ArrayToList [Vector s; Integer lo; Integer hi; x]) env h
      = Returned Nil h' ∧
    length (slice_elems h' s) = s_len s ∧
    (∀ j : nat, (j < s_len s)%nat →
       slice_elems h' s !! j =
         if decide (lo ≤ Z.of_nat j < hi) then Some x else slice_elems h s !! j) ∧
    (∀ l, l ≠ s_array s → h' !! l = h !! l).
Proof.
  intros Hv Hlo Hhi.
  destruct (fill_range_elems h s x (Z.to_nat lo) (Z.to_nat (hi - lo)) Hv ltac:(lia))
    as (h' & Hrun & _ & Hother & Hlen & Hcells).
  exists h'. unfold SubVectorFillImpl, First, Second, Third, Fourth, Cadr, Caddr, Cdddr. simpl.
  destruct (decide (lo < 0 ∨ lo >= Z.of_nat (s_len s))); [lia |].
  destruct (decide (hi < lo ∨ hi > Z.of_nat (s_len s))); [lia |].
  rewrite Z2Nat.id in Hrun by lia. rewrite Hrun.
  split; [done |]. split; [done |]. split; [| done].
  intros j Hj. rewrite Hcells by done.
  repeat destruct (decide _); try done; lia.
Qed.

Lemma SubVectorFillImpl_fills_witness :
  let s := MkSlice 1%positive 0 3 3 in
  let h : Heap := {[ 1%positive := [Integer 1; Integer 2; Integer 3] ]} in
  ∃ h',
    SubVectorFillImpl (ArrayToList [Vector s; Integer 1; Integer 3; Symbol "z"])
                      (GlobalFrame []) h = Returned Nil h' ∧
    length (slice_elems h' s) = s_len s ∧
    (∀ j : nat, (j < s_len s)%nat →
       slice_elems h' s !! j =
         if decide (1 ≤ Z.of_nat j < 3) then Some (Symbol "z") else slice_elems h s !! j) ∧
    (∀ l, l ≠ s_array s → h' !! l = h !! l).
Proof.
  intros s h. apply SubVectorFillImpl_fills; [| simpl; lia | simpl; lia].
  split; [simpl; lia |]. split; [vm_compute; lia |]. split; [by exists [Integer 1; Integer 2; Integer 3] |]. vm_compute; discriminate.
Defined.

Lemma DebugRepl_ignores_other_lines_witness :
  let Parse := λ text : string, (Symbol text, @None Message) in
  let Eval := λ (d : Data) (_ : SymbolTableFrame) (st : State unit),
    EvalReturns d None st in
  let st := MkState (MkFlags false true true false false None Nil) tt in
  DebugRepl Parse Eval (GlobalFrame []) [":b"; ":c"] st
    = DebugRepl Parse Eval (GlobalFrame []) [":c"] st.
Proof.
  intros Parse Eval st.
  refine (proj2 (DebugRepl_ignores_other_lines Parse Eval "b" [":c"] (GlobalFrame []) st) _).
  simpl. intros H.
  repeat (apply elem_of_cons in H as [H|H]; [discriminate H |]).
  by apply elem_of_nil in H.
Defined.

(** ** Parts of a vector *)

Lemma slice_elems_reslice (h : Heap) (s : Slice) (lo hi : nat) :
  slice_valid h s → (lo ≤ hi ≤ s_len s)%nat →
  slice_elems h (MkSlice (s_array s) (s_off s + lo) (hi - lo) (s_cap s - lo))
    = take (hi - lo) (drop lo (slice_elems h s)).
Proof.
  intros Hv Hr. apply list_eq. intros j. unfold slice_elems at 1. cbn [s_array s_off s_len].
  rewrite !lookup_take. destruct (decide (j < hi - lo)%nat) as [Hj|Hj]; [| done].
  rewrite !lookup_drop, lookup_slice_elems by lia. f_equal. lia.
Qed.

(** X13: the acceptance of the three slicing primitives, none of which
    panics or changes the store: [subvector] takes [0 <= lo < len] and
    [lo <= hi <= len] (so not the empty range at the very end),
    [vector-head] takes [0 <= hi <= len], [vector-tail] takes
    [0 <= lo <= len]; every other pair of integers is answered with a
    failure. *)
Theorem slicing_accepts_or_fails (h : Heap) (s : Slice) (lo hi : Z) (env : SymbolTableFrame) :
  (s_len s ≤ s_cap s)%nat →
  (if decide ((0 ≤ lo < Z.of_nat (s_len s)) ∧ lo ≤ hi ≤ Z.of_nat (s_len s))
   then ∃ sub, SubVectorImpl (ArrayToList [Vector s; Integer lo; Integer hi]) env h
                 = Returned (Vector sub) h
   else ∃ msg, SubVectorImpl (ArrayToList [Vector s; Integer lo; Integer hi]) env h
                 = Failed msg env h) ∧
  (if decide (0 ≤ hi ≤ Z.of_nat (s_len s))
   then ∃ sub, VectorHeadImpl (ArrayToList [Vector s; Integer hi]) env h
                 = Returned (Vector sub) h
   else ∃ msg, VectorHeadImpl (ArrayToList [Vector s; Integer hi]) env h
                 = Failed msg env h) ∧
  (if decide (0 ≤ lo ≤ Z.of_nat (s_len s))
   then ∃ sub, VectorTailImpl (ArrayToList [Vector s; Integer lo]) env h
                 = Returned (Vector sub) h
   else ∃ msg, VectorTailImpl (ArrayToList [Vector s; Integer lo]) env h
                 = Failed msg env h).
Proof.
  intros Hc. split; [| split].
  - destruct (decide _) as [[Hlo Hhi]|Hn].
    + eexists. by apply SubVectorImpl_vector.
    + unfold SubVectorImpl, First, Second, Third, Cadr, Caddr. simpl.
      destruct (decide (lo < 0 ∨ lo >= Z.of_nat (s_len s))); [eauto |].
      destruct (decide (hi < lo ∨ hi > Z.of_nat (s_len s))); [eauto | lia].
  - destruct (decide _) as [Hhi|Hn].
    + eexists. by apply VectorHeadImpl_vector.
    + unfold VectorHeadImpl, First, Second, Cadr. simpl.
      destruct (decide (hi < 0 ∨ hi > Z.of_nat (s_len s))); [eauto | lia].
  - destruct (decide _) as [Hlo|Hn].
    + eexists. by apply VectorTailImpl_vector.
    + unfold VectorTailImpl, First, Second, Cadr. simpl.
      destruct (decide (lo < 0 ∨ lo > Z.of_nat (s_len s))); [eauto | lia].
Qed.

Lemma slicing_accepts_or_fails_witness :
  let s := MkSlice 1%positive 0 3 3 in
  let h : Heap := {[ 1%positive := [Integer 1; Integer 2; Integer 3] ]} in
  (∃ msg, SubVectorImpl (ArrayToList [Vector s; Integer 3; Integer 3]) (GlobalFrame []) h
            = Failed msg (GlobalFrame []) h) ∧
  (∃ sub, VectorTailImpl (ArrayToList [Vector s; Integer 3]) (GlobalFrame []) h
            = Returned (Vector sub) h).
Proof.
  intros s h.
  pose proof (slicing_accepts_or_fails h s 3 3 (GlobalFrame []) ltac:(simpl; lia)) as (H1 & _ & H3).
  split; [exact H1 | exact H3].
Defined.

(** X14: what the parts hold, read through [vector->list]: the list of
    [subvector v lo hi] is the list of [v] without its first [lo]
    elements, cut after [hi - lo]; [vector-head] keeps the first [hi]
    elements and [vector-tail] drops the first [lo]. *)
Theorem parts_as_lists (h : Heap) (s : Slice) (env : SymbolTableFrame) :
  slice_valid h s →
  let whole := slice_elems h s in
  VectorToListImpl (ArrayToList [Vector s]) env h = Returned (ArrayToList whole) h ∧
  (∀ lo hi : Z, 0 ≤ lo < Z.of_nat (s_len s) → lo ≤ hi ≤ Z.of_nat (s_len s) →
     ∃ sub, SubVectorImpl (ArrayToList [Vector s; Integer lo; Integer hi]) env h
              = Returned sub h ∧
            VectorToListImpl (ArrayToList [sub]) env h
              = Returned (ArrayToList (take (Z.to_nat (hi - lo)) (drop (Z.to_nat lo) whole))) h) ∧
  (∀ hi : Z, 0 ≤ hi ≤ Z.of_nat (s_len s) →
     ∃ sub, VectorHeadImpl (ArrayToList [Vector s; Integer hi]) env h = Returned sub h ∧
            VectorToListImpl (ArrayToList [sub]) env h
              = Returned (ArrayToList (take (Z.to_nat hi) whole)) h) ∧
  (∀ lo : Z, 0 ≤ lo ≤ Z.of_nat (s_len s) →
     ∃ sub, VectorTailImpl (ArrayToList [Vector s; Integer lo]) env h = Returned sub h ∧
            VectorToListImpl (ArrayToList [sub]) env h
              = Returned (ArrayToList (drop (Z.to_nat lo) whole)) h).
Proof.
  intros Hv whole. subst whole. pose proof Hv as (Hlc & Hoc & Hal & Hmax).
  pose proof (length_slice_elems h s Hv) as Hlen.
  split; [reflexivity |]. split; [| split].
  - intros lo hi Hlo Hhi. eexists. split; [by apply SubVectorImpl_vector |].
    unfold VectorToListImpl. simpl.
    replace (Z.to_nat (hi - lo)) with (Z.to_nat hi - Z.to_nat lo)%nat by lia.
    rewrite slice_elems_reslice by (done || lia). done.
  - intros hi Hhi. eexists. split; [by apply VectorHeadImpl_vector |].
    unfold VectorToListImpl. simpl.
    replace (Z.to_nat (hi - 0)) with (Z.to_nat hi - 0)%nat by lia.
    replace (s_off s + 0)%nat with (s_off s + 0%nat)%nat by done.
    rewrite (slice_elems_reslice h s 0 (Z.to_nat hi)) by (done || lia).
    by rewrite drop_0, Nat.sub_0_r.
  - intros lo Hlo. eexists. split; [by apply VectorTailImpl_vector |].
    unfold VectorToListImpl. simpl.
    replace (Z.to_nat (Z.of_nat (s_len s) - lo)) with (s_len s - Z.to_nat lo)%nat by lia.
    rewrite (slice_elems_reslice h s (Z.to_nat lo) (s_len s)) by (done || lia).
    rewrite take_ge; [done |]. rewrite length_drop. lia.
Qed.

Lemma parts_as_lists_witness :
  let s := MkSlice 1%positive 0 3 3 in
  let h : Heap := {[ 1%positive := [Integer 1; Integer 2; Integer 3] ]} in
  ∃ sub, SubVectorImpl (ArrayToList [Vector s; Integer 1; Integer 3]) (GlobalFrame []) h
           = Returned sub h ∧
         VectorToListImpl (ArrayToList [sub]) (GlobalFrame []) h
           = Returned (ArrayToList (take (Z.to_nat (3 - 1))
                                         (drop (Z.to_nat 1) (slice_elems h s)))) h.
Proof.
  intros s h.
  assert (Hv : slice_valid h s).
  { split; [simpl; lia |]. split; [vm_compute; lia |]. split; [by exists [Integer 1; Integer 2; Integer 3] |]. vm_compute; discriminate. }
  exact (proj1 (proj2 (parts_as_lists h s (GlobalFrame []) Hv)) 1 3
           ltac:(simpl; lia) ltac:(simpl; lia)).
Defined.

(** X15: [subvector v lo hi] is [vector-tail] at [lo] of [vector-head] at
    [hi]: the two routes return the same vector. *)
Theorem subvector_is_tail_of_head (h : Heap) (s : Slice) (lo hi : Z) (env : SymbolTableFrame) :
  (s_len s ≤ s_cap s)%nat →
  0 ≤ lo < Z.of_nat (s_len s) → lo ≤ hi ≤ Z.of_nat (s_len s) →
  ∃ front sub,
    VectorHeadImpl (ArrayToList [Vector s; Integer hi]) env h = Returned (Vector front) h ∧
    VectorTailImpl (ArrayToList [Vector front; Integer lo]) env h = Returned (Vector sub) h ∧
    SubVectorImpl (ArrayToList [Vector s; Integer lo; Integer hi]) env h
      = Returned (Vector sub) h.
Proof.
  intros Hc Hlo Hhi. eexists _, _.
  split; [apply VectorHeadImpl_vector; [done | lia] |].
  split.
  - rewrite VectorTailImpl_vector; cbn [s_len s_cap s_off s_array]; [reflexivity | lia | lia].
  - rewrite SubVectorImpl_vector by done. do 2 f_equal.
    cbn [s_len s_cap s_off s_array]. f_equal; lia.
Qed.

Lemma subvector_is_tail_of_head_witness :
  let s := MkSlice 1%positive 0 3 3 in
  let h : Heap := {[ 1%positive := [Integer 1; Integer 2; Integer 3] ]} in
  ∃ front sub,
    VectorHeadImpl (ArrayToList [Vector s; Integer 2]) (GlobalFrame []) h
      = Returned (Vector front) h ∧
    VectorTailImpl (ArrayToList [Vector front; Integer 1]) (GlobalFrame []) h
      = Returned (Vector sub) h ∧
    SubVectorImpl (ArrayToList [Vector s; Integer 1; Integer 2]) (GlobalFrame []) h
      = Returned (Vector sub) h.
Proof.
  intros s h.
  exact (subvector_is_tail_of_head h s 1 2 (GlobalFrame [])
           ltac:(simpl; lia) ltac:(simpl; lia) ltac:(simpl; lia)).
Defined.

(** ** The ten ordinal accessors *)

Lemma index_get_in_range (h : Heap) (s : Slice) (i : Z) :
  0 ≤ i < Z.of_nat (s_len s) → ∃ x, index_get h s i = Some x.
Proof.
  intros Hi. unfold index_get.
  destruct (decide (0 ≤ i < Z.of_nat (s_len s))); [eauto | lia].
Qed.

Ltac ordinal_accessor_case :=
  split; intros Hn;
  [ rewrite VectorRefImpl_vector;
    cbv [VectorFirstImpl VectorSecondImpl VectorThirdImpl VectorFourthImpl VectorFifthImpl
         VectorSixthImpl VectorSeventhImpl VectorEighthImpl VectorNinthImpl VectorTenthImpl
         First];
    cbn [ArrayToList Car VectorP negb VectorValue];
    repeat match goal with |- context [Z.of_nat ?k] =>
      lazymatch k with context [s_len] => fail | _ => idtac end;
      let z := eval vm_compute in (Z.of_nat k) in change (Z.of_nat k) with z end;
    match goal with |- context [decide (?l > ?k)] =>
      destruct (decide (l > k)); [| lia] end;
    match goal with |- context [decide (?a >= ?b)] =>
      destruct (decide (a >= b)); [lia |] end;
    match goal with |- context [index_get ?h ?s ?k] =>
      destruct (index_get_in_range h s k) as [x Hx]; [lia | rewrite Hx] end;
    split; [reflexivity | eauto]
  | cbv [VectorFirstImpl VectorSecondImpl VectorThirdImpl VectorFourthImpl VectorFifthImpl
         VectorSixthImpl VectorSeventhImpl VectorEighthImpl VectorNinthImpl VectorTenthImpl
         First];
    cbn [ArrayToList Car VectorP negb VectorValue];
    match goal with |- context [decide (?l > ?k)] =>
      destruct (decide (l > k)); [lia | eauto] end ].

(** X16: each of [vector-first] ... [vector-tenth] answers what
    [vector-ref] answers at its index (0 ... 9) when the vector is long
    enough, and fails, without a panic and without touching the store,
    when it is shorter. *)
Theorem ordinal_accessors_agree_with_VectorRefImpl
    (n : nat) (f : PrimitiveBody) (h : Heap) (s : Slice) (env : SymbolTableFrame) :
  (n, f) ∈ [(0%nat, VectorFirstImpl); (1%nat, VectorSecondImpl); (2%nat, VectorThirdImpl);
            (3%nat, VectorFourthImpl); (4%nat, VectorFifthImpl); (5%nat, VectorSixthImpl);
            (6%nat, VectorSeventhImpl); (7%nat, VectorEighthImpl); (8%nat, VectorNinthImpl);
            (9%nat, VectorTenthImpl)] →
  ((n < s_len s)%nat →
     f (ArrayToList [Vector s]) env h
       = VectorRefImpl (ArrayToList [Vector s; Integer (Z.of_nat n)]) env h ∧
     ∃ x, f (ArrayToList [Vector s]) env h = Returned x h) ∧
  ((s_len s ≤ n)%nat →
     ∃ msg, f (ArrayToList [Vector s]) env h = Failed msg env h).
Proof.
  intros Hin.
  repeat (apply elem_of_cons in Hin as [[= -> ->] | Hin]; [ordinal_accessor_case |]).
  by apply elem_of_nil in Hin.
Qed.

Lemma ordinal_accessors_agree_with_VectorRefImpl_witness :
  let s := MkSlice 1%positive 0 3 3 in
  let h : Heap := {[ 1%positive := [Integer 1; Integer 2; Integer 3] ]} in
  VectorThirdImpl (ArrayToList [Vector s]) (GlobalFrame []) h
    = VectorRefImpl (ArrayToList [Vector s; Integer (Z.of_nat 2)]) (GlobalFrame []) h ∧
  ∃ msg, VectorFourthImpl (ArrayToList [Vector s]) (GlobalFrame []) h
           = Failed msg (GlobalFrame []) h.
Proof.
  intros s h. split.
  - refine (proj1 (proj1 (ordinal_accessors_agree_with_VectorRefImpl 2 VectorThirdImpl
                            h s (GlobalFrame []) _) _)).
    + do 2 apply list_elem_of_further. apply list_elem_of_here.
    + simpl. lia.
  - refine (proj2 (ordinal_accessors_agree_with_VectorRefImpl 3 VectorFourthImpl
                     h s (GlobalFrame []) _) _).
    + do 3 apply list_elem_of_further. apply list_elem_of_here.
    + simpl. lia.
Defined.

(** ** Moving a range of elements *)

Lemma wrap_small (z : Z) : 0 ≤ z ≤ int_max → wrap z = z.
Proof.
  intros Hz. apply wrap_id. unfold in_int_range.
  assert (int_min ≤ 0) by (vm_compute; discriminate). lia.
Qed.

Lemma index_get_cell (h : Heap) (s : Slice) (i : nat) :
  slice_valid h s → (i < s_len s)%nat →
  ∃ v, array_at h (s_array s) !! (s_off s + i)%nat = Some v ∧
       index_get h s (Z.of_nat i) = Some v.
Proof.
  intros Hv Hi. destruct (index_get_elems h s i Hv Hi) as (x & Hx & Hget).
  exists x. split; [| done]. by rewrite <- lookup_slice_elems.
Qed.

(** What [move_up] leaves in the array of [values2]: the [n] cells from
    index [i2] on hold what the cells of [values] from index [i] on held
    before, every other cell is as it was.  The two slices may stand on
    one array, provided the destination does not start after the source. *)
Lemma move_up_cells (src dst : Slice) (n : nat) :
  ∀ (i i2 : nat) (h : Heap),
    slice_valid h src → slice_valid h dst →
    (i + n ≤ s_len src)%nat → (i2 + n ≤ s_len dst)%nat →
    (s_array src ≠ s_array dst ∨ s_off dst + i2 ≤ s_off src + i)%nat →
    ∃ a',
      move_up n (Z.of_nat i) (Z.of_nat i2) src dst h = Some (<[s_array dst := a']> h) ∧
      length a' = length (array_at h (s_array dst)) ∧
      ∀ p : nat,
        a' !! p =
          if decide (s_off dst + i2 ≤ p < s_off dst + i2 + n)%nat
          then array_at h (s_array src) !! (s_off src + i + (p - (s_off dst + i2)))%nat
          else array_at h (s_array dst) !! p.
Proof.
  induction n as [|n IH]; intros i i2 h Hs Hd Hi Hi2 Hov.
  - exists (array_at h (s_array dst)). split; [| split; [done |]].
    + simpl. rewrite insert_id; [done |]. apply array_at_lookup, Hd.
    + intros p. destruct (decide _); [lia | done].
  - pose proof Hs as (Hlcs & Hocs & Hals & Hmaxs). pose proof Hd as (Hlcd & Hocd & Hald & Hmaxd).
    cbn [move_up].
    destruct (index_get_cell h src i Hs) as (v & Hcell & Hget); [lia |].
    rewrite Hget. unfold index_set.
    destruct (decide (0 ≤ Z.of_nat i2 < Z.of_nat (s_len dst))); [| lia].
    rewrite Nat2Z.id.
    replace (Z.of_nat i + 1) with (Z.of_nat (S i)) by lia.
    replace (Z.of_nat i2 + 1) with (Z.of_nat (S i2)) by lia.
    set (a1 := <[(s_off dst + i2)%nat := v]> (array_at h (s_array dst))).
    assert (Hlen1 : length a1 = length (array_at h (s_array dst))) by apply length_insert.
    destruct (IH (S i) (S i2) (<[s_array dst := a1]> h)) as (a' & Hrun & Hlen & Hcells);
      [by apply slice_valid_insert | by apply slice_valid_insert | lia | lia | lia |].
    rewrite array_at_insert_eq in Hlen, Hcells. rewrite insert_insert_eq in Hrun.
    exists a'. split; [done |]. split; [lia |].
    intros p. rewrite Hcells.
    destruct (decide (s_off dst + S i2 ≤ p < s_off dst + S i2 + n)%nat) as [Hin|Hout].
    + destruct (decide (s_off dst + i2 ≤ p < s_off dst + i2 + S n)%nat); [| lia].
      replace (s_off src + S i + (p - (s_off dst + S i2)))%nat
        with (s_off src + i + (p - (s_off dst + i2)))%nat by lia.
      destruct (decide (s_array dst = s_array src)) as [Heq|Hne].
      * rewrite <- Heq, array_at_insert_eq. subst a1.
        rewrite list_lookup_insert_ne; [done |]. destruct Hov as [Hov|Hov]; [congruence | lia].
      * by rewrite array_at_insert_ne.
    + subst a1. rewrite list_lookup_insert.
      destruct (decide (s_off dst + i2 ≤ p < s_off dst + i2 + S n)%nat) as [Hp|Hp].
      * assert (p = s_off dst + i2)%nat as -> by lia.
        destruct (decide _) as [_|Hn]; [| exfalso; apply Hn; lia].
        rewrite Nat.sub_diag, Nat.add_0_r. done.
      * destruct (decide _) as [[Heq _]|_]; [lia | done].
Qed.

(** The same for [move_down], whose indices start at the top of the two
    ranges; here the destination must not start before the source when
    the slices stand on one array. *)
Lemma move_down_cells (src dst : Slice) (n : nat) :
  ∀ (i i2 : nat) (h : Heap),
    slice_valid h src → slice_valid h dst →
    (i + n ≤ s_len src)%nat → (i2 + n ≤ s_len dst)%nat →
    (s_array src ≠ s_array dst ∨ s_off src + i ≤ s_off dst + i2)%nat →
    ∃ a',
      move_down n (Z.of_nat i + Z.of_nat n - 1) (Z.of_nat i2 + Z.of_nat n - 1) src dst h
        = Some (<[s_array dst := a']> h) ∧
      length a' = length (array_at h (s_array dst)) ∧
      ∀ p : nat,
        a' !! p =
          if decide (s_off dst + i2 ≤ p < s_off dst + i2 + n)%nat
          then array_at h (s_array src) !! (s_off src + i + (p - (s_off dst + i2)))%nat
          else array_at h (s_array dst) !! p.
Proof.
  induction n as [|n IH]; intros i i2 h Hs Hd Hi Hi2 Hov.
  - exists (array_at h (s_array dst)). split; [| split; [done |]].
    + simpl. rewrite insert_id; [done |]. apply array_at_lookup, Hd.
    + intros p. destruct (decide _); [lia | done].
  - pose proof Hs as (Hlcs & Hocs & Hals & Hmaxs). pose proof Hd as (Hlcd & Hocd & Hald & Hmaxd).
    cbn [move_down].
    replace (Z.of_nat i + Z.of_nat (S n) - 1) with (Z.of_nat (i + n)) by lia.
    replace (Z.of_nat i2 + Z.of_nat (S n) - 1) with (Z.of_nat (i2 + n)) by lia.
    destruct (index_get_cell h src (i + n) Hs) as (v & Hcell & Hget); [lia |].
    rewrite Hget. unfold index_set.
    destruct (decide (0 ≤ Z.of_nat (i2 + n) < Z.of_nat (s_len dst))); [| lia].
    rewrite Nat2Z.id.
    replace (Z.of_nat (i + n) - 1) with (Z.of_nat i + Z.of_nat n - 1) by lia.
    replace (Z.of_nat (i2 + n) - 1) with (Z.of_nat i2 + Z.of_nat n - 1) by lia.
    set (a1 := <[(s_off dst + (i2 + n))%nat := v]> (array_at h (s_array dst))).
    assert (Hlen1 : length a1 = length (array_at h (s_array dst))) by apply length_insert.
    destruct (IH i i2 (<[s_array dst := a1]> h)) as (a' & Hrun & Hlen & Hcells);
      [by apply slice_valid_insert | by apply slice_valid_insert | lia | lia | lia |].
    rewrite array_at_insert_eq in Hlen, Hcells. rewrite insert_insert_eq in Hrun.
    exists a'. split; [done |]. split; [lia |].
    intros p. rewrite Hcells.
    destruct (decide (s_off dst + i2 ≤ p < s_off dst + i2 + n)%nat) as [Hin|Hout].
    + destruct (decide (s_off dst + i2 ≤ p < s_off dst + i2 + S n)%nat); [| lia].
      destruct (decide (s_array dst = s_array src)) as [Heq|Hne].
      * rewrite <- Heq, array_at_insert_eq. subst a1.
        rewrite list_lookup_insert_ne; [done |]. destruct Hov as [Hov|Hov]; [congruence | lia].
      * by rewrite array_at_insert_ne.
    + subst a1. rewrite list_lookup_insert.
      destruct (decide (s_off dst + i2 ≤ p < s_off dst + i2 + S n)%nat) as [Hp|Hp].
      * assert (p = s_off dst + (i2 + n))%nat as -> by lia.
        destruct (decide _) as [_|Hn]; [| exfalso; apply Hn; lia].
        rewrite <- Hcell. f_equal. lia.
      * destruct (decide _) as [[Heq _]|_]; [lia | done].
Qed.

(** X17: [subvector-move-left!] on arguments it accepts, with a
    destination index [s2 >= 0], returns the destination vector, whose
    elements [s2 .. s2 + (e - s)) now hold what the source held at
    [s .. e) before the call, in order, all its other elements and every
    other array staying as they were.  This holds for vectors on
    different arrays and for vectors on one array whose destination range
    does not start after the source range. *)
Theorem SubVectorMoveLeftImpl_moves (h : Heap) (src dst : Slice) (s e s2 : Z)
    (env : SymbolTableFrame) :
  slice_valid h src → slice_valid h dst →
  Z.of_nat (s_len src) ≤ int_max → Z.of_nat (s_len dst) ≤ int_max →
  0 ≤ s < Z.of_nat (s_len src) → s ≤ e ≤ Z.of_nat (s_len src) →
  s < Z.of_nat (s_len dst) →
  0 ≤ s2 → e - s ≤ Z.of_nat (s_len dst) - s2 →
  (s_array src ≠ s_array dst ∨ Z.of_nat (s_off dst) + s2 ≤ Z.of_nat (s_off src) + s) →
  ∃ h',
    SubVectorMoveLeftImpl
      (ArrayToList [Vector src; Integer s; Integer e; Vector dst; Integer s2]) env h
      = Returned (Vector dst) h' ∧
    length (slice_elems h' dst) = s_len dst ∧
    (∀ j : nat, (j < s_len dst)%nat →
       slice_elems h' dst !! j =
         if decide (s2 ≤ Z.of_nat j < s2 + (e - s))
         then slice_elems h src !! Z.to_nat (s + (Z.of_nat j - s2))
         else slice_elems h dst !! j) ∧
    (∀ l, l ≠ s_array dst → h' !! l = h !! l).
Proof.
  intros Hs Hd Hms Hmd Hlo Hhi Hsd Hs2 Hfit Hov.
  destruct (move_up_cells src dst (Z.to_nat (e - s)) (Z.to_nat s) (Z.to_nat s2) h)
    as (a' & Hrun & Hlen & Hcells); [done | done | lia | lia | lia |].
  rewrite !Z2Nat.id in Hrun by lia.
  exists (<[s_array dst := a']> h).
  unfold SubVectorMoveLeftImpl, First, Second, Third, Fourth, Fifth, Cadr, Caddr, Cdddr. simpl.
  destruct (decide (s < 0 ∨ s >= Z.of_nat (s_len src))); [lia |].
  destruct (decide (e < s ∨ e > Z.of_nat (s_len src))); [lia |].
  destruct (decide (s < 0 ∨ s >= Z.of_nat (s_len dst))); [lia |].
  unfold int_sub. rewrite !wrap_small by lia.
  destruct (decide (e - s > Z.of_nat (s_len dst) - s2)); [lia |].
  rewrite Hrun. split; [done |].
  assert (Hd' : slice_valid (<[s_array dst := a']> h) dst) by by apply slice_valid_insert.
  split; [by apply length_slice_elems |]. split.
  - intros j Hj. rewrite lookup_slice_elems, array_at_insert_eq, Hcells by done.
    destruct (decide (s2 ≤ Z.of_nat j < s2 + (e - s))).
    + destruct (decide _); [| lia]. rewrite lookup_slice_elems by lia. f_equal. lia.
    + destruct (decide _); [lia |]. by rewrite lookup_slice_elems.
  - intros l Hl. by rewrite lookup_insert_ne.
Qed.

Lemma SubVectorMoveLeftImpl_moves_witness :
  let v := MkSlice 1%positive 0 4 4 in
  let h : Heap := {[ 1%positive := [Integer 1; Integer 2; Integer 3; Integer 4] ]} in
  ∃ h',
    SubVectorMoveLeftImpl
      (ArrayToList [Vector v; Integer 1; Integer 4; Vector v; Integer 0]) (GlobalFrame []) h
      = Returned (Vector v) h' ∧
    length (slice_elems h' v) = s_len v ∧
    (∀ j : nat, (j < s_len v)%nat →
       slice_elems h' v !! j =
         if decide (0 ≤ Z.of_nat j < 0 + (4 - 1))
         then slice_elems h v !! Z.to_nat (1 + (Z.of_nat j - 0))
         else slice_elems h v !! j) ∧
    (∀ l, l ≠ s_array v → h' !! l = h !! l).
Proof.
  intros v h.
  assert (Hv : slice_valid h v).
  { split; [simpl; lia |]. split; [vm_compute; lia |].
    split; [by exists [Integer 1; Integer 2; Integer 3; Integer 4] |]. vm_compute; discriminate. }
  apply (SubVectorMoveLeftImpl_moves h v v 1 4 0 (GlobalFrame []) Hv Hv);
    try (simpl; lia); try (vm_compute; discriminate).
Defined.

(** X18: [subvector-move-right!] has the same effect, for vectors on
    different arrays and for vectors on one array whose destination range
    does not start before the source range. *)
Theorem SubVectorMoveRightImpl_moves (h : Heap) (src dst : Slice) (s e s2 : Z)
    (env : SymbolTableFrame) :
  slice_valid h src → slice_valid h dst →
  Z.of_nat (s_len src) ≤ int_max → Z.of_nat (s_len dst) ≤ int_max →
  0 ≤ s < Z.of_nat (s_len src) → s ≤ e ≤ Z.of_nat (s_len src) →
  s < Z.of_nat (s_len dst) →
  0 ≤ s2 → e - s ≤ Z.of_nat (s_len dst) - s2 →
  (s_array src ≠ s_array dst ∨ Z.of_nat (s_off src) + s ≤ Z.of_nat (s_off dst) + s2) →
  ∃ h',
    SubVectorMoveRightImpl
      (ArrayToList [Vector src; Integer s; Integer e; Vector dst; Integer s2]) env h
      = Returned (Vector dst) h' ∧
    length (slice_elems h' dst) = s_len dst ∧
    (∀ j : nat, (j < s_len dst)%nat →
       slice_elems h' dst !! j =
         if decide (s2 ≤ Z.of_nat j < s2 + (e - s))
         then slice_elems h src !! Z.to_nat (s + (Z.of_nat j - s2))
         else slice_elems h dst !! j) ∧
    (∀ l, l ≠ s_array dst → h' !! l = h !! l).
Proof.
  intros Hs Hd Hms Hmd Hlo Hhi Hsd Hs2 Hfit Hov.
  destruct (move_down_cells src dst (Z.to_nat (e - s)) (Z.to_nat s) (Z.to_nat s2) h)
    as (a' & Hrun & Hlen & Hcells); [done | done | lia | lia | lia |].
  rewrite !Z2Nat.id in Hrun by lia.
  exists (<[s_array dst := a']> h).
  unfold SubVectorMoveRightImpl, First, Second, Third, Fourth, Fifth, Cadr, Caddr, Cdddr. simpl.
  destruct (decide (s < 0 ∨ s >= Z.of_nat (s_len src))); [lia |].
  destruct (decide (e < s ∨ e > Z.of_nat (s_len src))); [lia |].
  destruct (decide (s < 0 ∨ s >= Z.of_nat (s_len dst))); [lia |].
  unfold int_sub, int_add. rewrite (wrap_small (e - s)) by lia.
  rewrite (wrap_small (Z.of_nat (s_len dst) - s2)) by lia.
  destruct (decide (e - s > Z.of_nat (s_len dst) - s2)); [lia |].
  rewrite (wrap_small (s2 + (e - s))) by lia.
  destruct (decide (e = s)) as [->|Hne].
  - rewrite Z.sub_diag in *. simpl in Hrun |- *. injection Hrun as Hrun.
    split; [f_equal; exact Hrun |].
    assert (Hd' : slice_valid (<[s_array dst := a']> h) dst) by by apply slice_valid_insert.
    split; [by apply length_slice_elems |]. split.
    + intros j Hj. rewrite lookup_slice_elems, array_at_insert_eq, Hcells by done.
      destruct (decide (s2 ≤ Z.of_nat j < s2 + 0)); [lia |].
      destruct (decide _); [lia |]. by rewrite lookup_slice_elems.
    + intros l Hl. by rewrite lookup_insert_ne.
  - rewrite (wrap_small (s2 + (e - s) - 1)) by lia.
    replace (e - 1) with (s + (e - s) - 1) by lia. rewrite Hrun. split; [done |].
    assert (Hd' : slice_valid (<[s_array dst := a']> h) dst) by by apply slice_valid_insert.
    split; [by apply length_slice_elems |]. split.
    + intros j Hj. rewrite lookup_slice_elems, array_at_insert_eq, Hcells by done.
      destruct (decide (s2 ≤ Z.of_nat j < s2 + (e - s))).
      * destruct (decide _); [| lia]. rewrite lookup_slice_elems by lia. f_equal. lia.
      * destruct (decide _); [lia |]. by rewrite lookup_slice_elems.
    + intros l Hl. by rewrite lookup_insert_ne.
Qed.

Lemma SubVectorMoveRightImpl_moves_witness :
  let v := MkSlice 1%positive 0 4 4 in
  let h : Heap := {[ 1%positive := [Integer 1; Integer 2; Integer 3; Integer 4] ]} in
  ∃ h',
    SubVectorMoveRightImpl
      (ArrayToList [Vector v; Integer 0; Integer 3; Vector v; Integer 1]) (GlobalFrame []) h
      = Returned (Vector v) h' ∧
    length (slice_elems h' v) = s_len v ∧
    (∀ j : nat, (j < s_len v)%nat →
       slice_elems h' v !! j =
         if decide (1 ≤ Z.of_nat j < 1 + (3 - 0))
         then slice_elems h v !! Z.to_nat (0 + (Z.of_nat j - 1))
         else slice_elems h v !! j) ∧
    (∀ l, l ≠ s_array v → h' !! l = h !! l).
Proof.
  intros v h.
  assert (Hv : slice_valid h v).
  { split; [simpl; lia |]. split; [vm_compute; lia |].
    split; [by exists [Integer 1; Integer 2; Integer 3; Integer 4] |]. vm_compute; discriminate. }
  apply (SubVectorMoveRightImpl_moves h v v 0 3 1 (GlobalFrame []) Hv Hv);
    try (simpl; lia); try (vm_compute; discriminate).
Defined.

(** X19: the destination index of [subvector-move-left!] has no lower
    guard (the second range check tests the source index again): with
    arguments that pass the checks, a source range that is not empty and
    a negative destination index, the first write panics. *)
Theorem SubVectorMoveLeftImpl_negative_destination_panics
    (h : Heap) (src dst : Slice) (s e s2 : Z) (env : SymbolTableFrame) :
  Z.of_nat (s_len src) ≤ int_max → Z.of_nat (s_len dst) - s2 ≤ int_max →
  0 ≤ s < Z.of_nat (s_len src) → s < e ≤ Z.of_nat (s_len src) →
  s < Z.of_nat (s_len dst) →
  s2 < 0 → e - s ≤ Z.of_nat (s_len dst) - s2 →
  SubVectorMoveLeftImpl
    (ArrayToList [Vector src; Integer s; Integer e; Vector dst; Integer s2]) env h
    = Panicked IndexOutOfRange.
Proof.
  intros Hms Hmd Hlo Hhi Hsd Hs2 Hfit.
  unfold SubVectorMoveLeftImpl, First, Second, Third, Fourth, Fifth, Cadr, Caddr, Cdddr. simpl.
  destruct (decide (s < 0 ∨ s >= Z.of_nat (s_len src))); [lia |].
  destruct (decide (e < s ∨ e > Z.of_nat (s_len src))); [lia |].
  destruct (decide (s < 0 ∨ s >= Z.of_nat (s_len dst))); [lia |].
  unfold int_sub. rewrite !wrap_small by lia.
  destruct (decide (e - s > Z.of_nat (s_len dst) - s2)); [lia |].
  destruct (Z.to_nat (e - s)) as [|rounds] eqn:Hrounds; [lia |].
  cbn [move_up].
  destruct (index_get_in_range h src s) as [v Hv]; [lia |].
  rewrite Hv, index_set_out_of_range; [done | lia].
Qed.

Lemma SubVectorMoveLeftImpl_negative_destination_panics_witness :
  let v := MkSlice 1%positive 0 4 4 in
  let h : Heap := {[ 1%positive := [Integer 1; Integer 2; Integer 3; Integer 4] ]} in
  SubVectorMoveLeftImpl
    (ArrayToList [Vector v; Integer 1; Integer 2; Vector v; Integer (-1)]) (GlobalFrame []) h
    = Panicked IndexOutOfRange.
Proof.
  intros v h.
  apply (SubVectorMoveLeftImpl_negative_destination_panics h v v 1 2 (-1) (GlobalFrame []));
    try (simpl; lia); vm_compute; discriminate.
Defined.

(** ** Selecting elements with a predicate *)

Lemma filter_partition_Permutation (p : Data → bool) (l : list Data) :
  List.filter p l ++ List.filter (λ x, negb (p x)) l ≡ₚ l.
Proof.
  induction l as [|x l IH]; simpl; [done |].
  destruct (p x); simpl.
  - by constructor.
  - rewrite <- Permutation_middle. by constructor.
Qed.

Lemma filter_take_S (p : Data → bool) (l : list Data) (i : nat) (x : Data) :
  l !! i = Some x →
  List.filter p (take (S i) l) =
    List.filter p (take i l) ++ (if p x then [x] else []).
Proof.
  intros Hx. rewrite (take_S_r _ _ _ Hx), List.filter_app. simpl. by destruct (p x).
Qed.

Lemma filter_take_length (p : Data → bool) (l : list Data) (i : nat) :
  (length (List.filter p (take i l)) ≤ i)%nat.
Proof.
  etransitivity; [apply List.filter_length_le |]. rewrite length_take. lia.
Qed.

Section SelectionFacts.
Variable FunctionOrPrimitiveP : Data → bool.
Variable BooleanValue : Data → bool.
Variable LispFalse : Data.
Variable InternalMakeList : list Data → Data.
Variable ApplyWithoutEval : Data → Data → SymbolTableFrame → Heap → ApplyOutcome.

Variable f : Data.
Variable env : SymbolTableFrame.
Variable p : Data → bool.

(** The applied function decides like the predicate [p] and leaves the
    store alone; the truth accessor reads a boolean as itself. *)
Hypothesis f_is_function : FunctionOrPrimitiveP f = true.
Hypothesis f_decides : ∀ (val : Data) (h : Heap),
  ApplyWithoutEval f (InternalMakeList [val]) env h = Applied (Boolean (p val)) None h.
Hypothesis BooleanValue_Boolean : ∀ b : bool, BooleanValue (Boolean b) = b.

Lemma filter_loop_pure (h : Heap) (src : Slice) (l : loc) :
  slice_valid h src → l ≠ s_array src →
  ∀ (m i : nat), (i + m = s_len src)%nat →
    filter_loop BooleanValue InternalMakeList ApplyWithoutEval f env m (Z.of_nat i) src
      (MkSlice l 0 (length (List.filter p (take i (slice_elems h src)))) (s_len src))
      (<[l := List.filter p (take i (slice_elems h src))
              ++ replicate (s_len src - length (List.filter p (take i (slice_elems h src)))) Nil]> h)
    = HReturned
        (Vector (MkSlice l 0 (length (List.filter p (slice_elems h src))) (s_len src)))
        None
        (<[l := List.filter p (slice_elems h src)
                ++ replicate (s_len src - length (List.filter p (slice_elems h src))) Nil]> h).
Proof.
  intros Hv Hl. pose proof (length_slice_elems h src Hv) as Hlen.
  induction m as [|m IH]; intros i Him.
  - simpl. rewrite Nat.add_0_r in Him. subst i. by rewrite take_ge by lia.
  - cbn [filter_loop].
    destruct (index_get_elems h src i Hv) as (x & Hx & Hget); [lia |].
    set (kept := List.filter p (take i (slice_elems h src))).
    assert (Hget' : index_get (<[l := kept ++ replicate (s_len src - length kept) Nil]> h)
                      src (Z.of_nat i) = Some x).
    { rewrite <- Hget. unfold index_get. by rewrite array_at_insert_ne. }
    rewrite Hget', f_decides. cbn [BooleanP negb]. rewrite BooleanValue_Boolean.
    pose proof (filter_take_length p (slice_elems h src) i) as Hk. fold kept in Hk.
    pose proof (filter_take_S p (slice_elems h src) i x Hx) as HS. fold kept in HS.
    replace (Z.of_nat i + 1) with (Z.of_nat (S i)) by lia.
    destruct (p x).
    + unfold append. cbn [s_len s_cap s_array s_off].
      destruct (decide (length kept < s_len src)%nat); [| lia].
      rewrite array_at_insert_eq, insert_insert_eq. simpl (0 + length kept)%nat.
      replace (<[length kept := x]> (kept ++ replicate (s_len src - length kept) Nil))
        with ((kept ++ [x]) ++ replicate (s_len src - length (kept ++ [x])) Nil).
      2:{ rewrite insert_app_r_alt, Nat.sub_diag by lia.
          rewrite length_app. simpl length.
          replace (s_len src - length kept)%nat
            with (S (s_len src - (length kept + 1))) by lia.
          by rewrite <- app_assoc. }
      replace (S (length kept)) with (length (kept ++ [x]))
        by (rewrite length_app; simpl; lia).
      rewrite <- HS. apply IH. lia.
    + rewrite app_nil_r in HS. rewrite <- HS. apply IH. lia.
Qed.

Lemma remove_loop_pure (h : Heap) (src : Slice) (l : loc) :
  slice_valid h src → l ≠ s_array src →
  let q := λ x, negb (p x) in
  ∀ (m i : nat), (i + m = s_len src)%nat →
    remove_loop BooleanValue InternalMakeList ApplyWithoutEval f env m (Z.of_nat i) src
      (MkSlice l 0 (length (List.filter q (take i (slice_elems h src)))) (s_len src))
      (<[l := List.filter q (take i (slice_elems h src))
              ++ replicate (s_len src - length (List.filter q (take i (slice_elems h src)))) Nil]> h)
    = HReturned
        (Vector (MkSlice l 0 (length (List.filter q (slice_elems h src))) (s_len src)))
        None
        (<[l := List.filter q (slice_elems h src)
                ++ replicate (s_len src - length (List.filter q (slice_elems h src))) Nil]> h).
Proof.
  intros Hv Hl q. pose proof (length_slice_elems h src Hv) as Hlen.
  induction m as [|m IH]; intros i Him.
  - simpl. rewrite Nat.add_0_r in Him. subst i. by rewrite take_ge by lia.
  - cbn [remove_loop].
    destruct (index_get_elems h src i Hv) as (x & Hx & Hget); [lia |].
    set (kept := List.filter q (take i (slice_elems h src))).
    assert (Hget' : index_get (<[l := kept ++ replicate (s_len src - length kept) Nil]> h)
                      src (Z.of_nat i) = Some x).
    { rewrite <- Hget. unfold index_get. by rewrite array_at_insert_ne. }
    rewrite Hget', f_decides. cbn [BooleanP negb]. rewrite BooleanValue_Boolean.
    pose proof (filter_take_length q (slice_elems h src) i) as Hk. fold kept in Hk.
    pose proof (filter_take_S q (slice_elems h src) i x Hx) as HS. fold kept in HS.
    replace (Z.of_nat i + 1) with (Z.of_nat (S i)) by lia.
    subst q. cbv beta in HS. destruct (p x); cbn [negb] in HS |- *.
    + rewrite app_nil_r in HS. rewrite <- HS. apply IH. lia.
    + unfold append. cbn [s_len s_cap s_array s_off].
      destruct (decide (length kept < s_len src)%nat); [| lia].
      rewrite array_at_insert_eq, insert_insert_eq. simpl (0 + length kept)%nat.
      replace (<[length kept := x]> (kept ++ replicate (s_len src - length kept) Nil))
        with ((kept ++ [x]) ++ replicate (s_len src - length (kept ++ [x])) Nil).
      2:{ rewrite insert_app_r_alt, Nat.sub_diag by lia.
          rewrite length_app. simpl length.
          replace (s_len src - length kept)%nat
            with (S (s_len src - (length kept + 1))) by lia.
          by rewrite <- app_assoc. }
      replace (S (length kept)) with (length (kept ++ [x]))
        by (rewrite length_app; simpl; lia).
      rewrite <- HS. apply IH. lia.
Qed.

Lemma slice_elems_selected (h : Heap) (l : loc) (kept : list Data) (cap : nat) :
  (length kept ≤ cap)%nat →
  slice_elems (<[l := kept ++ replicate (cap - length kept) Nil]> h)
              (MkSlice l 0 (length kept) cap) = kept.
Proof.
  intros Hc. unfold slice_elems. cbn [s_len s_off s_array].
  by rewrite array_at_insert_eq, drop_0, take_app_length.
Qed.

(** X20: with a function that decides like a predicate [p] and leaves the
    store alone, [vector-filter] returns a new vector of the elements
    satisfying [p], in order, and [vector-remove] one of the elements not
    satisfying it; the argument keeps its elements, and the two results
    together hold exactly the argument's elements. *)
Theorem filter_and_remove_partition (h : Heap) (s : Slice) :
  slice_valid h s →
  ∃ (rf rr : Slice) (hf hr : Heap),
    VectorFilterImpl FunctionOrPrimitiveP BooleanValue InternalMakeList ApplyWithoutEval
      (ArrayToList [f; Vector s]) env h = HReturned (Vector rf) None hf ∧
    VectorRemoveImpl FunctionOrPrimitiveP BooleanValue InternalMakeList ApplyWithoutEval
      (ArrayToList [f; Vector s]) env h = HReturned (Vector rr) None hr ∧
    slice_elems hf rf = List.filter p (slice_elems h s) ∧
    slice_elems hr rr = List.filter (λ x, negb (p x)) (slice_elems h s) ∧
    slice_elems hf s = slice_elems h s ∧
    slice_elems hr s = slice_elems h s ∧
    slice_elems hf rf ++ slice_elems hr rr ≡ₚ slice_elems h s.
Proof.
  intros Hv. pose proof (length_slice_elems h s Hv) as Hlen.
  pose proof (slice_len_bounded h s Hv) as Hmax.
  pose proof (fresh_not_valid h s Hv) as Hfresh.
  pose proof (filter_loop_pure h s (fresh (dom h)) Hv Hfresh (s_len s) 0 eq_refl) as Hf.
  pose proof (remove_loop_pure h s (fresh (dom h)) Hv Hfresh (s_len s) 0 eq_refl) as Hr.
  simpl in Hf, Hr. rewrite Nat.sub_0_r in Hf, Hr.
  eexists _, _, _, _.
  split; [| split].
  - unfold VectorFilterImpl, First, Second, Cadr. simpl. rewrite f_is_function. simpl.
    rewrite make_slice_fresh by lia. rewrite Nat2Z.id. exact Hf.
  - unfold VectorRemoveImpl, First, Second, Cadr. simpl. rewrite f_is_function. simpl.
    rewrite make_slice_fresh by lia. rewrite Nat2Z.id. exact Hr.
  - assert (Hlf : (length (List.filter p (slice_elems h s)) ≤ s_len s)%nat).
    { rewrite <- Hlen. apply List.filter_length_le. }
    assert (Hlr : (length (List.filter (λ x, negb (p x)) (slice_elems h s)) ≤ s_len s)%nat).
    { rewrite <- Hlen. apply List.filter_length_le. }
    rewrite !slice_elems_selected by done.
    split; [done |]. split; [done |].
    split; [unfold slice_elems; by rewrite array_at_insert_ne |].
    split; [unfold slice_elems; by rewrite array_at_insert_ne |].
    apply filter_partition_Permutation.
Qed.

Lemma find_loop_pure (h : Heap) (src : Slice) :
  slice_valid h src →
  ∀ (m i : nat), (i + m = s_len src)%nat →
    find_loop BooleanValue LispFalse InternalMakeList ApplyWithoutEval f env m (Z.of_nat i) src h
    = match List.find p (drop i (slice_elems h src)) with
      | Some x => HReturned x None h
      | None => HReturned LispFalse None h
      end.
Proof.
  intros Hv. pose proof (length_slice_elems h src Hv) as Hlen.
  induction m as [|m IH]; intros i Him.
  - simpl. by rewrite drop_ge by lia.
  - cbn [find_loop].
    destruct (index_get_elems h src i Hv) as (x & Hx & Hget); [lia |].
    rewrite Hget, f_decides. cbn [BooleanP negb]. rewrite BooleanValue_Boolean.
    rewrite (drop_S _ _ _ Hx). simpl. destruct (p x); [done |].
    replace (Z.of_nat i + 1) with (Z.of_nat (S i)) by lia. apply IH. lia.
Qed.

(** X21: with such a function [vector-find] returns the first element of
    the vector that satisfies [p], and the false constant when there is
    none; the store is as it was. *)
Theorem VectorFindImpl_finds_first (h : Heap) (s : Slice) :
  slice_valid h s →
  VectorFindImpl FunctionOrPrimitiveP BooleanValue LispFalse InternalMakeList ApplyWithoutEval
    (ArrayToList [f; Vector s]) env h
  = match List.find p (slice_elems h s) with
    | Some x => HReturned x None h
    | None => HReturned LispFalse None h
    end.
Proof.
  intros Hv. unfold VectorFindImpl, First, Second, Cadr. simpl.
  rewrite f_is_function. simpl.
  change 0 with (Z.of_nat 0).
  by rewrite (find_loop_pure h s Hv (s_len s) 0 eq_refl), drop_0.
Qed.

End SelectionFacts.

Lemma filter_and_remove_partition_witness :
  let FunctionOrPrimitiveP := λ d : Data, match d with Symbol _ => true | _ => false end in
  let BooleanValue := λ d : Data, match d with Boolean b => b | _ => true end in
  let p := λ d : Data, match d with Integer n => 1 <? n | _ => false end in
  let ApplyWithoutEval := λ (_ args : Data) (_ : SymbolTableFrame) (h : Heap),
    Applied (Boolean (p (Car args))) None h in
  let s := MkSlice 1%positive 0 3 3 in
  let h : Heap := {[ 1%positive := [Integer 1; Integer 2; Integer 3] ]} in
  ∃ (rf rr : Slice) (hf hr : Heap),
    VectorFilterImpl FunctionOrPrimitiveP BooleanValue ArrayToList ApplyWithoutEval
      (ArrayToList [Symbol "big?"; Vector s]) (GlobalFrame []) h
      = HReturned (Vector rf) None hf ∧
    VectorRemoveImpl FunctionOrPrimitiveP BooleanValue ArrayToList ApplyWithoutEval
      (ArrayToList [Symbol "big?"; Vector s]) (GlobalFrame []) h
      = HReturned (Vector rr) None hr ∧
    slice_elems hf rf = List.filter p (slice_elems h s) ∧
    slice_elems hr rr = List.filter (λ x, negb (p x)) (slice_elems h s) ∧
    slice_elems hf s = slice_elems h s ∧
    slice_elems hr s = slice_elems h s ∧
    slice_elems hf rf ++ slice_elems hr rr ≡ₚ slice_elems h s.
Proof.
  intros FunctionOrPrimitiveP BooleanValue p ApplyWithoutEval s h.
  assert (Hv : slice_valid h s).
  { split; [simpl; lia |]. split; [vm_compute; lia |]. split; [by exists [Integer 1; Integer 2; Integer 3] |]. vm_compute; discriminate. }
  exact (filter_and_remove_partition FunctionOrPrimitiveP BooleanValue ArrayToList
           ApplyWithoutEval (Symbol "big?") (GlobalFrame []) p
           eq_refl (λ _ _, eq_refl) (λ _, eq_refl) h s Hv).
Defined.

Lemma VectorFindImpl_finds_first_witness :
  let FunctionOrPrimitiveP := λ d : Data, match d with Symbol _ => true | _ => false end in
  let BooleanValue := λ d : Data, match d with Boolean b => b | _ => true end in
  let p := λ d : Data, match d with Integer n => 1 <? n | _ => false end in
  let ApplyWithoutEval := λ (_ args : Data) (_ : SymbolTableFrame) (h : Heap),
    Applied (Boolean (p (Car args))) None h in
  let s := MkSlice 1%positive 0 3 3 in
  let h : Heap := {[ 1%positive := [Integer 1; Integer 2; Integer 3] ]} in
  VectorFindImpl FunctionOrPrimitiveP BooleanValue (Boolean false) ArrayToList ApplyWithoutEval
    (ArrayToList [Symbol "big?"; Vector s]) (GlobalFrame []) h
  = match List.find p (slice_elems h s) with
    | Some x => HReturned x None h
    | None => HReturned (Boolean false) None h
    end.
Proof.
  intros FunctionOrPrimitiveP BooleanValue p ApplyWithoutEval s h.
  assert (Hv : slice_valid h s).
  { split; [simpl; lia |]. split; [vm_compute; lia |]. split; [by exists [Integer 1; Integer 2; Integer 3] |]. vm_compute; discriminate. }
  exact (VectorFindImpl_finds_first FunctionOrPrimitiveP BooleanValue (Boolean false) ArrayToList
           ApplyWithoutEval (Symbol "big?") (GlobalFrame []) p
           eq_refl (λ _ _, eq_refl) (λ _, eq_refl) h s Hv).
Defined.

(** ** Switching break-on-error from a script *)

(** X22: [(debug-on-error x)] answers the truth of [x] and decides what
    [ProcessError] does with the next failure: when [x] is false the
    failure is handed back as an error; when [x] is true, in an
    interactive session and outside the debugger's own evaluation, it goes
    to the command loop. *)
Theorem debug_on_error_decides_next_failure {W : Type}
    (Parse : string → Data * option Message)
    (Eval : Data → SymbolTableFrame → State W → EvalOutcome W)
    (BooleanValue : Data → bool)
    (x : Data) (env env' : SymbolTableFrame) (msg : Message)
    (lines : list string) (st : State W) :
  let st1 := (DebugOnErrorImpl BooleanValue (ArrayToList [x]) env st).2 in
  (DebugOnErrorImpl BooleanValue (ArrayToList [x]) env st).1
    = (Boolean (BooleanValue x), None) ∧
  world st1 = world st ∧
  (BooleanValue x = false →
     ProcessError Parse Eval msg env' lines st1 = Done (Some msg) st1 lines) ∧
  (BooleanValue x = true →
   IsInteractive (flags st) = true → DebugEvalInDebugRepl (flags st) = false →
     ProcessError Parse Eval msg env' lines st1 =
       match DebugRepl Parse Eval env' lines st1 with
       | Done _ st' rest => Done None st' rest
       | Exits st' => Exits st'
       | AwaitsInput st' => AwaitsInput st'
       end).
Proof.
  intros st1. subst st1. unfold DebugOnErrorImpl. simpl.
  split; [done |]. split; [done |]. split.
  - intros Hx. apply ProcessError_propagates. unfold rerouted. simpl. by rewrite Hx.
  - intros Hx Hi Hr. apply ProcessError_reroutes. unfold rerouted. simpl.
    by rewrite Hx, Hi, Hr.
Qed.

Lemma debug_on_error_decides_next_failure_witness :
  let Parse := λ text : string, (Symbol text, @None Message) in
  let Eval := λ (d : Data) (_ : SymbolTableFrame) (st : State unit),
    EvalReturns d None st in
  let BooleanValue := λ d : Data, match d with Boolean b => b | _ => true end in
  let st := MkState (MkFlags false true true false false None Nil) tt in
  let st1 := (DebugOnErrorImpl BooleanValue (ArrayToList [Boolean false]) (GlobalFrame []) st).2 in
  ProcessError Parse Eval [Lit "boom"] (GlobalFrame []) [":c"] st1
    = Done (Some [Lit "boom"]) st1 [":c"].
Proof.
  intros Parse Eval BooleanValue st st1.
  exact (proj1 (proj2 (proj2 (debug_on_error_decides_next_failure Parse Eval BooleanValue
           (Boolean false) (GlobalFrame []) (GlobalFrame []) [Lit "boom"] [":c"] st)))
           eq_refl).
Defined.
